(** * RPG Companion: response parser and tracker commit logic

    A shallow embedding of
      - src/systems/generation/parser.js      (stripBrackets, parseResponse,
                                               parseActionSuggestions),
      - src/systems/integration/sillytavern.js (onMessageSent, onMessageReceived,
                                               onMessageSwiped),
      - src/systems/generation/injector.js     (onGenerationStarted),
      - src/core/state.js                      (the module-level tracker state),
    together with the part of the ECMAScript regular-expression semantics that
    these functions rely on. *)

From Stdlib Require Import NArith String Ascii Lia Bool.
From stdpp Require Import base option list gmap.

Local Open Scope N_scope.
Local Open Scope nat_scope.

(** ** JavaScript strings

    A JavaScript string is a sequence of UTF-16 code units. *)

Module JSString.

Definition char := N.
Definition jsstring := list char.

Definition nl : char := 10%N.
Definition quote : char := 34%N.
Definition backtick : char := 96%N.

(** LineTerminator :: LF CR LS PS *)
Definition isLineTerminator (c : char) : bool :=
  ((c =? 10) || (c =? 13) || (c =? 8232) || (c =? 8233))%N.

(** WhiteSpace and LineTerminator: what [\s] matches and what [trim] strips. *)
Definition isSpace (c : char) : bool :=
  (isLineTerminator c
   || (c =? 9) || (c =? 11) || (c =? 12) || (c =? 32) || (c =? 160)
   || (c =? 5760) || ((8192 <=? c) && (c <=? 8202))
   || (c =? 8239) || (c =? 8287) || (c =? 12288) || (c =? 65279))%N.

Definition isDigit (c : char) : bool := ((48 <=? c) && (c <=? 57))%N.
Definition isUpper (c : char) : bool := ((65 <=? c) && (c <=? 90))%N.
Definition isLower (c : char) : bool := ((97 <=? c) && (c <=? 122))%N.
(** [\w] *)
Definition isWord (c : char) : bool :=
  (isUpper c || isLower c || isDigit c || (c =? 95))%N.

(** Canonicalize of the regular-expression semantics without the unicode
    flag: the upper-case mapping, which for a code unit above 127 never
    yields one below 128.  Every pattern of this program that carries the
    [i] flag is made of ASCII characters only, so only the ASCII part of the
    mapping can decide a comparison. *)
Definition canonicalize (c : char) : char := (if isLower c then c - 32 else c)%N.

(** [toLowerCase], on the characters it is applied to in this program:
    the text captured by [[A-Za-z\s\/]+]. *)
Definition toLowerChar (c : char) : char := (if isUpper c then c + 32 else c)%N.
Definition toLowerCase (s : jsstring) : jsstring := map toLowerChar s.

(** A string literal of the source; [\n] is the only escape. *)
Fixpoint js (s : string) : jsstring :=
  match s with
  | EmptyString => []
  | String a s' =>
      match a, s' with
      | "\"%char, String "n"%char s'' => nl :: js s''
      | _, _ => N_of_ascii a :: js s'
      end
  end.

Fixpoint trimStart (s : jsstring) : jsstring :=
  match s with
  | c :: s' => if isSpace c then trimStart s' else s
  | [] => []
  end.
Definition trimEnd (s : jsstring) : jsstring := reverse (trimStart (reverse s)).
Definition trim (s : jsstring) : jsstring := trimEnd (trimStart s).

Definition startsWith (c : char) (s : jsstring) : bool :=
  match s with
  | c' :: _ => (c' =? c)%N
  | [] => false
  end.
Definition endsWith (c : char) (s : jsstring) : bool :=
  match last s with
  | Some c' => (c' =? c)%N
  | None => false
  end.

(** [s.substring(a, b)] for [a <= b]. *)
Definition substring (a b : nat) (s : jsstring) : jsstring := take (b - a) (drop a s).

Fixpoint isPrefixOf (p s : jsstring) : bool :=
  match p, s with
  | [], _ => true
  | a :: p', b :: s' => (a =? b)%N && isPrefixOf p' s'
  | _ :: _, [] => false
  end.

(** [s.includes(p)] *)
Fixpoint includes (p s : jsstring) : bool :=
  isPrefixOf p s ||
  match s with
  | [] => false
  | _ :: s' => includes p s'
  end.

(** Truthiness of a value that is a string or null. *)
Definition truthy (v : option jsstring) : bool :=
  match v with
  | Some (_ :: _) => true
  | _ => false
  end.

(** [v || null] *)
Definition orNull (v : option jsstring) : option jsstring :=
  if truthy v then v else None.

End JSString.
Export JSString.

(** ** Regular expressions

    The backtracking matcher of the language specification, in
    continuation-passing style: a matcher takes the continuation that must
    accept the rest of the input, so that alternatives are tried in the
    specified order (greedy and lazy quantifiers, alternation left to right).
    The quantifiers [+] and [{n,}] are written with [*].  Captures made inside
    a quantified group are not cleared between iterations; the only such
    groups of this program are never read. *)

Module RegExp.

Inductive ClassItem :=
| CChar (c : char)
| CRange (lo hi : char)
| CSpace                        (* \s *)
| CNotSpace                     (* \S *)
| CDigit                        (* \d *)
| CWord.                        (* \w *)

Inductive Regex :=
| Chr (c : char)                (* a pattern character *)
| Dot                           (* .  *)
| Cls (negated : bool) (items : list ClassItem)   (* [...] and [^...] *)
| Eps
| Seq (r1 r2 : Regex)
| Alt (r1 r2 : Regex)           (* r1|r2 *)
| Star (greedy : bool) (r : Regex)   (* r* and r*? *)
| Opt (r : Regex)               (* r? *)
| Grp (n : nat) (r : Regex)     (* the n-th capturing group *)
| Ahead (r : Regex)             (* (?=r) *)
| Bol                           (* ^ *)
| Eol.                          (* $ *)

Record Flags := { ignoreCase : bool; multiline : bool }.

Record MState := {
  pos : nat;                    (* index of the next character *)
  prev : option char;           (* the character before it *)
  rest : jsstring;              (* the input from [pos] on *)
  caps : list (nat * jsstring)  (* captures, latest first *)
}.

Definition Cont := MState -> option MState.

Definition inRange (lo hi c : char) : bool := ((lo <=? c) && (c <=? hi))%N.

Definition itemMatches (ic : bool) (c : char) (it : ClassItem) : bool :=
  match it with
  | CChar a => if ic then (canonicalize a =? canonicalize c)%N else (a =? c)%N
  | CRange lo hi =>
      if ic then inRange lo hi c || inRange lo hi (canonicalize c)
                 || inRange lo hi (toLowerChar c)
      else inRange lo hi c
  | CSpace => isSpace c
  | CNotSpace => negb (isSpace c)
  | CDigit => isDigit c
  | CWord => isWord c
  end.

Definition classMatches (ic negated : bool) (items : list ClassItem) (c : char) : bool :=
  xorb negated (existsb (itemMatches ic c) items).

Definition chrMatches (ic : bool) (a c : char) : bool :=
  if ic then (canonicalize a =? canonicalize c)%N else (a =? c)%N.

Definition advance (c : char) (tl : jsstring) (s : MState) : MState :=
  {| pos := S (pos s); prev := Some c; rest := tl; caps := caps s |}.

Definition step1 (p : char -> bool) (k : Cont) (s : MState) : option MState :=
  match rest s with
  | c :: tl => if p c then k (advance c tl s) else None
  | [] => None
  end.

(** RepeatMatcher with min = 0 and no upper bound: an iteration that
    consumes nothing is rejected, so [fuel] above the length of the
    remaining input is never exhausted. *)
Fixpoint starLoop (body : Cont -> Cont) (greedy : bool) (k : Cont)
         (fuel : nat) (s : MState) : option MState :=
  match fuel with
  | O => None
  | S fuel' =>
      let d := fun y => if pos y =? pos s then None
                        else starLoop body greedy k fuel' y in
      if greedy
      then match body d s with Some z => Some z | None => k s end
      else match k s with Some z => Some z | None => body d s end
  end.

Definition atLineStart (ml : bool) (s : MState) : bool :=
  match prev s with
  | None => true
  | Some c => ml && isLineTerminator c
  end.

Definition atLineEnd (ml : bool) (s : MState) : bool :=
  match rest s with
  | [] => true
  | c :: _ => ml && isLineTerminator c
  end.

Definition setCap (n : nat) (v : jsstring) (s : MState) : MState :=
  {| pos := pos s; prev := prev s; rest := rest s; caps := (n, v) :: caps s |}.

Definition rewind (s y : MState) : MState :=
  {| pos := pos s; prev := prev s; rest := rest s; caps := caps y |}.

Fixpoint rmatch (fl : Flags) (r : Regex) (k : Cont) (s : MState) {struct r}
  : option MState :=
  match r with
  | Chr a => step1 (chrMatches (ignoreCase fl) a) k s
  | Dot => step1 (fun c => negb (isLineTerminator c)) k s
  | Cls neg items => step1 (classMatches (ignoreCase fl) neg items) k s
  | Eps => k s
  | Seq r1 r2 => rmatch fl r1 (rmatch fl r2 k) s
  | Alt r1 r2 =>
      match rmatch fl r1 k s with
      | Some z => Some z
      | None => rmatch fl r2 k s
      end
  | Star g r1 => starLoop (rmatch fl r1) g k (S (length (rest s))) s
  | Opt r1 =>
      match rmatch fl r1 (fun y => if pos y =? pos s then None else k y) s with
      | Some z => Some z
      | None => k s
      end
  | Grp n r1 =>
      rmatch fl r1 (fun y => k (setCap n (take (pos y - pos s) (rest s)) y)) s
  | Ahead r1 =>
      match rmatch fl r1 Some s with
      | Some y => k (rewind s y)
      | None => None
      end
  | Bol => if atLineStart (multiline fl) s then k s else None
  | Eol => if atLineEnd (multiline fl) s then k s else None
  end.

(** The result of a successful match: [match.index], [match[0]], the
    captures and the index after the match. *)
Record Match := {
  index : nat;
  matched : jsstring;
  groups : list (nat * jsstring);
  mend : nat
}.

(** [match[n]] for a group that took part in the match. *)
Definition group (n : nat) (m : Match) : jsstring :=
  match list_find (fun p => p.1 = n) (groups m) with
  | Some (_, (_, v)) => v
  | None => []
  end.

Definition tryAt (fl : Flags) (r : Regex) (p : nat) (pv : option char)
           (rs : jsstring) : option Match :=
  match rmatch fl r Some {| pos := p; prev := pv; rest := rs; caps := [] |} with
  | Some z => Some {| index := p; matched := take (pos z - p) rs;
                      groups := caps z; mend := pos z |}
  | None => None
  end.

(** The leftmost match starting at index [p] or later. *)
Fixpoint searchFrom (fl : Flags) (r : Regex) (p : nat) (pv : option char)
         (rs : jsstring) : option Match :=
  match tryAt fl r p pv rs with
  | Some m => Some m
  | None =>
      match rs with
      | [] => None
      | c :: rs' => searchFrom fl r (S p) (Some c) rs'
      end
  end.

(** [regex.exec(text)] of a regular expression whose [lastIndex] is
    [lastIndex]; the new [lastIndex] is [mend] of the result. *)
Definition exec (fl : Flags) (r : Regex) (text : jsstring) (lastIndex : nat)
  : option Match :=
  if lastIndex <=? length text
  then searchFrom fl r lastIndex (last (take lastIndex text)) (drop lastIndex text)
  else None.

(** [text.match(regex)] without the [g] flag. *)
Definition jsmatch (fl : Flags) (r : Regex) (text : jsstring) : option Match :=
  exec fl r text 0.

(** [regex.test(text)], also the truth value of [text.match(regex)]. *)
Definition test (fl : Flags) (r : Regex) (text : jsstring) : bool :=
  bool_decide (is_Some (jsmatch fl r text)).

(** All matches of a [g] regular expression, as [matchAll] and [replace]
    enumerate them: after an empty match the search resumes one further. *)
Fixpoint matchAllLoop (fl : Flags) (r : Regex) (text : jsstring)
         (fuel lastIndex : nat) : list Match :=
  match fuel with
  | O => []
  | S fuel' =>
      match exec fl r text lastIndex with
      | None => []
      | Some m =>
          m :: matchAllLoop fl r text fuel'
                 (if mend m =? index m then S (mend m) else mend m)
      end
  end.

Definition matchAll (fl : Flags) (r : Regex) (text : jsstring) : list Match :=
  matchAllLoop fl r text (S (length text)) 0.

Fixpoint splice (f : Match -> jsstring) (text : jsstring) (from : nat)
         (ms : list Match) : jsstring :=
  match ms with
  | [] => drop from text
  | m :: ms' =>
      take (index m - from) (drop from text) ++ f m ++ splice f text (mend m) ms'
  end.

(** [text.replace(regex, f)] for a [g] regular expression. *)
Definition replaceAll (fl : Flags) (r : Regex) (f : Match -> jsstring)
           (text : jsstring) : jsstring :=
  splice f text 0 (matchAll fl r text).

(** Pattern syntax. *)
Fixpoint rseq (rs : list Regex) : Regex :=
  match rs with
  | [] => Eps
  | [r] => r
  | r :: rs' => Seq r (rseq rs')
  end.
Definition lit (s : string) : Regex := rseq (map Chr (js s)).
Definition plus (greedy : bool) (r : Regex) : Regex := Seq r (Star greedy r).
Definition ws : Regex := Cls false [CSpace].
Definition wsStar : Regex := Star true ws.
Definition newline : Regex := Chr nl.

Definition flags_none := {| ignoreCase := false; multiline := false |}.
Definition flags_i := {| ignoreCase := true; multiline := false |}.
Definition flags_m := {| ignoreCase := false; multiline := true |}.
Definition flags_im := {| ignoreCase := true; multiline := true |}.

End RegExp.
Export RegExp.

(** ** parser.js *)

Module Parser.

Definition ch (s : string) : char :=
  match js s with
  | c :: _ => c
  | [] => 0%N
  end.

Definition anyChar : Regex := Cls false [CSpace; CNotSpace].      (* [\s\S] *)
Definition digit : Regex := Cls false [CDigit].                   (* \d *)
Definition word : Regex := Cls false [CWord].                     (* \w *)

(** *** stripBrackets *)

(** /\[([A-Za-z\s\/]+)\]/g *)
Definition placeholderClass : Regex :=
  Cls false [CRange (ch "A") (ch "Z"); CRange (ch "a") (ch "z"); CSpace; CChar (ch "/")].
Definition placeholderPattern : Regex :=
  rseq [lit "["; Grp 1 (plus true placeholderClass); lit "]"].

Definition placeholderKeywords : list jsstring :=
  map js
    ["location"; "mood"; "emoji"; "name"; "description"; "placeholder";
     "time"; "date"; "weather"; "temperature"; "action"; "appearance";
     "skill"; "quest"; "item"; "character"; "field"; "value"; "details";
     "relationship"; "thoughts"; "stat"; "status"; "lover"; "friend";
     "enemy"; "neutral"; "weekday"; "month"; "year"; "forecast"]%string.

(** [text.split(sep)] for a separator that cannot match the empty string:
    the pieces between its successive matches. *)
Fixpoint pieces (text : jsstring) (from : nat) (ms : list Match) : list jsstring :=
  match ms with
  | [] => [drop from text]
  | m :: ms' => take (index m - from) (drop from text) :: pieces text (mend m) ms'
  end.
Definition split (fl : Flags) (sep : Regex) (text : jsstring) : list jsstring :=
  pieces text 0 (matchAll fl sep text).

(** /^[A-Za-z\s\/]+$/ *)
Definition onlyPlaceholderChars : Regex := rseq [Bol; plus true placeholderClass; Eol].

Definition isPlaceholder (content : jsstring) : bool :=
  let lowerContent := trim (toLowerCase content) in
  if existsb (fun keyword => includes keyword lowerContent) placeholderKeywords
  then true
  else
    let wordCount := length (split flags_none (plus true ws) (trim content)) in
    (wordCount <=? 3) && test flags_none onlyPlaceholderChars content.

Definition isWrapped (text : jsstring) : bool :=
  (startsWith (ch "[") text && endsWith (ch "]") text)
  || (startsWith (ch "{") text && endsWith (ch "}") text)
  || (startsWith (ch "(") text && endsWith (ch ")") text).

(** The [while] loop that removes enclosing brackets.  Every iteration
    shortens the text by at least two characters, so [fuel] equal to the
    length of the text is never exhausted. *)
Fixpoint unwrapLoop (fuel : nat) (text : jsstring) : jsstring :=
  match fuel with
  | O => text
  | S fuel' =>
      if isWrapped text
      then unwrapLoop fuel' (trim (substring 1 (length text - 1) text))
      else text
  end.

Definition letterOrSpace : Regex :=
  Cls false [CRange (ch "A") (ch "Z"); CRange (ch "a") (ch "z"); CSpace].

(** /^([A-Za-z\s]+):\s*$/gm *)
Definition emptyLabel : Regex :=
  rseq [Bol; Grp 1 (plus true letterOrSpace); lit ":"; wsStar; Eol].
(** /^([A-Za-z\s]+):\s*,/gm *)
Definition labelComma : Regex :=
  rseq [Bol; Grp 1 (plus true letterOrSpace); lit ":"; wsStar; lit ","].
(** /:\s*\|/g *)
Definition colonPipe : Regex := rseq [lit ":"; wsStar; lit "|"].
(** /\|\s*\|/g *)
Definition doublePipe : Regex := rseq [lit "|"; wsStar; lit "|"].
(** /\|\s*$/gm *)
Definition trailingPipe : Regex := rseq [lit "|"; wsStar; Eol].
(** /\s{2,}/g *)
Definition multipleSpaces : Regex := rseq [ws; ws; wsStar].
(** /^\s*\n/gm *)
Definition emptyLine : Regex := rseq [Bol; wsStar; newline].

Definition stripBrackets (text : jsstring) : jsstring :=
  match text with
  | [] => text                                    (* if (!text) return text; *)
  | _ =>
      let text := trim text in
      let text := unwrapLoop (length text) text in
      let text := replaceAll flags_none placeholderPattern
                    (fun m => if isPlaceholder (group 1 m) then [] else matched m) text in
      let text := replaceAll flags_m emptyLabel (fun _ => []) text in
      let text := replaceAll flags_m labelComma (fun m => group 1 m ++ js ":") text in
      let text := replaceAll flags_none colonPipe (fun _ => js ":") text in
      let text := replaceAll flags_none doublePipe (fun _ => js "|") text in
      let text := replaceAll flags_m trailingPipe (fun _ => []) text in
      let text := replaceAll flags_none multipleSpaces (fun _ => js " ") text in
      let text := replaceAll flags_m emptyLine (fun _ => []) text in
      trim text
  end.

(** *** parseResponse *)

(** The value returned by [parseResponse]; [None] is [null]. *)
Record Snapshot := {
  userStats : option jsstring;
  infoBox : option jsstring;
  characterThoughts : option jsstring;
  actionSuggestions : option jsstring
}.

Definition allNull : Snapshot :=
  {| userStats := None; infoBox := None; characterThoughts := None;
     actionSuggestions := None |}.

(** /<think>[\s\S]*?<\/think>/gi and /<thinking>[\s\S]*?<\/thinking>/gi *)
Definition thinkRegex : Regex := rseq [lit "<think>"; Star false anyChar; lit "</think>"].
Definition thinkingRegex : Regex :=
  rseq [lit "<thinking>"; Star false anyChar; lit "</thinking>"].

Definition removeThinking (responseText : jsstring) : jsstring :=
  let cleanedResponse := replaceAll flags_i thinkRegex (fun _ => []) responseText in
  replaceAll flags_i thinkingRegex (fun _ => []) cleanedResponse.

(** /```([\s\S]*?)```/g *)
Definition codeBlockRegex : Regex :=
  rseq [lit "```"; Grp 1 (Star false anyChar); lit "```"].

(** [name\s*\n\s*---], the shape of every section header pattern. *)
Definition header (name : Regex) : Regex :=
  rseq [name; wsStar; newline; wsStar; lit "---"].

Definition statsHeader := header (lit "Stats").
Definition infoBoxHeader := header (lit "Info Box").
Definition charactersHeader := header (lit "Present Characters").

(** /(User )?Stats\s*\n\s*---[\s\S]*?(?=\n\s*\n\s*(Info Box|Present Characters)|$)/i *)
Definition combinedStats : Regex :=
  rseq [Opt (Grp 1 (lit "User ")); statsHeader; Star false anyChar;
        Ahead (Alt (rseq [newline; wsStar; newline; wsStar;
                          Grp 2 (Alt (lit "Info Box") (lit "Present Characters"))])
                   Eol)].
(** /Info Box\s*\n\s*---[\s\S]*?(?=\n\s*\n\s*Present Characters|$)/i *)
Definition combinedInfoBox : Regex :=
  rseq [infoBoxHeader; Star false anyChar;
        Ahead (Alt (rseq [newline; wsStar; newline; wsStar; lit "Present Characters"])
                   Eol)].
(** /Present Characters\s*\n\s*---[\s\S]*$/i *)
Definition combinedCharacters : Regex :=
  rseq [charactersHeader; Star true anyChar; Eol].

Definition hasMultipleSections (content : jsstring) : bool :=
  test flags_i statsHeader content &&
  (test flags_i infoBoxHeader content || test flags_i charactersHeader content).

(** /Health:\s*\d+%/i and /Energy:\s*\d+%/i *)
Definition percentLine (label : string) : Regex :=
  rseq [lit label; wsStar; plus true digit; lit "%"].

Definition isStats (content : jsstring) : bool :=
  test flags_i statsHeader content
  || test flags_i (header (lit "User Stats")) content
  || test flags_i (header (lit "Player Stats")) content
  || (test flags_i (percentLine "Health:") content
      && test flags_i (percentLine "Energy:") content).

Definition isInfoBox (content : jsstring) : bool :=
  test flags_i infoBoxHeader content
  || test flags_i (header (lit "Scene Info")) content
  || test flags_i (header (lit "Information")) content
  || (test flags_i (lit "Date:") content
      && test flags_i (lit "Location:") content
      && test flags_i (lit "Time:") content).

(** /^-\s+\w+/m *)
Definition dashEntry : Regex := rseq [Bol; lit "-"; plus true ws; plus true word].

Definition isCharacters (content : jsstring) : bool :=
  test flags_i charactersHeader content
  || test flags_i (header (lit "Characters")) content
  || test flags_i (header (lit "Character Thoughts")) content
  || (test flags_m dashEntry content && test flags_i (lit "Details:") content).

(** /Action Suggestions?\s*\n\s*---/i and /Suggested Actions?\s*\n\s*---/i *)
Definition actionSuggestionsHeader : Regex :=
  header (rseq [lit "Action Suggestion"; Opt (lit "s")]).
Definition suggestedActionsHeader : Regex :=
  header (rseq [lit "Suggested Action"; Opt (lit "s")]).
(** /^1\.\s+\w+/m, /^2\.\s+\w+/m, /^3\.\s+\w+/m *)
Definition numberedEntry (n : string) : Regex :=
  rseq [Bol; lit n; lit "."; plus true ws; plus true word].

Definition isActionSuggestions (content : jsstring) : bool :=
  test flags_i actionSuggestionsHeader content
  || test flags_i suggestedActionsHeader content
  || (test flags_m (numberedEntry "1") content
      && test flags_m (numberedEntry "2") content
      && test flags_m (numberedEntry "3") content).

(** [regexMatch[0].trim()] handed to [stripBrackets]. *)
Definition extract (fl : Flags) (r : Regex) (content : jsstring) : option jsstring :=
  (fun m => stripBrackets (trim (matched m))) <$> jsmatch fl r content.

(** One iteration of the loop over the code blocks; [content] is
    [match[1].trim()]. *)
Definition parseBlock (result : Snapshot) (content : jsstring) : Snapshot :=
  if hasMultipleSections content then
    let result :=
      match extract flags_i combinedStats content with
      | Some v => if negb (truthy (userStats result))
                  then {| userStats := Some v; infoBox := infoBox result;
                          characterThoughts := characterThoughts result;
                          actionSuggestions := actionSuggestions result |}
                  else result
      | None => result
      end in
    let result :=
      match extract flags_i combinedInfoBox content with
      | Some v => if negb (truthy (infoBox result))
                  then {| userStats := userStats result; infoBox := Some v;
                          characterThoughts := characterThoughts result;
                          actionSuggestions := actionSuggestions result |}
                  else result
      | None => result
      end in
    match extract flags_i combinedCharacters content with
    | Some v => if negb (truthy (characterThoughts result))
                then {| userStats := userStats result; infoBox := infoBox result;
                        characterThoughts := Some v;
                        actionSuggestions := actionSuggestions result |}
                else result
    | None => result
    end
  else if isStats content && negb (truthy (userStats result)) then
    {| userStats := Some (stripBrackets content); infoBox := infoBox result;
       characterThoughts := characterThoughts result;
       actionSuggestions := actionSuggestions result |}
  else if isInfoBox content && negb (truthy (infoBox result)) then
    {| userStats := userStats result; infoBox := Some (stripBrackets content);
       characterThoughts := characterThoughts result;
       actionSuggestions := actionSuggestions result |}
  else if isCharacters content && negb (truthy (characterThoughts result)) then
    {| userStats := userStats result; infoBox := infoBox result;
       characterThoughts := Some (stripBrackets content);
       actionSuggestions := actionSuggestions result |}
  else if isActionSuggestions content && negb (truthy (actionSuggestions result)) then
    {| userStats := userStats result; infoBox := infoBox result;
       characterThoughts := characterThoughts result;
       actionSuggestions := Some content |}
  else result.

(** The contents of the fenced regions, in order: [match[1].trim()] for
    every match of [codeBlockRegex] in the text without its thinking spans. *)
Definition codeBlocks (responseText : jsstring) : list jsstring :=
  map (fun m => trim (group 1 m))
      (matchAll flags_none codeBlockRegex (removeThinking responseText)).

Definition parseResponse (responseText : jsstring) : Snapshot :=
  foldl parseBlock allNull (codeBlocks responseText).

End Parser.
Export Parser.

(** *** parseActionSuggestions *)

Module Suggestions.

(** /^\s*(\d+)\.\s*(.+?)$/gm *)
Definition numberedPattern : Regex :=
  rseq [Bol; wsStar; Grp 1 (plus true digit); lit "."; wsStar;
        Grp 2 (plus false Dot); Eol].
(** /^\s*[-•*]\s*(.+?)$/gm *)
Definition bulletPattern : Regex :=
  rseq [Bol; wsStar; Cls false [CChar (ch "-"); CChar 8226%N; CChar (ch "*")];
        wsStar; Grp 1 (plus false Dot); Eol].
(** /\[.*?\]/g *)
Definition bracketed : Regex := rseq [lit "["; Star false Dot; lit "]"].
(** /^["\s]+|["\s]+$/g *)
Definition quoteOrSpace : Regex := Cls false [CChar quote; CSpace].
Definition outerQuotes : Regex :=
  Alt (rseq [Bol; plus true quoteOrSpace]) (rseq [plus true quoteOrSpace; Eol]).

Definition cleanAction (actionText : jsstring) : jsstring :=
  trim (replaceAll flags_none outerQuotes (fun _ => [])
          (replaceAll flags_none bracketed (fun _ => []) actionText)).

(** The body of both [while] loops up to the [break]: [actionText] is the
    trimmed capture. *)
Definition pushAction (actions : list jsstring) (actionText : jsstring)
  : list jsstring :=
  if truthy (Some actionText) && (0 <? length actionText) && (length actionText <? 200)
  then
    let cleaned := cleanAction actionText in
    if 0 <? length cleaned then actions ++ [cleaned] else actions
  else actions.

(** [while ((match = pattern.exec(actionsText)) !== null) { ...; if
    (actions.length >= 3) break; }] with the [lastIndex] of the pattern
    threaded through; [None] when [fuel] runs out. *)
Fixpoint execLoop (pattern : Regex) (grp : nat) (actionsText : jsstring)
         (fuel lastIndex : nat) (actions : list jsstring)
  : option (list jsstring) :=
  match fuel with
  | O => None
  | S fuel' =>
      match exec flags_m pattern actionsText lastIndex with
      | None => Some actions
      | Some m =>
          let actions := pushAction actions (trim (group grp m)) in
          if 3 <=? length actions then Some actions
          else execLoop pattern grp actionsText fuel' (mend m) actions
      end
  end.

Definition parseActionSuggestions (fuel : nat) (actionsText : jsstring)
  : option (list jsstring) :=
  match actionsText with
  | [] => Some []                              (* if (!actionsText) return []; *)
  | _ =>
      match execLoop numberedPattern 2 actionsText fuel 0 [] with
      | None => None
      | Some actions =>
          if length actions =? 0
          then execLoop bulletPattern 1 actionsText fuel 0 actions
          else Some actions
      end
  end.

(** The two [while] loops written over the list of all matches of their
    pattern, for the proofs: the candidates are the trimmed captures, in
    order; a candidate that is not empty and has fewer than 200 characters
    is cleaned and kept unless nothing is left of it; the first three kept
    ones are the result, the bullet pattern being consulted only when the
    numbered pattern has left nothing. *)
Definition candidates (pattern : Regex) (grp : nat) (text : jsstring)
  : list jsstring :=
  map (fun m => trim (group grp m)) (matchAll flags_m pattern text).

Definition kept (candidate : jsstring) : list jsstring :=
  if (1 <=? length candidate) && (length candidate <? 200)
  then let cleaned := cleanAction candidate in
       if 1 <=? length cleaned then [cleaned] else []
  else [].

Definition firstThree (pattern : Regex) (grp : nat) (text : jsstring)
  : list jsstring :=
  take 3 (concat (map kept (candidates pattern grp text))).

Definition loopsResult (text : jsstring) : list jsstring :=
  match firstThree numberedPattern 2 text with
  | [] => firstThree bulletPattern 1 text
  | numbered => numbered
  end.

End Suggestions.
Export Suggestions.

(** ** core/state.js *)

Module State.

Inductive GenerationMode := together | separate | otherMode.

(** The settings the handlers below read. *)
Record Settings := {
  enabled : bool;
  generationMode : GenerationMode;
  autoUpdate : bool
}.

(** [lastGeneratedData] *)
Record GeneratedData := {
  lg_userStats : option jsstring;
  lg_infoBox : option jsstring;
  lg_characterThoughts : option jsstring;
  lg_html : option jsstring
}.

(** [committedTrackerData] *)
Record TrackerData := {
  ct_userStats : option jsstring;
  ct_infoBox : option jsstring;
  ct_characterThoughts : option jsstring
}.

(** A chat message of the host, with the fields the handlers use;
    [rpg_companion_swipes] is [message.extra.rpg_companion_swipes], absent
    when [extra] or the field is. *)
Record Message := {
  is_user : bool;
  mes : jsstring;
  swipe_id : option nat;
  swipes : option (list jsstring);
  rpg_companion_swipes : option (gmap nat Snapshot)
}.

Record World := {
  extensionSettings : Settings;
  lastGeneratedData : GeneratedData;
  committedTrackerData : TrackerData;
  lastActionWasSwipe : bool;
  isGenerating : bool;
  isPlotProgression : bool;
  chat : list Message
}.

Definition setLastActionWasSwipe (value : bool) (w : World) : World :=
  {| extensionSettings := extensionSettings w;
     lastGeneratedData := lastGeneratedData w;
     committedTrackerData := committedTrackerData w;
     lastActionWasSwipe := value;
     isGenerating := isGenerating w;
     isPlotProgression := isPlotProgression w;
     chat := chat w |}.

Definition setIsPlotProgression (value : bool) (w : World) : World :=
  {| extensionSettings := extensionSettings w;
     lastGeneratedData := lastGeneratedData w;
     committedTrackerData := committedTrackerData w;
     lastActionWasSwipe := lastActionWasSwipe w;
     isGenerating := isGenerating w;
     isPlotProgression := value;
     chat := chat w |}.

Definition withLastGenerated (d : GeneratedData) (w : World) : World :=
  {| extensionSettings := extensionSettings w;
     lastGeneratedData := d;
     committedTrackerData := committedTrackerData w;
     lastActionWasSwipe := lastActionWasSwipe w;
     isGenerating := isGenerating w;
     isPlotProgression := isPlotProgression w;
     chat := chat w |}.

Definition withCommitted (d : TrackerData) (w : World) : World :=
  {| extensionSettings := extensionSettings w;
     lastGeneratedData := lastGeneratedData w;
     committedTrackerData := d;
     lastActionWasSwipe := lastActionWasSwipe w;
     isGenerating := isGenerating w;
     isPlotProgression := isPlotProgression w;
     chat := chat w |}.

Definition withChat (c : list Message) (w : World) : World :=
  {| extensionSettings := extensionSettings w;
     lastGeneratedData := lastGeneratedData w;
     committedTrackerData := committedTrackerData w;
     lastActionWasSwipe := lastActionWasSwipe w;
     isGenerating := isGenerating w;
     isPlotProgression := isPlotProgression w;
     chat := c |}.

(** The initial values of the module. *)
Definition noGeneratedData : GeneratedData :=
  {| lg_userStats := None; lg_infoBox := None; lg_characterThoughts := None;
     lg_html := None |}.
Definition noCommittedData : TrackerData :=
  {| ct_userStats := None; ct_infoBox := None; ct_characterThoughts := None |}.

End State.
Export State.

(** ** injector.js and sillytavern.js: the event handlers

    The handlers are modelled by their effect on the tracker state and on the
    chat.  Rendering, prompt injection, persistence and [parseUserStats]
    touch none of [lastGeneratedData], [committedTrackerData],
    [lastActionWasSwipe] or the chat and are left out. *)

Module Integration.

Definition notBacktick : Regex := Cls true [CChar backtick].     (* [^`] *)

(** /```[^`]*?NAME\s*\n\s*---[^`]*?```\s*/gi *)
Definition trackerFence (name : Regex) : Regex :=
  rseq [lit "```"; Star false notBacktick; header name;
        Star false notBacktick; lit "```"; wsStar].
(** /^\s*---\s*$/gm *)
Definition strayDivider : Regex := rseq [Bol; wsStar; lit "---"; wsStar; Eol].
(** /\n{3,}/g *)
Definition manyNewlines : Regex := rseq [newline; newline; newline; Star true newline].

Definition collapseNewlines (text : jsstring) : jsstring :=
  replaceAll flags_none manyNewlines (fun _ => js "\n\n") text.

(** The text stored back into [lastMessage.mes]: [cleanedMessage.trim()]. *)
Definition cleanMessage (responseText : jsstring) : jsstring :=
  let cleanedMessage := responseText in
  let cleanedMessage :=
    replaceAll flags_i (trackerFence (lit "Stats")) (fun _ => []) cleanedMessage in
  let cleanedMessage :=
    replaceAll flags_i (trackerFence (lit "Info Box")) (fun _ => []) cleanedMessage in
  let cleanedMessage :=
    replaceAll flags_i (trackerFence (lit "Present Characters")) (fun _ => [])
      cleanedMessage in
  let cleanedMessage :=
    replaceAll flags_i (trackerFence (rseq [lit "Action Suggestion"; Opt (lit "s")]))
      (fun _ => []) cleanedMessage in
  let cleanedMessage :=
    replaceAll flags_i (trackerFence (rseq [lit "Suggested Action"; Opt (lit "s")]))
      (fun _ => []) cleanedMessage in
  let cleanedMessage := replaceAll flags_m strayDivider (fun _ => []) cleanedMessage in
  let cleanedMessage := collapseNewlines cleanedMessage in
  trim cleanedMessage.

(** [commit]: the three assignments
    [committedTrackerData.x = lastGeneratedData.x]. *)
Definition promote (w : World) : World :=
  withCommitted
    {| ct_userStats := lg_userStats (lastGeneratedData w);
       ct_infoBox := lg_infoBox (lastGeneratedData w);
       ct_characterThoughts := lg_characterThoughts (lastGeneratedData w) |} w.

(** [onGenerationStarted(type, data)]; [quietImage] is [data?.quietImage]. *)
Definition onGenerationStarted (quietImage : bool) (w : World) : World :=
  if quietImage then w
  else if negb (enabled (extensionSettings w)) then w
  else
    let w :=
      match generationMode (extensionSettings w) with
      | separate =>
          if negb (isGenerating w)
          then if negb (lastActionWasSwipe w) then promote w else w
          else w
      | _ => w
      end in
    match generationMode (extensionSettings w) with
    | together => if negb (lastActionWasSwipe w) then promote w else w
    | _ => w
    end.

(** [onMessageSent()] *)
Definition onMessageSent (w : World) : World :=
  if negb (enabled (extensionSettings w)) then w
  else setLastActionWasSwipe false w.

(** [message.swipe_id || 0] *)
Definition currentSwipe (m : Message) : nat := default 0 (swipe_id m).

(** The object stored in the swipe ledger. *)
Definition ledgerEntry (parsedData : Snapshot) : Snapshot :=
  {| userStats := userStats parsedData;
     infoBox := infoBox parsedData;
     characterThoughts := characterThoughts parsedData;
     actionSuggestions := actionSuggestions parsedData |}.

Definition committedIsEmpty (c : TrackerData) : bool :=
  negb (truthy (ct_userStats c)) && negb (truthy (ct_infoBox c))
  && negb (truthy (ct_characterThoughts c)).

(** The branch of [onMessageReceived] for the together mode, entered with
    the last message of the chat when it is not a user message. *)
Definition receiveTogether (lastMessage : Message) (w : World) : World :=
  let responseText := mes lastMessage in
  let parsedData := parseResponse responseText in
  let lg := lastGeneratedData w in
  let lg :=
    {| lg_userStats := if truthy (userStats parsedData)
                       then userStats parsedData else lg_userStats lg;
       lg_infoBox := if truthy (infoBox parsedData)
                     then infoBox parsedData else lg_infoBox lg;
       lg_characterThoughts := if truthy (characterThoughts parsedData)
                               then characterThoughts parsedData
                               else lg_characterThoughts lg;
       lg_html := lg_html lg |} in
  let currentSwipeId := currentSwipe lastMessage in
  let ledger :=
    <[currentSwipeId := ledgerEntry parsedData]>
      (default ∅ (rpg_companion_swipes lastMessage)) in
  let committed :=
    if committedIsEmpty (committedTrackerData w)
    then {| ct_userStats := userStats parsedData;
            ct_infoBox := infoBox parsedData;
            ct_characterThoughts := characterThoughts parsedData |}
    else committedTrackerData w in
  let cleaned := cleanMessage responseText in
  let lastMessage :=
    {| is_user := is_user lastMessage;
       mes := cleaned;
       swipe_id := swipe_id lastMessage;
       swipes := (fun l => <[currentSwipeId := cleaned]> l) <$> swipes lastMessage;
       rpg_companion_swipes := Some ledger |} in
  withChat (<[length (chat w) - 1 := lastMessage]> (chat w))
    (withCommitted committed (withLastGenerated lg w)).

(** [onMessageReceived(data)].  In the separate mode the handler only
    schedules [updateRPGData] of apiClient.js, which runs later. *)
Definition onMessageReceived (w : World) : World :=
  if negb (enabled (extensionSettings w)) then w
  else
    let w :=
      match generationMode (extensionSettings w) with
      | together =>
          match last (chat w) with
          | Some lastMessage =>
              if negb (is_user lastMessage) then receiveTogether lastMessage w else w
          | None => w
          end
      | _ => w
      end in
    let w := if lastActionWasSwipe w then setLastActionWasSwipe false w else w in
    if isPlotProgression w then setIsPlotProgression false w else w.

Definition isExistingSwipe (message : Message) : bool :=
  match swipes message with
  | Some l =>
      match l !! currentSwipe message with
      | Some text => 0 <? length text
      | None => false
      end
  | None => false
  end.

(** [message.extra.rpg_companion_swipes[currentSwipeId]] when all of it exists. *)
Definition swipeData (message : Message) : option Snapshot :=
  match rpg_companion_swipes message with
  | Some ledger => ledger !! currentSwipe message
  | None => None
  end.

(** [onMessageSwiped(messageIndex)] *)
Definition onMessageSwiped (messageIndex : nat) (w : World) : World :=
  if negb (enabled (extensionSettings w)) then w
  else
    match chat w !! messageIndex with
    | None => w
    | Some message =>
        if is_user message then w
        else
          let w := if negb (isExistingSwipe message)
                   then setLastActionWasSwipe true w else w in
          match swipeData message with
          | Some data =>
              withLastGenerated
                {| lg_userStats := orNull (userStats data);
                   lg_infoBox := orNull (infoBox data);
                   lg_characterThoughts := orNull (characterThoughts data);
                   lg_html := lg_html (lastGeneratedData w) |} w
          | None => w
          end
    end.

(** The swipe ledger of the message at [messageIndex]. *)
Definition SwipeLedger (w : World) (messageIndex swipeIndex : nat) : option Snapshot :=
  match chat w !! messageIndex with
  | Some message =>
      match rpg_companion_swipes message with
      | Some ledger => ledger !! swipeIndex
      | None => None
      end
  | None => None
  end.

End Integration.
Export Integration.

(** ** Static facts about a pattern *)

Module Analysis.

(** A lower bound on the length of every match. *)
Fixpoint minLen (r : Regex) : nat :=
  match r with
  | Chr _ | Dot | Cls _ _ => 1
  | Seq r1 r2 => minLen r1 + minLen r2
  | Alt r1 r2 => min (minLen r1) (minLen r2)
  | Grp _ r1 => minLen r1
  | Eps | Star _ _ | Opt _ | Ahead _ | Bol | Eol => 0
  end.

(** [needs c r]: the pattern character [c] occurs in every match of [r]. *)
Fixpoint needs (c : char) (r : Regex) : bool :=
  match r with
  | Chr a => (a =? c)%N
  | Seq r1 r2 => needs c r1 || needs c r2
  | Alt r1 r2 => needs c r1 && needs c r2
  | Grp _ r1 => needs c r1
  | _ => false
  end.

(** [allows fl r x]: some character matcher of [r] accepts [x]; the
    characters of a match of [r] all satisfy it. *)
Fixpoint allows (fl : Flags) (r : Regex) (x : char) : bool :=
  match r with
  | Chr a => chrMatches (ignoreCase fl) a x
  | Dot => negb (isLineTerminator x)
  | Cls neg items => classMatches (ignoreCase fl) neg items x
  | Seq r1 r2 | Alt r1 r2 => allows fl r1 x || allows fl r2 x
  | Star _ r1 | Opt r1 | Grp _ r1 => allows fl r1 x
  | Eps | Ahead _ | Bol | Eol => false
  end.

(** What a successful run of the matcher of [r] from [s] guarantees about
    the state [y] in which its continuation was entered: a word [w] of the
    input was consumed in between. *)
Record Consumed (fl : Flags) (c : char) (r : Regex) (s y : MState) (w : jsstring)
  : Prop := {
  consumed_rest : rest s = w ++ rest y;
  consumed_pos : pos y = pos s + length w;
  consumed_min : minLen r <= length w;
  consumed_needs : needs c r = true -> c ∈ w;
  consumed_allows : Forall (fun x => allows fl r x = true) w
}.

(** [y] lies ahead of [s] in the same input. *)
Definition reaches (s y : MState) : Prop :=
  exists w, rest s = w ++ rest y /\ pos y = pos s + length w.

(** A character without letter case is matched by itself only, with or
    without the [i] flag. *)
Definition caseless (c : char) : Prop := isLower c = false /\ isUpper c = false.

(** Successive matches of one scan: each starts at or after the point where
    the scan resumed and ends inside the text. *)
Fixpoint ordered (len from : nat) (ms : list Match) : Prop :=
  match ms with
  | [] => True
  | m :: ms' =>
      from <= index m /\ index m <= mend m /\ mend m <= len
      /\ ordered len (mend m) ms'
  end.

(** No two adjacent white-space characters. *)
Fixpoint singleSpaced (s : jsstring) : bool :=
  match s with
  | c1 :: ((c2 :: _) as s') => negb (isSpace c1 && isSpace c2) && singleSpaced s'
  | _ => true
  end.

(** After a separator: skipping white space, a value starts on the same
    line, and its first character is not one of the [bad] ones. *)
Fixpoint valueFollows (bad : char -> bool) (s : jsstring) : bool :=
  match s with
  | [] => false
  | x :: s' =>
      if isLineTerminator x then false
      else if isSpace x then valueFollows bad s'
      else negb (bad x)
  end.

(** Every occurrence of the separator [sep] is followed by a value. *)
Fixpoint followed (sep : char) (bad : char -> bool) (s : jsstring) : bool :=
  match s with
  | [] => true
  | x :: s' => (if (x =? sep)%N then valueFollows bad s' else true)
               && followed sep bad s'
  end.

Definition commaOrPipe (x : char) : bool := ((x =? ch ",") || (x =? ch "|"))%N.
Definition pipe (x : char) : bool := (x =? ch "|")%N.

(** Text on which [stripBrackets] has nothing left to do: trimmed, not
    enclosed in a bracket pair, without an opening square bracket,
    single-spaced, every colon followed on its line by a value that does not
    start with a comma or a pipe, every pipe followed on its line by a value
    that does not start with a pipe. *)
Record Stripped (t : jsstring) : Prop := {
  stripped_trimmed : trim t = t;
  stripped_unwrapped : isWrapped t = false;
  stripped_no_bracket : forallb (fun x => negb (x =? ch "[")%N) t = true;
  stripped_single_spaced : singleSpaced t = true;
  stripped_colons : followed (ch ":") commaOrPipe t = true;
  stripped_pipes : followed (ch "|") pipe t = true
}.

(** A fenced region classifies when some branch of [parseBlock] can take it. *)
Definition classifies (content : jsstring) : bool :=
  hasMultipleSections content || isStats content || isInfoBox content
  || isCharacters content || isActionSuggestions content.

(** The characters that are not white space, in order. *)
Definition inkOf (s : jsstring) : jsstring := filter (fun c => isSpace c = false) s.

(** The list form of the two [while] loops of [parseActionSuggestions]. *)
Fixpoint pushAll (grp : nat) (ms : list Match) (actions : list jsstring)
  : list jsstring :=
  match ms with
  | [] => actions
  | m :: ms' =>
      let actions := pushAction actions (trim (group grp m)) in
      if 3 <=? length actions then actions else pushAll grp ms' actions
  end.

(** What the pattern after [sep\s*] may see next: the end of a line, or one
    of the [bad] characters. *)
Definition SeesBad (fl : Flags) (bad : char -> bool) (post : Regex) : Prop :=
  forall y z, rmatch fl post Some y = Some z ->
    match rest y with
    | [] => True
    | x :: _ => isLineTerminator x = true \/ (isSpace x = false /\ bad x = true)
    end.

(** At a position of single-spaced, trimmed text: white space is never
    preceded by the start of the text or by white space. *)
Definition wordStart (pv : option char) (rs : jsstring) : Prop :=
  singleSpaced rs = true
  /\ match rs with
     | [] => True
     | x :: _ =>
         isSpace x = true ->
         match pv with
         | None => False
         | Some c => isSpace c = false
         end
     end.

(** [Committed] of [w'] holds what [LastGenerated] of [w] held. *)
Definition promoted (w w' : World) : Prop :=
  ct_userStats (committedTrackerData w') = lg_userStats (lastGeneratedData w)
  /\ ct_infoBox (committedTrackerData w') = lg_infoBox (lastGeneratedData w)
  /\ ct_characterThoughts (committedTrackerData w')
     = lg_characterThoughts (lastGeneratedData w).

(** [onMessageReceived] once its together branch is entered with [m]. *)
Definition afterParse (m : Message) (w : World) : World :=
  let w := receiveTogether m w in
  let w := if lastActionWasSwipe w then setLastActionWasSwipe false w else w in
  if isPlotProgression w then setIsPlotProgression false w else w.

End Analysis.
Export Analysis.

(** ** Sample worlds *)

Module Examples.

Definition settingsFor (mode : GenerationMode) : Settings :=
  {| enabled := true; generationMode := mode; autoUpdate := true |}.

Definition message (user : bool) (text : jsstring) : Message :=
  {| is_user := user; mes := text; swipe_id := Some 0; swipes := Some [text];
     rpg_companion_swipes := None |}.

Definition generated (stats : string) : GeneratedData :=
  {| lg_userStats := Some (js stats); lg_infoBox := None;
     lg_characterThoughts := None; lg_html := None |}.

Definition world (mode : GenerationMode) (lg : GeneratedData) (generating : bool)
           (c : list Message) : World :=
  {| extensionSettings := settingsFor mode;
     lastGeneratedData := lg;
     committedTrackerData := noCommittedData;
     lastActionWasSwipe := false;
     isGenerating := generating;
     isPlotProgression := false;
     chat := c |}.

End Examples.

(** ** sillytavern.js, index.js and plotProgression.js: the events *)

Module Events.

(** The loop of [commitTrackerData], over the chat from its last message
    backwards: the first message that is not a user message ends it. *)
Fixpoint commitLoop (messages : list Message) (w : World) : World :=
  match messages with
  | [] => w
  | message :: earlier =>
      if negb (is_user message) then
        match swipeData message with
        | Some data =>
            withCommitted
              {| ct_userStats := orNull (userStats data);
                 ct_infoBox := orNull (infoBox data);
                 ct_characterThoughts := orNull (characterThoughts data) |} w
        | None => w
        end
      else commitLoop earlier w
  end.

(** [commitTrackerData()] *)
Definition commitTrackerData (w : World) : World :=
  commitLoop (reverse (chat w)) w.

(** The host events that [registerAllEvents] binds to the handlers above. *)
Inductive Event :=
| MESSAGE_SENT
| GENERATION_STARTED (quietImage : bool)
| MESSAGE_RECEIVED
| MESSAGE_SWIPED (messageIndex : nat).

Definition dispatch (w : World) (e : Event) : World :=
  match e with
  | MESSAGE_SENT => onMessageSent w
  | GENERATION_STARTED quietImage => onGenerationStarted quietImage w
  | MESSAGE_RECEIVED => onMessageReceived w
  | MESSAGE_SWIPED messageIndex => onMessageSwiped messageIndex w
  end.

(** What happens between two points of a session: the host emits an event,
    or the host, which owns the chat, changes it. *)
Inductive Step :=
| Emit (e : Event)
| HostSetsChat (c : list Message).

Definition step (w : World) (s : Step) : World :=
  match s with
  | Emit e => dispatch w e
  | HostSetsChat c => withChat c w
  end.

Definition run (steps : list Step) (w : World) : World := foldl step w steps.

(** [extensionSettings.enabled = value] *)
Definition withEnabled (value : bool) (w : World) : World :=
  {| extensionSettings :=
       {| enabled := value;
          generationMode := generationMode (extensionSettings w);
          autoUpdate := autoUpdate (extensionSettings w) |};
     lastGeneratedData := lastGeneratedData w;
     committedTrackerData := committedTrackerData w;
     lastActionWasSwipe := lastActionWasSwipe w;
     isGenerating := isGenerating w;
     isPlotProgression := isPlotProgression w;
     chat := chat w |}.

(** [sendPlotProgression(type)], an asynchronous function, with what
    happens around it: [during] are the steps taken while the call of the
    host's [Generate] is awaited, [rejected] tells that this call failed, so
    that the [catch] block runs, and [before] are the steps taken between
    then and the timer of the [finally] block, which ends the function.
    The prompt it builds touches nothing of the state. *)
Definition sendPlotProgression (during : list Step) (rejected : bool)
           (before : list Step) (w : World) : World :=
  if negb (enabled (extensionSettings w)) then w
  else
    let wasEnabled := enabled (extensionSettings w) in
    let w := withEnabled false w in
    let w := setIsPlotProgression true w in
    let w := run during w in                      (* await Generate(...) *)
    let w := if rejected then setIsPlotProgression false w else w in
    let w := run before w in
    withEnabled wasEnabled w.                     (* the timer *)

End Events.
Export Events.

(** ** core/state.js: the debug log *)

Module DebugLog.

Section Entries.

Context {Entry : Type}.

(** [addDebugLog(message, data)]; [entry] is the object it pushes. *)
Definition addDebugLog (entry : Entry) (debugLogs : list Entry) : list Entry :=
  let debugLogs := debugLogs ++ [entry] in
  if 100 <? length debugLogs then drop 1 debugLogs else debugLogs.

End Entries.

End DebugLog.
Export DebugLog.

(** ** parser.js: extractCodeBlocks *)

Module ParserHelpers.

(** /```([^`]+)```/g *)
Definition fencedBlock : Regex :=
  rseq [lit "```"; Grp 1 (plus true notBacktick); lit "```"].

(** [extractCodeBlocks(text)] *)
Definition extractCodeBlocks (text : jsstring) : list jsstring :=
  map (fun m => trim (group 1 m)) (matchAll flags_none fencedBlock text).

End ParserHelpers.
Export ParserHelpers.

(** ** promptBuilder.js: generateTrackerExample and cleanTrackerData *)

Module PromptBuilder.

(** [generateTrackerExample()]; the three flags are
    [extensionSettings.showUserStats], [showInfoBox] and
    [showCharacterThoughts], and [committed] is [committedTrackerData]. *)
Definition generateTrackerExample
           (showUserStats showInfoBox showCharacterThoughts : bool)
           (committed : TrackerData) : jsstring :=
  let example := [] in
  let example :=
    if showUserStats && truthy (ct_userStats committed)
    then example ++ js "```\n" ++ default [] (ct_userStats committed) ++ js "\n```\n\n"
    else example in
  let example :=
    if showInfoBox && truthy (ct_infoBox committed)
    then example ++ js "```\n" ++ default [] (ct_infoBox committed) ++ js "\n```\n\n"
    else example in
  let example :=
    if showCharacterThoughts && truthy (ct_characterThoughts committed)
    then example ++ js "```\n" ++ default [] (ct_characterThoughts committed)
                 ++ js "\n```"
    else example in
  trim example.

(** [s.split(sep)] for a separator of one character. *)
Fixpoint splitOn (sep : char) (s : jsstring) : list jsstring :=
  match s with
  | [] => [[]]
  | x :: s' =>
      if (x =? sep)%N then [] :: splitOn sep s'
      else match splitOn sep s' with
           | l :: ls => (x :: l) :: ls
           | [] => [[x]]
           end
  end.

(** [lines.join(sep)] *)
Fixpoint join (sep : jsstring) (lines : list jsstring) : jsstring :=
  match lines with
  | [] => []
  | [l] => l
  | l :: ls => l ++ sep ++ join sep ls
  end.

(** The predicate of the [filter] in [cleanTrackerData]. *)
Definition keepLine (line : jsstring) : bool :=
  let trimmed := trim line in
  (0 <? length trimmed)
  && negb (isPrefixOf (js "```") trimmed)
  && negb (bool_decide (trimmed = js "---")).

(** [cleanTrackerData(data)], the helper of [generateContextualSummary]. *)
Definition cleanTrackerData (data : jsstring) : jsstring :=
  match data with
  | [] => []                                     (* if (!data) return ''; *)
  | _ => join (js "\n") (filter (fun line => keepLine line = true) (splitOn nl data))
  end.

End PromptBuilder.
Export PromptBuilder.

(** ** promptEditor.js: escapeHtml *)

Module PromptEditor.

Definition apostrophe : char := 39%N.

(** The global pattern of [escapeHtml]: a class of five characters, the
    ampersand, the two angle brackets, the double and the single quote. *)
Definition htmlSpecialItems : list ClassItem :=
  [CChar (ch "&"); CChar (ch "<"); CChar (ch ">"); CChar quote; CChar apostrophe].
Definition htmlSpecial : Regex := Cls false htmlSpecialItems.

(** The object [map] of [escapeHtml]. *)
Definition entities : gmap jsstring jsstring :=
  list_to_map
    [(js "&", js "&amp;"); (js "<", js "&lt;"); (js ">", js "&gt;");
     ([quote], js "&quot;"); ([apostrophe], js "&#039;")].

(** [m => map[m]]; a key that is not in the object would give [undefined]. *)
Definition entityOf (m : jsstring) : jsstring :=
  default (js "undefined") (entities !! m).

(** [escapeHtml(text)] *)
Definition escapeHtml (text : jsstring) : jsstring :=
  replaceAll flags_none htmlSpecial (fun m => entityOf (matched m)) text.

End PromptEditor.
Export PromptEditor.

(** ** actionSuggestions.js: processActionSuggestions *)

Module ActionButtons.

(** [processActionSuggestions(messageElement, rawActionSuggestions,
    messageId)] by its effect on [extensionSettings.lastActionSuggestions];
    [None] when the fuel of the parser runs out. *)
Definition processActionSuggestions (fuel : nat) (enableActionSuggestions : bool)
           (rawActionSuggestions : option jsstring)
           (lastActionSuggestions : list jsstring) : option (list jsstring) :=
  if negb enableActionSuggestions then Some lastActionSuggestions
  else
    match rawActionSuggestions with
    | Some ((_ :: _) as raw) =>
        match parseActionSuggestions fuel raw with
        | Some actions =>
            if 0 <? length actions then Some actions else Some lastActionSuggestions
        | None => None
        end
    | _ => Some lastActionSuggestions
    end.

End ActionButtons.
Export ActionButtons.

(** ** Further notions used in the statements *)

Module Facts.

(** A pattern without capturing groups and without lookahead. *)
Fixpoint plain (r : Regex) : bool :=
  match r with
  | Chr _ | Dot | Cls _ _ | Eps | Bol | Eol => true
  | Seq r1 r2 | Alt r1 r2 => plain r1 && plain r2
  | Star _ r1 | Opt r1 => plain r1
  | Grp _ _ | Ahead _ => false
  end.

(** A field that is [null] or a string without white space at its ends. *)
Definition trimmedField (v : option jsstring) : Prop :=
  forall t, v = Some t -> trim t = t.

Definition trimmedSnapshot (s : Snapshot) : Prop :=
  trimmedField (userStats s) /\ trimmedField (infoBox s)
  /\ trimmedField (characterThoughts s) /\ trimmedField (actionSuggestions s).

(** A step that is a swipe, the start of a generation or a change of the chat. *)
Definition swipeOrStart (s : Step) : bool :=
  match s with
  | Emit (MESSAGE_SWIPED _) | Emit (GENERATION_STARTED _) | HostSetsChat _ => true
  | Emit _ => false
  end.

(** The characters that open or close markup or an attribute value. *)
Definition isMarkup (x : char) : bool :=
  ((x =? ch "<") || (x =? ch ">") || (x =? quote) || (x =? apostrophe))%N.

(** A replacement that works character by character: a character accepted
    by [p] becomes [h] of it, any other character stays. *)
Definition perChar (p : char -> bool) (h : jsstring -> jsstring) (s : jsstring)
  : jsstring :=
  concat (map (fun x => if p x then h [x] else [x]) s).

(** The fields [generateTrackerExample] puts into its example, in order. *)
Definition shown (flag : bool) (field : option jsstring) : list jsstring :=
  if flag && truthy field then [default [] field] else [].

Definition shownFields (showUserStats showInfoBox showCharacterThoughts : bool)
           (committed : TrackerData) : list jsstring :=
  shown showUserStats (ct_userStats committed)
  ++ shown showInfoBox (ct_infoBox committed)
  ++ shown showCharacterThoughts (ct_characterThoughts committed).

(** A fenced region with the text after it. *)
Definition fence (item : jsstring * jsstring) : jsstring :=
  js "```" ++ item.1 ++ js "```" ++ item.2.

(** A field as [generateTrackerExample] fences it, with the text after it,
    and the content of that fence. *)
Definition segment (item : jsstring * jsstring) : jsstring :=
  js "```\n" ++ item.1 ++ js "\n```" ++ item.2.

Definition padded (item : jsstring * jsstring) : jsstring * jsstring :=
  (nl :: item.1 ++ [nl], item.2).

(** The character before the position reached after [w]. *)
Definition lastOr (pv : option char) (w : jsstring) : option char :=
  match last w with
  | Some x => Some x
  | None => pv
  end.

(** The fences of a text: its runs of three backticks, counted from the left
    without overlap. *)
Fixpoint countFences (s : jsstring) : nat :=
  match s with
  | a :: ((b :: c :: s'') as s') =>
      if ((a =? backtick) && (b =? backtick) && (c =? backtick))%N
      then S (countFences s'')
      else countFences s'
  | _ => 0
  end.

(** A fenced region takes a fence that opens it and a later one that
    closes it. *)
Definition hasFencedRegion (s : jsstring) : bool := 2 <=? countFences s.

(** No span in square brackets that [stripBrackets] removes as a
    placeholder. *)
Definition keepsBrackets (t : jsstring) : bool :=
  forallb (fun m => negb (isPlaceholder (group 1 m)))
          (matchAll flags_none placeholderPattern t).

(** Text on which the unwrapping, the removal of placeholders and the
    clean-up of labels and pipes find nothing to do: it is not enclosed in a
    bracket pair, holds no placeholder, and none of the five patterns of the
    clean-up matches in it. *)
Definition settled (t : jsstring) : bool :=
  negb (isWrapped t)
  && keepsBrackets t
  && negb (test flags_m emptyLabel t)
  && negb (test flags_m labelComma t)
  && negb (test flags_none colonPipe t)
  && negb (test flags_none doublePipe t)
  && negb (test flags_m trailingPipe t).

(** Every run of two or more white-space characters replaced by one blank;
    [inRun] tells that the run at hand has been replaced already. *)
Fixpoint squeeze (inRun : bool) (s : jsstring) : jsstring :=
  match s with
  | [] => []
  | x :: s' =>
      if isSpace x then
        if inRun then squeeze true s'
        else match s' with
             | y :: _ => if isSpace y then ch " " :: squeeze true s'
                         else x :: squeeze false s'
             | [] => [x]
             end
      else x :: squeeze false s'
  end.

(** What every match of a scan is: a stretch of the text, at least as long
    as the pattern requires. *)
Definition stretch (r : Regex) (text : jsstring) (m : Match) : Prop :=
  index m + minLen r <= mend m
  /\ matched m = take (mend m - index m) (drop (index m) text).

(** A stored list of suggestions: at most three, each of 1 to 199 characters. *)
Definition wellFormedSuggestions (actions : list jsstring) : Prop :=
  length actions <= 3 /\ Forall (fun e => 1 <= length e < 200) actions.

End Facts.
Export Facts.

(** * Properties *)

(** ** The matcher *)

Lemma caseless_zero : caseless 0%N.
Proof. done. Qed.

Lemma absent_check (c : char) (s : jsstring) :
  forallb (fun x => negb (x =? c)%N) s = true -> c ∉ s.
Proof.
  induction s as [|x s IH]; simpl; [intros _; apply not_elem_of_nil|].
  intros [Hx%negb_true_iff%N.eqb_neq Hs]%andb_true_iff.
  apply not_elem_of_cons. split; [done|auto].
Qed.

Section Matcher.

Variable fl : Flags.
Variable c : char.
Hypothesis c_caseless : caseless c.

Lemma chrMatches_caseless ic x : chrMatches ic c x = true -> x = c.
Proof.
  destruct c_caseless as [Hl Hu]. unfold chrMatches, canonicalize.
  rewrite Hl. destruct ic.
  - destruct (isLower x) eqn:Hx; intros H%N.eqb_eq; [|done].
    exfalso. unfold isLower, isUpper in *.
    apply andb_true_iff in Hx as [H1%N.leb_le H2%N.leb_le].
    apply andb_false_iff in Hu as [H3%N.leb_gt|H3%N.leb_gt]; lia.
  - intros H%N.eqb_eq. done.
Qed.

Lemma step1_inv p k s z :
  step1 p k s = Some z ->
  exists x tl, rest s = x :: tl /\ p x = true /\ k (advance x tl s) = Some z.
Proof.
  unfold step1. destruct (rest s) as [|x tl]; [done|].
  destruct (p x) eqn:Hp; [|done]. eauto.
Qed.

Lemma Consumed_nil r s :
  minLen r = 0 -> needs c r = false -> Consumed fl c r s s [].
Proof.
  intros Hm Hn. split; simpl; [done|lia|lia|by rewrite Hn|done].
Qed.

Lemma starLoop_sound g r body k :
  (forall k s z, body k s = Some z ->
     exists y w, k y = Some z /\ Consumed fl c r s y w) ->
  forall fuel s z, starLoop body g k fuel s = Some z ->
    exists y w, k y = Some z /\ Consumed fl c (Star g r) s y w.
Proof.
  intros Hbody. induction fuel as [|fuel IH]; intros s z H; [done|].
  simpl in H.
  assert (Hiter : forall z',
    body (fun y => if pos y =? pos s then None else starLoop body g k fuel y) s = Some z' ->
    exists y w, k y = Some z' /\ Consumed fl c (Star g r) s y w).
  { intros z' Hb. apply Hbody in Hb as (y1 & w1 & Hk1 & [Hr1 Hp1 _ _ Ha1]).
    destruct (pos y1 =? pos s); [done|].
    apply IH in Hk1 as (y2 & w2 & Hk2 & [Hr2 Hp2 _ _ Ha2]).
    exists y2, (w1 ++ w2). split; [done|].
    split; simpl; [by rewrite <- app_assoc, <- Hr2|rewrite length_app; lia|lia|done|].
    apply Forall_app. done. }
  assert (Hstop : forall z', k s = Some z' ->
    exists y w, k y = Some z' /\ Consumed fl c (Star g r) s y w).
  { intros z' Hk. exists s, []. split; [done|]. by apply Consumed_nil. }
  destruct g.
  - destruct (body _ s) eqn:Hb.
    + inversion H; subst. by apply Hiter.
    + by apply Hstop.
  - destruct (k s) eqn:Hk.
    + inversion H; subst. by apply Hstop.
    + by apply Hiter.
Qed.

Lemma step1_sound r p k s z :
  minLen r = 1 ->
  (forall x, p x = true -> allows fl r x = true /\ (needs c r = true -> x = c)) ->
  step1 p k s = Some z ->
  exists y w, k y = Some z /\ Consumed fl c r s y w.
Proof.
  intros Hm Hp (x & tl & Hr & Hx & Hk)%step1_inv.
  apply Hp in Hx as [Ha Hn].
  exists (advance x tl s), [x]. split; [done|].
  split; simpl; [done|lia|lia| |by constructor].
  intros ->%Hn. by apply list_elem_of_singleton.
Qed.

(** Soundness of the matcher. *)
Lemma rmatch_sound r k s z :
  rmatch fl r k s = Some z ->
  exists y w, k y = Some z /\ Consumed fl c r s y w.
Proof.
  revert k s z.
  induction r as [a| |neg items| |r1 IH1 r2 IH2|r1 IH1 r2 IH2|g r1 IH1|r1 IH1
                  |n r1 IH1|r1 IH1| |]; intros k s z H; cbn [rmatch] in H.
  - eapply step1_sound; [done| |exact H]. intros x Hx. split; [done|].
    simpl. intros Ha%N.eqb_eq. subst a. by apply chrMatches_caseless in Hx.
  - eapply step1_sound; [done| |exact H]. done.
  - eapply step1_sound; [done| |exact H]. done.
  - exists s, []. split; [done|]. by apply Consumed_nil.
  - apply IH1 in H as (y1 & w1 & Hk1 & [Hr1 Hp1 Hm1 Hn1 Ha1]).
    apply IH2 in Hk1 as (y2 & w2 & Hk2 & [Hr2 Hp2 Hm2 Hn2 Ha2]).
    exists y2, (w1 ++ w2). split; [done|].
    split; simpl; [by rewrite <- app_assoc, <- Hr2|rewrite length_app; lia
                  |rewrite length_app; lia| |].
    + intros [Hn|Hn]%orb_true_iff; apply elem_of_app; auto.
    + apply Forall_app. split; eapply Forall_impl; eauto; simpl;
        intros x ->; [done|by rewrite orb_true_r].
  - destruct (rmatch fl r1 k s) eqn:H1.
    + inversion H; subst. apply IH1 in H1 as (y & w & Hk & [? ? ? Hn Ha]).
      exists y, w. split; [done|]. split; simpl; [done|done|lia| |].
      * intros [Hn1 _]%andb_true_iff. auto.
      * eapply Forall_impl; eauto. simpl. by intros x ->.
    + apply IH2 in H as (y & w & Hk & [? ? ? Hn Ha]).
      exists y, w. split; [done|]. split; simpl; [done|done|lia| |].
      * intros [_ Hn2]%andb_true_iff. auto.
      * eapply Forall_impl; eauto. simpl. intros x ->. by rewrite orb_true_r.
  - eapply starLoop_sound in H; [done|exact IH1].
  - destruct (rmatch fl r1 _ s) eqn:H1.
    + inversion H; subst. apply IH1 in H1 as (y & w & Hk & [? ? ? ? ?]).
      destruct (pos y =? pos s); [done|].
      exists y, w. split; [done|]. split; simpl; [done|done|lia|done|done].
    + exists s, []. split; [done|]. by apply Consumed_nil.
  - apply IH1 in H as (y & w & Hk & [? ? ? ? ?]).
    eexists _, w. split; [exact Hk|]. split; done.
  - destruct (rmatch fl r1 Some s) eqn:H1; [|done].
    eexists _, []. split; [exact H|]. split; simpl; [done|lia|lia|done|done].
  - destruct (atLineStart _ s); [|done].
    exists s, []. split; [done|]. by apply Consumed_nil.
  - destruct (atLineEnd _ s); [|done].
    exists s, []. split; [done|]. by apply Consumed_nil.
Qed.

End Matcher.

(** ** Searching and replacing *)

Section Search.

Variable fl : Flags.
Variable r : Regex.
Variable c : char.
Hypothesis c_caseless : caseless c.

Lemma tryAt_sound p pv rs m :
  tryAt fl r p pv rs = Some m ->
  exists w rs', rs = w ++ rs' /\ index m = p /\ mend m = p + length w
                /\ matched m = w /\ minLen r <= length w
                /\ (needs c r = true -> c ∈ w).
Proof.
  unfold tryAt. destruct (rmatch fl r Some _) as [z|] eqn:H; [|done].
  intros [= <-]. apply (rmatch_sound fl c c_caseless) in H
    as (y & w & Hy & [Hr Hp Hm Hn _]). simpl in *.
  injection Hy as ->.
  exists w, (rest z). rewrite Hp, Hr.
  replace (p + length w - p) with (length w) by lia.
  rewrite take_app_length. done.
Qed.

Lemma searchFrom_sound rs : forall p pv m,
  searchFrom fl r p pv rs = Some m ->
  exists pre w post, rs = pre ++ w ++ post /\ index m = p + length pre
                     /\ mend m = index m + length w /\ matched m = w
                     /\ minLen r <= length w /\ (needs c r = true -> c ∈ w).
Proof.
  induction rs as [|x rs IH]; intros p pv m H; simpl in H.
  - destruct (tryAt fl r p pv []) eqn:Ht; [|done]. inversion H; subst.
    apply tryAt_sound in Ht as (w & rs' & ? & ? & ? & ? & ? & ?).
    exists [], w, rs'. simpl. split_and!; [done|lia|lia|done|done|done].
  - destruct (tryAt fl r p pv (x :: rs)) eqn:Ht.
    + inversion H; subst.
      apply tryAt_sound in Ht as (w & rs' & ? & ? & ? & ? & ? & ?).
      exists [], w, rs'. simpl. split_and!; [done|lia|lia|done|done|done].
    + apply IH in H as (pre & w & post & -> & ? & ? & ? & ? & ?).
      exists (x :: pre), w, post. simpl. split_and!; [done|lia|lia|done|done|done].
Qed.

Lemma exec_sound text lastIndex m :
  exec fl r text lastIndex = Some m ->
  exists pre w post, text = pre ++ w ++ post /\ lastIndex <= index m
                     /\ index m = length pre /\ mend m = index m + length w
                     /\ matched m = w /\ minLen r <= length w
                     /\ (needs c r = true -> c ∈ w).
Proof.
  unfold exec. destruct (lastIndex <=? length text) eqn:Hle; [|done].
  apply Nat.leb_le in Hle.
  intros (pre & w & post & Hd & Hi & He & Hm & Hl & Hn)%searchFrom_sound.
  exists (take lastIndex text ++ pre), w, post.
  rewrite <- app_assoc, <- Hd, take_drop, length_app, length_take.
  split_and!; [done|lia|lia|done|done|done|done].
Qed.

Lemma exec_bounds text lastIndex m :
  exec fl r text lastIndex = Some m ->
  lastIndex <= index m /\ index m + minLen r <= mend m /\ mend m <= length text.
Proof.
  intros (pre & w & post & -> & ? & ? & ? & ? & ? & ?)%exec_sound.
  rewrite !length_app. lia.
Qed.

Lemma exec_without text lastIndex :
  needs c r = true -> c ∉ text -> exec fl r text lastIndex = None.
Proof.
  intros Hn Hc. destruct (exec fl r text lastIndex) as [m|] eqn:H; [|done].
  apply exec_sound in H as (pre & w & post & -> & _ & _ & _ & _ & _ & Hw).
  exfalso. apply Hc. rewrite !elem_of_app. auto.
Qed.

Lemma matchAll_without text :
  needs c r = true -> c ∉ text -> matchAll fl r text = [].
Proof.
  intros Hn Hc. unfold matchAll. simpl. by rewrite exec_without.
Qed.

(** A pattern that needs a character absent from the text replaces nothing. *)
Lemma replaceAll_without f text :
  needs c r = true -> c ∉ text -> replaceAll fl r f text = text.
Proof.
  intros Hn Hc. unfold replaceAll. by rewrite matchAll_without.
Qed.

Lemma matchAllLoop_ordered text fuel : forall lastIndex,
  ordered (length text) lastIndex (matchAllLoop fl r text fuel lastIndex).
Proof.
  induction fuel as [|fuel IH]; intros lastIndex; simpl; [done|].
  destruct (exec fl r text lastIndex) as [m|] eqn:H; [|done].
  apply exec_bounds in H as (? & ? & ?). simpl.
  split_and!; [done|lia|done|].
  destruct (mend m =? index m) eqn:He.
  - specialize (IH (S (mend m))). revert IH.
    generalize (matchAllLoop fl r text fuel (S (mend m))).
    intros [|m' ms]; simpl; [done|]. intros (? & ? & ? & ?).
    split_and!; [lia|done|done|done].
  - apply IH.
Qed.

End Search.

(** ** Trimming *)

Lemma trimStart_length s : length (trimStart s) <= length s.
Proof.
  induction s as [|x s IH]; simpl; [done|]. destruct (isSpace x); simpl; lia.
Qed.

Lemma trimEnd_length s : length (trimEnd s) <= length s.
Proof.
  unfold trimEnd. rewrite length_reverse.
  etrans; [apply trimStart_length|]. by rewrite length_reverse.
Qed.

Lemma trim_length s : length (trim s) <= length s.
Proof.
  unfold trim. etrans; [apply trimEnd_length|]. apply trimStart_length.
Qed.

Lemma trimStart_Forall (P : char -> Prop) s : Forall P s -> Forall P (trimStart s).
Proof.
  induction 1 as [|x s Hx Hs IH]; simpl; [done|].
  destruct (isSpace x); [done|]. by constructor.
Qed.

Lemma trim_Forall (P : char -> Prop) s : Forall P s -> Forall P (trim s).
Proof.
  intros H. unfold trim, trimEnd.
  apply Forall_reverse, trimStart_Forall, Forall_reverse, trimStart_Forall, H.
Qed.

(** Trimmed text does not start with white space. *)
Lemma trimmed_head x s : trim (x :: s) = x :: s -> isSpace x = false.
Proof.
  intros H. destruct (isSpace x) eqn:Hx; [|done]. exfalso.
  assert (Hlen : length (trim (x :: s)) <= length s).
  { unfold trim. simpl. rewrite Hx.
    etrans; [apply trimEnd_length|]. apply trimStart_length. }
  rewrite H in Hlen. simpl in Hlen. lia.
Qed.

(** ** The fuel of the loops is never exhausted *)

Section Fuel.

Variable fl : Flags.

Lemma reaches_refl s : reaches s s.
Proof. exists []. simpl. split; [done|lia]. Qed.

Lemma reaches_trans s y z : reaches s y -> reaches y z -> reaches s z.
Proof.
  intros (w1 & Hr1 & Hp1) (w2 & Hr2 & Hp2). exists (w1 ++ w2).
  rewrite <- app_assoc, <- Hr2, length_app. split; [done|lia].
Qed.

Lemma reaches_advance s x tl : rest s = x :: tl -> reaches s (advance x tl s).
Proof. intros H. exists [x]. simpl. split; [done|lia]. Qed.

Lemma starLoop_ext (body : Cont -> Cont) g k1 k2 :
  (forall d1 d2 s, (forall y, reaches s y -> d1 y = d2 y) -> body d1 s = body d2 s) ->
  forall fuel s, (forall y, reaches s y -> k1 y = k2 y) ->
    starLoop body g k1 fuel s = starLoop body g k2 fuel s.
Proof.
  intros Hbody. induction fuel as [|fuel IH]; intros s Hk; [done|].
  cbn [starLoop].
  rewrite (Hbody _ (fun y => if pos y =? pos s then None
                             else starLoop body g k2 fuel y) s).
  - by rewrite (Hk s (reaches_refl s)).
  - intros y Hy. destruct (pos y =? pos s); [done|].
    apply IH. intros y' Hy'. apply Hk. by eapply reaches_trans.
Qed.

(** The matcher consults its continuation only ahead in the same input. *)
Lemma rmatch_ext r : forall k1 k2 s,
  (forall y, reaches s y -> k1 y = k2 y) -> rmatch fl r k1 s = rmatch fl r k2 s.
Proof.
  induction r as [a| |neg items| |r1 IH1 r2 IH2|r1 IH1 r2 IH2|g r1 IH1|r1 IH1
                  |n r1 IH1|r1 IH1| |]; intros k1 k2 s Hk; cbn [rmatch].
  - unfold step1. destruct (rest s) as [|x tl] eqn:Hr; [done|].
    destruct (chrMatches _ a x); [|done]. by apply Hk, reaches_advance.
  - unfold step1. destruct (rest s) as [|x tl] eqn:Hr; [done|].
    destruct (negb _); [|done]. by apply Hk, reaches_advance.
  - unfold step1. destruct (rest s) as [|x tl] eqn:Hr; [done|].
    destruct (classMatches _ _ _ x); [|done]. by apply Hk, reaches_advance.
  - apply Hk, reaches_refl.
  - apply IH1. intros y Hy. apply IH2. intros y' Hy'.
    apply Hk. by eapply reaches_trans.
  - by rewrite (IH1 k1 k2 s), (IH2 k1 k2 s).
  - by apply starLoop_ext.
  - rewrite (IH1 _ (fun y => if pos y =? pos s then None else k2 y) s).
    + by rewrite (Hk s (reaches_refl s)).
    + intros y Hy. destruct (pos y =? pos s); [done|]. by apply Hk.
  - apply IH1. intros y (w & Hr & Hp). apply Hk. by exists w.
  - destruct (rmatch fl r1 Some s); [|done]. apply Hk. exists []. simpl.
    split; [done|lia].
  - destruct (atLineStart _ s); [|done]. apply Hk, reaches_refl.
  - destruct (atLineEnd _ s); [|done]. apply Hk, reaches_refl.
Qed.

Lemma starLoop_fuel g r k : forall fuel1 fuel2 s,
  length (rest s) < fuel1 -> length (rest s) < fuel2 ->
  starLoop (rmatch fl r) g k fuel1 s = starLoop (rmatch fl r) g k fuel2 s.
Proof.
  induction fuel1 as [|fuel1 IH]; intros [|fuel2] s H1 H2; try lia.
  cbn [starLoop].
  rewrite (rmatch_ext r _ (fun y => if pos y =? pos s then None
                                    else starLoop (rmatch fl r) g k fuel2 y) s); [done|].
  intros y (w & Hr & Hp). destruct (pos y =? pos s) eqn:He; [done|].
  apply Nat.eqb_neq in He. rewrite Hr, length_app in H1, H2.
  destruct w; simpl in *; [lia|]. apply IH; lia.
Qed.

(** More fuel than [rmatch] gives to the loop of a quantifier changes
    nothing: the loop ends before the fuel does. *)
Lemma star_fuel_adequate g r k s n :
  rmatch fl (Star g r) k s = starLoop (rmatch fl r) g k (S (length (rest s)) + n) s.
Proof. cbn [rmatch]. apply starLoop_fuel; lia. Qed.

Lemma matchAllLoop_fuel r text : forall fuel1 fuel2 lastIndex,
  length text < lastIndex + fuel1 -> length text < lastIndex + fuel2 ->
  matchAllLoop fl r text fuel1 lastIndex = matchAllLoop fl r text fuel2 lastIndex.
Proof.
  assert (Hout : forall fuel lastIndex, length text < lastIndex ->
            matchAllLoop fl r text fuel lastIndex = []).
  { intros [|fuel] lastIndex H; [done|]. cbn [matchAllLoop]. unfold exec.
    by replace (lastIndex <=? length text) with false
      by (symmetry; apply Nat.leb_gt; lia). }
  induction fuel1 as [|fuel1 IH]; intros fuel2 lastIndex H1 H2.
  - rewrite !Hout by lia. done.
  - destruct fuel2 as [|fuel2]; [rewrite !Hout by lia; done|].
    cbn [matchAllLoop].
    destruct (exec fl r text lastIndex) as [m|] eqn:He; [|done].
    apply (exec_bounds _ _ _ caseless_zero) in He as (? & ? & ?).
    f_equal. destruct (mend m =? index m) eqn:Hm.
    + apply IH; lia.
    + apply Nat.eqb_neq in Hm. apply IH; lia.
Qed.

(** More fuel than [matchAll] gives to its loop finds no further match. *)
Lemma matchAll_fuel_adequate r text n :
  matchAll fl r text = matchAllLoop fl r text (S (length text) + n) 0.
Proof. apply matchAllLoop_fuel; lia. Qed.

End Fuel.

Lemma substring_length a b (t : jsstring) : length (substring a b t) <= length t - a.
Proof. unfold substring. rewrite length_take, length_drop. lia. Qed.

(** The bracket-removing loop of [stripBrackets] ends by its own condition
    before its fuel is used up. *)
Lemma unwrapLoop_exits fuel : forall t,
  length t <= fuel -> isWrapped (unwrapLoop fuel t) = false.
Proof.
  induction fuel as [|fuel IH]; intros t H; cbn [unwrapLoop].
  - destruct t; [done|simpl in H; lia].
  - destruct (isWrapped t) eqn:Hw; [|done]. apply IH.
    etrans; [apply trim_length|]. etrans; [apply substring_length|].
    destruct t; simpl in *; [done|lia].
Qed.

Lemma splice_Forall (P : char -> Prop) f text ms :
  Forall P text -> (forall m, Forall P (f m)) ->
  forall from, Forall P (splice f text from ms).
Proof.
  intros Ht Hf. induction ms as [|m ms IH]; intros from; simpl.
  - by apply Forall_drop.
  - rewrite !Forall_app. split_and!; [|done|done].
    by apply Forall_take, Forall_drop.
Qed.

Lemma replaceAll_Forall (P : char -> Prop) fl r f text :
  Forall P text -> (forall m, Forall P (f m)) -> Forall P (replaceAll fl r f text).
Proof. intros. by apply splice_Forall. Qed.

(** Deleting matches never lengthens the text. *)
Lemma splice_delete_length text ms : forall from,
  ordered (length text) from ms ->
  length (splice (fun _ => []) text from ms) <= length text - from.
Proof.
  induction ms as [|m ms IH]; intros from H; simpl in *.
  - rewrite length_drop. lia.
  - destruct H as (? & ? & ? & Ho). apply IH in Ho.
    rewrite length_app, length_take, length_drop. lia.
Qed.

Lemma replaceAll_delete_length fl r text :
  length (replaceAll fl r (fun _ => []) text) <= length text.
Proof.
  unfold replaceAll, matchAll.
  assert (Hc : caseless 0%N) by done.
  pose proof (splice_delete_length text _ 0
                (matchAllLoop_ordered fl r 0%N Hc text (S (length text)) 0)). lia.
Qed.

(** ** The tracker commit state machine *)

Section CommitStateMachine.

Implicit Types (w : World) (m : Message).

(** C1, as amended: when a generation starts with the extension enabled, the
    pending-swipe flag false, the request not an image generation, and the
    mode either together, or separate outside the tracker-update generation
    ([isGenerating] false), the three committed fields become the
    last-generated ones, whatever these are; nothing else changes. *)
Theorem promotion_on_generation_start w quietImage :
  enabled (extensionSettings w) = true ->
  lastActionWasSwipe w = false ->
  quietImage = false ->
  (generationMode (extensionSettings w) = together
   \/ (generationMode (extensionSettings w) = separate /\ isGenerating w = false)) ->
  promoted w (onGenerationStarted quietImage w)
  /\ lastGeneratedData (onGenerationStarted quietImage w) = lastGeneratedData w
  /\ lastActionWasSwipe (onGenerationStarted quietImage w) = false
  /\ chat (onGenerationStarted quietImage w) = chat w.
Proof.
  intros He Hs -> Hm. unfold onGenerationStarted, promoted. rewrite He. simpl.
  destruct Hm as [Hm|[Hm Hg]]; rewrite Hm; simpl.
  - rewrite Hm, Hs. simpl. done.
  - rewrite Hg, Hs. simpl. rewrite Hm. done.
Qed.

Lemma promotion_on_generation_start_witness :
  promoted (Examples.world together (Examples.generated "Health: 80%") false [])
    (onGenerationStarted false
       (Examples.world together (Examples.generated "Health: 80%") false [])).
Proof.
  apply (promotion_on_generation_start
           (Examples.world together (Examples.generated "Health: 80%") false [])
           false); [reflexivity|reflexivity|reflexivity|left; reflexivity].
Defined.

(** C1 as stated fails: in the separate mode the generation that updates
    the trackers ([isGenerating] true) promotes nothing, although the
    extension is enabled and the pending-swipe flag false. *)
Lemma promotion_not_unconditional :
  ~ (forall w quietImage,
       enabled (extensionSettings w) = true ->
       lastActionWasSwipe w = false ->
       generationMode (extensionSettings w) = together
       \/ generationMode (extensionSettings w) = separate ->
       promoted w (onGenerationStarted quietImage w)).
Proof.
  intros H.
  specialize (H (Examples.world separate (Examples.generated "Health: 80%") true [])
                false eq_refl eq_refl (or_intror eq_refl)).
  destruct H as [H _]. vm_compute in H. discriminate H.
Qed.

(** *** Generation completes *)

Lemma onMessageReceived_together w m :
  enabled (extensionSettings w) = true ->
  generationMode (extensionSettings w) = together ->
  last (chat w) = Some m ->
  is_user m = false ->
  onMessageReceived w = afterParse m w.
Proof.
  intros He Hm Hl Hu. unfold onMessageReceived, afterParse.
  rewrite He, Hm, Hl, Hu. done.
Qed.

Lemma afterParse_lastGenerated m w :
  lastGeneratedData (afterParse m w) = lastGeneratedData (receiveTogether m w).
Proof.
  unfold afterParse. destruct (lastActionWasSwipe _), (isPlotProgression _); done.
Qed.

Lemma afterParse_committed m w :
  committedTrackerData (afterParse m w) = committedTrackerData (receiveTogether m w).
Proof.
  unfold afterParse. destruct (lastActionWasSwipe _), (isPlotProgression _); done.
Qed.

Lemma afterParse_chat m w :
  chat (afterParse m w) = chat (receiveTogether m w).
Proof.
  unfold afterParse. destruct (lastActionWasSwipe _), (isPlotProgression _); done.
Qed.

Lemma onMessageReceived_flag w :
  enabled (extensionSettings w) = true ->
  lastActionWasSwipe (onMessageReceived w) = false.
Proof.
  intros He. unfold onMessageReceived. rewrite He. simpl.
  match goal with |- context [if lastActionWasSwipe ?x then _ else _] =>
    destruct (lastActionWasSwipe x) eqn:Hs end;
    match goal with |- context [if isPlotProgression ?x then _ else _] =>
      destruct (isPlotProgression x) end; done.
Qed.

Lemma ledgerEntry_id parsed : ledgerEntry parsed = parsed.
Proof. by destruct parsed. Qed.

Lemma SwipeLedger_afterParse m w j :
  last (chat w) = Some m ->
  SwipeLedger (afterParse m w) (length (chat w) - 1) j
  = if decide (j = currentSwipe m) then Some (parseResponse (mes m))
    else SwipeLedger w (length (chat w) - 1) j.
Proof.
  intros Hl. unfold SwipeLedger. rewrite afterParse_chat. simpl.
  assert (Hlt : length (chat w) - 1 < length (chat w)).
  { destruct (chat w); [done|simpl; lia]. }
  rewrite list_lookup_insert_eq by done. simpl.
  rewrite last_lookup in Hl.
  replace (pred (length (chat w))) with (length (chat w) - 1) in Hl by lia.
  rewrite Hl, ledgerEntry_id.
  case_decide as Hj.
  - subst j. by rewrite lookup_insert_eq.
  - rewrite lookup_insert_ne by done. by destruct (rpg_companion_swipes m).
Qed.

(** C4, as amended: when generation completes with the extension enabled,
    the pending-swipe flag is false afterwards; in the together mode with an
    assistant message last in the chat, the swipe-ledger entry of the current
    swipe index is replaced wholesale by the newly parsed snapshot and every
    other entry is kept.  The entry agrees with LastGenerated on each field
    the parse filled. *)
Theorem generation_complete_records_parse w :
  enabled (extensionSettings w) = true ->
  lastActionWasSwipe (onMessageReceived w) = false
  /\ forall m,
      generationMode (extensionSettings w) = together ->
      last (chat w) = Some m ->
      is_user m = false ->
      let parsed := parseResponse (mes m) in
      let w' := onMessageReceived w in
      let i := length (chat w) - 1 in
      SwipeLedger w' i (currentSwipe m) = Some parsed
      /\ (forall j, j <> currentSwipe m -> SwipeLedger w' i j = SwipeLedger w i j)
      /\ (truthy (userStats parsed) = true ->
          lg_userStats (lastGeneratedData w') = userStats parsed)
      /\ (truthy (infoBox parsed) = true ->
          lg_infoBox (lastGeneratedData w') = infoBox parsed)
      /\ (truthy (characterThoughts parsed) = true ->
          lg_characterThoughts (lastGeneratedData w') = characterThoughts parsed).
Proof.
  intros He. split; [by apply onMessageReceived_flag|].
  intros m Hm Hl Hu. simpl.
  rewrite (onMessageReceived_together w m) by done.
  rewrite afterParse_lastGenerated. split_and!.
  - rewrite SwipeLedger_afterParse by done. by rewrite decide_True.
  - intros j Hj. rewrite SwipeLedger_afterParse by done. by rewrite decide_False.
  - simpl. by intros ->.
  - simpl. by intros ->.
  - simpl. by intros ->.
Qed.

Lemma generation_complete_records_parse_witness :
  let w := Examples.world together noGeneratedData false
             [Examples.message false (js "```\nStats\n---\nHealth: 80%\n```")] in
  lastActionWasSwipe (onMessageReceived w) = false
  /\ SwipeLedger (onMessageReceived w) 0 0
     = Some {| userStats := Some (js "Stats\n---\nHealth: 80%"); infoBox := None;
               characterThoughts := None; actionSuggestions := None |}.
Proof.
  pose proof (generation_complete_records_parse
                (Examples.world together noGeneratedData false
                   [Examples.message false (js "```\nStats\n---\nHealth: 80%\n```")])
                eq_refl) as [H1 H2].
  split; [exact H1|].
  exact (proj1 (H2 (Examples.message false (js "```\nStats\n---\nHealth: 80%\n```"))
                   eq_refl eq_refl eq_refl)).
Defined.

(** C4 as stated fails: after a reply without tracker blocks the ledger
    entry is the all-null parse, while LastGenerated still holds the older
    statistics. *)
Lemma ledger_entry_is_not_last_generated :
  let w := Examples.world together (Examples.generated "Health: 80%") false
             [Examples.message false (js "The door creaks open.")] in
  let w' := onMessageReceived w in
  enabled (extensionSettings w) = true
  /\ (userStats <$> SwipeLedger w' 0 0) = Some None
  /\ lg_userStats (lastGeneratedData w') = Some (js "Health: 80%")
  /\ (userStats <$> SwipeLedger w' 0 0) <> Some (lg_userStats (lastGeneratedData w')).
Proof. vm_compute. done. Qed.

(** C2, as amended: when the parse of the new message is all-null,
    LastGenerated keeps its previous value; the swipe ledger records the
    all-null snapshot for the current swipe; Committed is auto-promoted to
    the (all-null) parse when it was empty and is unchanged otherwise; and
    the pending-swipe flag is false afterwards. *)
Theorem null_parse_keeps_last_generated w m :
  enabled (extensionSettings w) = true ->
  generationMode (extensionSettings w) = together ->
  last (chat w) = Some m ->
  is_user m = false ->
  parseResponse (mes m) = allNull ->
  let w' := onMessageReceived w in
  lastGeneratedData w' = lastGeneratedData w
  /\ SwipeLedger w' (length (chat w) - 1) (currentSwipe m) = Some allNull
  /\ committedTrackerData w'
     = (if committedIsEmpty (committedTrackerData w) then noCommittedData
        else committedTrackerData w)
  /\ lastActionWasSwipe w' = false.
Proof.
  intros He Hm Hl Hu Hp. simpl.
  rewrite onMessageReceived_flag by done.
  rewrite (onMessageReceived_together w m) by done.
  rewrite afterParse_lastGenerated, afterParse_committed.
  rewrite SwipeLedger_afterParse by done. rewrite decide_True by done.
  simpl. rewrite Hp. simpl. split_and!; [|done|done|done].
  by destruct (lastGeneratedData w).
Qed.

Lemma null_parse_keeps_last_generated_witness :
  lastGeneratedData
    (onMessageReceived
       (Examples.world together (Examples.generated "Health: 80%") false
          [Examples.message false (js "The door creaks open.")]))
  = Examples.generated "Health: 80%".
Proof.
  apply (null_parse_keeps_last_generated
           (Examples.world together (Examples.generated "Health: 80%") false
              [Examples.message false (js "The door creaks open.")])
           (Examples.message false (js "The door creaks open.")));
    reflexivity.
Defined.

(** C2 as stated fails: the parse is all-null, yet LastGenerated is not
    overwritten with it. *)
Lemma null_parse_does_not_overwrite :
  ~ (forall w m,
       enabled (extensionSettings w) = true ->
       generationMode (extensionSettings w) = together ->
       last (chat w) = Some m ->
       is_user m = false ->
       parseResponse (mes m) = allNull ->
       lg_userStats (lastGeneratedData (onMessageReceived w)) = None).
Proof.
  intros H.
  specialize (H (Examples.world together (Examples.generated "Health: 80%") false
                   [Examples.message false (js "The door creaks open.")])
                (Examples.message false (js "The door creaks open."))
                eq_refl eq_refl eq_refl eq_refl eq_refl).
  vm_compute in H. discriminate H.
Qed.

(** C5: in the together mode, when the three committed fields are all empty
    at the moment the parse of the new assistant message completes,
    Committed becomes the newly parsed snapshot. *)
Theorem first_parse_auto_promotes w m :
  enabled (extensionSettings w) = true ->
  generationMode (extensionSettings w) = together ->
  last (chat w) = Some m ->
  is_user m = false ->
  committedIsEmpty (committedTrackerData w) = true ->
  committedTrackerData (onMessageReceived w)
  = {| ct_userStats := userStats (parseResponse (mes m));
       ct_infoBox := infoBox (parseResponse (mes m));
       ct_characterThoughts := characterThoughts (parseResponse (mes m)) |}.
Proof.
  intros He Hm Hl Hu Hc.
  rewrite (onMessageReceived_together w m) by done.
  rewrite afterParse_committed. simpl. by rewrite Hc.
Qed.

Lemma first_parse_auto_promotes_witness :
  committedTrackerData
    (onMessageReceived
       (Examples.world together noGeneratedData false
          [Examples.message false (js "```\nStats\n---\nHealth: 80%\n```")]))
  = {| ct_userStats := Some (js "Stats\n---\nHealth: 80%");
       ct_infoBox := None; ct_characterThoughts := None |}.
Proof.
  apply (first_parse_auto_promotes
           (Examples.world together noGeneratedData false
              [Examples.message false (js "```\nStats\n---\nHealth: 80%\n```")])
           (Examples.message false (js "```\nStats\n---\nHealth: 80%\n```")));
    reflexivity.
Defined.

(** *** Swipe navigation *)

Lemma orNull_id v : v <> Some [] -> orNull v = v.
Proof. by destruct v as [[|]|]. Qed.

(** C3, as amended: with the extension enabled, navigating to an existing
    alternate response (one whose stored text is not empty) of an assistant
    message whose swipe ledger holds [S] for that response loads the three
    tracker fields of [S] into LastGenerated, an empty text being read as
    null; the [html] field of LastGenerated, Committed, the pending-swipe
    flag and the chat are unchanged.  The fields equal those of [S] exactly
    when none of them is the empty text. *)
Theorem swipe_navigation_loads_ledger w i m S :
  enabled (extensionSettings w) = true ->
  chat w !! i = Some m ->
  is_user m = false ->
  isExistingSwipe m = true ->
  SwipeLedger w i (currentSwipe m) = Some S ->
  let w' := onMessageSwiped i w in
  lg_userStats (lastGeneratedData w') = orNull (userStats S)
  /\ lg_infoBox (lastGeneratedData w') = orNull (infoBox S)
  /\ lg_characterThoughts (lastGeneratedData w') = orNull (characterThoughts S)
  /\ lg_html (lastGeneratedData w') = lg_html (lastGeneratedData w)
  /\ committedTrackerData w' = committedTrackerData w
  /\ lastActionWasSwipe w' = lastActionWasSwipe w
  /\ chat w' = chat w
  /\ (userStats S <> Some [] -> infoBox S <> Some [] ->
      characterThoughts S <> Some [] ->
      lg_userStats (lastGeneratedData w') = userStats S
      /\ lg_infoBox (lastGeneratedData w') = infoBox S
      /\ lg_characterThoughts (lastGeneratedData w') = characterThoughts S).
Proof.
  intros He Hi Hu Hx HS. unfold SwipeLedger in HS. rewrite Hi in HS.
  simpl. unfold onMessageSwiped. rewrite He, Hi, Hu, Hx. simpl.
  unfold swipeData. rewrite HS. simpl. split_and!; try done.
  intros H1 H2 H3. by rewrite !orNull_id.
Qed.

Lemma swipe_navigation_loads_ledger_witness :
  let w := onMessageReceived
             (Examples.world together noGeneratedData false
                [Examples.message false
                   (js "The inn.\n```\nStats\n---\nHealth: 80%\n```")]) in
  lg_userStats (lastGeneratedData (onMessageSwiped 0 w))
  = Some (js "Stats\n---\nHealth: 80%").
Proof.
  pose proof (swipe_navigation_loads_ledger
    (onMessageReceived
       (Examples.world together noGeneratedData false
          [Examples.message false
             (js "The inn.\n```\nStats\n---\nHealth: 80%\n```")]))
    0
    {| is_user := false; mes := js "The inn."; swipe_id := Some 0;
       swipes := Some [js "The inn."];
       rpg_companion_swipes :=
         Some (<[0 := parseResponse (js "The inn.\n```\nStats\n---\nHealth: 80%\n```")]> ∅) |}
    (parseResponse (js "The inn.\n```\nStats\n---\nHealth: 80%\n```"))
    eq_refl eq_refl eq_refl eq_refl eq_refl) as H.
  exact (proj1 H).
Defined.

(** C3 as stated fails: a recorded snapshot whose scene-info text is empty
    is loaded as null, so LastGenerated differs from the ledger entry. *)
Lemma swipe_navigation_not_exact :
  let w := onMessageReceived
             (Examples.world together noGeneratedData false
                [Examples.message false
                   (js "The inn.\n```\nDate:\nLocation:\nTime:\n```")]) in
  let w' := onMessageSwiped 0 w in
  enabled (extensionSettings w) = true
  /\ (isExistingSwipe <$> chat w !! 0) = Some true
  /\ (infoBox <$> SwipeLedger w 0 0) = Some (Some [])
  /\ lg_infoBox (lastGeneratedData w') = None
  /\ (infoBox <$> SwipeLedger w 0 0) <> Some (lg_infoBox (lastGeneratedData w')).
Proof. vm_compute. done. Qed.

(** C10: a swipe event on a missing message or on a user message changes
    nothing at all; and when the message has no swipe-ledger entry for its
    current swipe index, LastGenerated (and Committed) keep their values. *)
Theorem swipe_edge_cases_keep_state w i :
  ((chat w !! i = None \/ exists m, chat w !! i = Some m /\ is_user m = true) ->
   onMessageSwiped i w = w)
  /\ (forall m, chat w !! i = Some m -> swipeData m = None ->
      lastGeneratedData (onMessageSwiped i w) = lastGeneratedData w
      /\ committedTrackerData (onMessageSwiped i w) = committedTrackerData w).
Proof.
  unfold onMessageSwiped. split.
  - intros [H|(m & H & Hu)]; rewrite H; [|rewrite Hu];
      by destruct (enabled _).
  - intros m H Hd. rewrite H, Hd.
    destruct (enabled _), (is_user m), (isExistingSwipe m); done.
Qed.

Lemma swipe_edge_cases_keep_state_witness :
  onMessageSwiped 0
    (Examples.world together (Examples.generated "Health: 80%") false
       [Examples.message true (js "I open the door.")])
  = Examples.world together (Examples.generated "Health: 80%") false
      [Examples.message true (js "I open the door.")]
  /\ lastGeneratedData
       (onMessageSwiped 0
          (Examples.world together (Examples.generated "Health: 80%") false
             [Examples.message false (js "The door creaks open.")]))
     = Examples.generated "Health: 80%".
Proof.
  split.
  - apply (swipe_edge_cases_keep_state
             (Examples.world together (Examples.generated "Health: 80%") false
                [Examples.message true (js "I open the door.")]) 0).
    right. exists (Examples.message true (js "I open the door.")).
    split; reflexivity.
  - apply (proj2 (swipe_edge_cases_keep_state
                    (Examples.world together (Examples.generated "Health: 80%") false
                       [Examples.message false (js "The door creaks open.")]) 0)
             (Examples.message false (js "The door creaks open."))); reflexivity.
Defined.

End CommitStateMachine.

(** ** parseActionSuggestions *)

Section ActionSuggestions.

Lemma kept_length candidate : length (kept candidate) <= 1.
Proof.
  unfold kept. destruct (_ && _); [|simpl; lia].
  destruct (1 <=? _); simpl; lia.
Qed.

Lemma pushAction_kept actions candidate :
  pushAction actions candidate = actions ++ kept candidate.
Proof.
  unfold pushAction, kept.
  replace (truthy (Some candidate) && (0 <? length candidate))
    with (1 <=? length candidate) by (by destruct candidate).
  destruct (_ && _); [|by rewrite app_nil_r].
  replace (0 <? length (cleanAction candidate))
    with (1 <=? length (cleanAction candidate))
    by (by destruct (cleanAction candidate)).
  destruct (1 <=? _); [done|by rewrite app_nil_r].
Qed.

Lemma pushAll_take grp ms : forall actions,
  length actions < 3 ->
  pushAll grp ms actions
  = take 3 (actions ++ concat (map kept (map (fun m => trim (group grp m)) ms))).
Proof.
  induction ms as [|m ms IH]; intros actions Hlen; cbn [pushAll map concat].
  - rewrite app_nil_r, take_ge; [done|lia].
  - rewrite pushAction_kept.
    pose proof (kept_length (trim (group grp m))) as Hk.
    destruct (3 <=? length (actions ++ kept (trim (group grp m)))) eqn:Hge.
    + apply Nat.leb_le in Hge. rewrite length_app in Hge.
      rewrite app_assoc, take_app_le by (rewrite length_app; lia).
      rewrite take_ge; [done|rewrite length_app; lia].
    + apply Nat.leb_gt in Hge. rewrite IH by exact Hge. by rewrite app_assoc.
Qed.

(** The [exec] loop visits exactly the matches that [matchAll] lists, as
    soon as no match of the pattern is empty. *)
Lemma execLoop_matchAll pattern grp text :
  1 <= minLen pattern ->
  forall fuel2 fuel1 lastIndex actions,
    lastIndex <= length text ->
    length text < lastIndex + fuel1 ->
    length text < lastIndex + fuel2 ->
    execLoop pattern grp text fuel2 lastIndex actions
    = Some (pushAll grp (matchAllLoop flags_m pattern text fuel1 lastIndex) actions).
Proof.
  intros Hmin. induction fuel2 as [|fuel2 IH];
    intros fuel1 lastIndex actions Hle H1 H2; [lia|].
  destruct fuel1 as [|fuel1]; [lia|]. cbn [execLoop matchAllLoop].
  destruct (exec flags_m pattern text lastIndex) as [m|] eqn:He; [|done].
  apply (exec_bounds _ _ _ caseless_zero) in He as (? & ? & ?).
  cbn [pushAll].
  destruct (3 <=? length _); [done|].
  replace (mend m =? index m) with false by (symmetry; apply Nat.eqb_neq; lia).
  apply IH; lia.
Qed.

Lemma execLoop_firstThree pattern grp text fuel :
  1 <= minLen pattern ->
  length text < fuel ->
  execLoop pattern grp text fuel 0 [] = Some (firstThree pattern grp text).
Proof.
  intros Hmin Hfuel.
  rewrite (execLoop_matchAll pattern grp text Hmin fuel (S (length text)))
    by (simpl; lia).
  rewrite pushAll_take by (simpl; lia). done.
Qed.

Lemma parseActionSuggestions_refines fuel text :
  length text < fuel ->
  parseActionSuggestions fuel text = Some (loopsResult text).
Proof.
  intros Hfuel. unfold parseActionSuggestions, loopsResult.
  destruct text as [|x text]; [by vm_compute|].
  rewrite execLoop_firstThree by (done || (vm_compute; lia)).
  destruct (firstThree numberedPattern 2 (x :: text)); [|done].
  cbn [length Nat.eqb]. by rewrite execLoop_firstThree by (done || (vm_compute; lia)).
Qed.

Lemma cleanAction_length candidate : length (cleanAction candidate) <= length candidate.
Proof.
  unfold cleanAction. etrans; [apply trim_length|].
  etrans; [apply replaceAll_delete_length|]. apply replaceAll_delete_length.
Qed.

Lemma kept_bounds candidate :
  Forall (fun e => 1 <= length e < 200) (kept candidate).
Proof.
  unfold kept.
  destruct ((1 <=? _) && _) eqn:H; [|done].
  apply andb_true_iff in H as [_ H%Nat.ltb_lt].
  destruct (1 <=? length (cleanAction candidate)) eqn:H1; [|done].
  apply Nat.leb_le in H1. pose proof (cleanAction_length candidate).
  constructor; [lia|constructor].
Qed.

Lemma firstThree_bounds pattern grp text :
  length (firstThree pattern grp text) <= 3
  /\ Forall (fun e => 1 <= length e < 200) (firstThree pattern grp text).
Proof.
  unfold firstThree. split; [rewrite length_take; lia|].
  apply Forall_take, Forall_concat, Forall_map, Forall_forall.
  intros candidate _. apply kept_bounds.
Qed.

(** C9: a numbered marker with nothing after it on its line takes the next
    line for its text.  In the pattern of the numbered loop the white space
    after the dot may run over the line break, and the capture then holds
    the whole next line with its marker: of the three lines below, the second
    is an empty entry and the third reads [3. Leave], yet the suggestions
    returned are the first entry and the third line as it stands, marker
    included, instead of the text [Leave].  The same list with a text in
    its second entry yields the three texts. *)
Theorem bare_marker_takes_next_line :
  let text := js "1. Open the door\n2.\n3. Leave" in
  map matched (matchAll flags_m numberedPattern text)
  = [js "1. Open the door"; js "2.\n3. Leave"]
  /\ parseActionSuggestions (S (length text)) text
     = Some [js "Open the door"; js "3. Leave"]
  /\ parseActionSuggestions (S (length text)) text
     <> Some [js "Open the door"; js "Leave"]
  /\ parseActionSuggestions 52 (js "1. Open the door\n2. Ask about the letter\n3. Leave")
     = Some [js "Open the door"; js "Ask about the letter"; js "Leave"].
Proof. vm_compute. done. Qed.

End ActionSuggestions.

(** ** What a match starts with *)

Lemma rmatch_seq_inv fl r1 r2 k s z :
  rmatch fl (Seq r1 r2) k s = Some z ->
  exists y w, rmatch fl r2 k y = Some z /\ Consumed fl 0%N r1 s y w.
Proof.
  intros H. change (rmatch fl r1 (rmatch fl r2 k) s = Some z) in H.
  by apply (rmatch_sound fl 0%N caseless_zero) in H.
Qed.

Lemma rmatch_chr_inv fl a k s z :
  caseless a ->
  rmatch fl (Chr a) k s = Some z ->
  exists tl, rest s = a :: tl /\ k (advance a tl s) = Some z.
Proof.
  intros Ha (x & tl & Hr & Hx & Hk)%step1_inv.
  apply (chrMatches_caseless _ Ha) in Hx as ->. eauto.
Qed.

Lemma rmatch_fence k s tl :
  rest s = js "```" ++ tl ->
  rmatch flags_none (lit "```") k s
  = k {| pos := pos s + 3; prev := Some backtick; rest := tl; caps := caps s |}.
Proof.
  intros Hr.
  change (lit "```") with (Seq (Chr backtick) (Seq (Chr backtick) (Chr backtick))).
  change (js "```") with [backtick; backtick; backtick] in Hr.
  assert (Hb : chrMatches false backtick backtick = true) by done.
  cbn [rmatch]. change (ignoreCase flags_none) with false. unfold step1 at 1. rewrite Hr. cbn [app]. rewrite Hb.
  unfold step1 at 1. cbn [advance rest]. rewrite Hb.
  unfold step1 at 1. cbn [advance rest]. rewrite Hb.
  cbn [advance pos caps]. by replace (pos s + 3) with (S (S (S (pos s)))) by lia.
Qed.

(** ** Patterns without a match *)

Section NoMatch.

Variable fl : Flags.
Variable r : Regex.
(** What is known about a position of the scan: the character before it
    and the text from it on. *)
Variable Inv : option char -> jsstring -> Prop.
Hypothesis Inv_fails : forall p pv rs z,
  Inv pv rs ->
  rmatch fl r Some {| pos := p; prev := pv; rest := rs; caps := [] |} = Some z ->
  False.
Hypothesis Inv_next : forall pv x rs, Inv pv (x :: rs) -> Inv (Some x) rs.

Lemma tryAt_none p pv rs : Inv pv rs -> tryAt fl r p pv rs = None.
Proof.
  intros H. unfold tryAt.
  destruct (rmatch fl r Some _) as [z|] eqn:Hz; [|done].
  exfalso. eapply Inv_fails; eauto.
Qed.

Lemma searchFrom_none rs : forall p pv, Inv pv rs -> searchFrom fl r p pv rs = None.
Proof.
  induction rs as [|x rs IH]; intros p pv H; simpl; rewrite tryAt_none by done.
  - done.
  - apply IH. by eapply Inv_next.
Qed.

Lemma matchAll_none text : Inv None text -> matchAll fl r text = [].
Proof.
  intros H. unfold matchAll. cbn [matchAllLoop]. unfold exec.
  simpl. by rewrite searchFrom_none.
Qed.

Lemma replaceAll_none f text : Inv None text -> replaceAll fl r f text = text.
Proof.
  intros H. unfold replaceAll. by rewrite matchAll_none.
Qed.

End NoMatch.

(** ** parseResponse and the cleaned message *)

Section FailurePolicy.

Lemma parseBlock_unclassified result content :
  classifies content = false -> parseBlock result content = result.
Proof.
  unfold classifies, parseBlock.
  intros ((((-> & ->)%orb_false_iff & ->)%orb_false_iff
           & ->)%orb_false_iff & ->)%orb_false_iff.
  done.
Qed.

Lemma parseResponse_unclassified raw :
  Forall (fun content => classifies content = false) (codeBlocks raw) ->
  parseResponse raw = allNull.
Proof.
  unfold parseResponse. generalize allNull.
  induction (codeBlocks raw) as [|content blocks IH]; intros result H; [done|].
  inversion H; subst. simpl. rewrite parseBlock_unclassified by done. auto.
Qed.

Lemma countFences_fence s : countFences (js "```" ++ s) = S (countFences s).
Proof. done. Qed.

Lemma countFences_one a : forall c, 1 <= countFences (a ++ js "```" ++ c).
Proof.
  induction a as [|x a IH]; intros c.
  - rewrite app_nil_l, countFences_fence. lia.
  - specialize (IH c). change ((x :: a) ++ js "```" ++ c) with (x :: (a ++ js "```" ++ c)).
    assert (Hl : 3 <= length (a ++ js "```" ++ c)).
    { rewrite !length_app. change (length (js "```")) with 3. lia. }
    destruct (a ++ js "```" ++ c) as [|y [|z t]]; simpl in Hl; try lia.
    cbn [countFences]. destruct (_ && _)%N; [lia|done].
Qed.

Lemma countFences_two a : forall b c,
  2 <= countFences (a ++ js "```" ++ b ++ js "```" ++ c).
Proof.
  induction a as [|x a IH]; intros b c.
  - rewrite app_nil_l, countFences_fence. pose proof (countFences_one b c). lia.
  - specialize (IH b c).
    change ((x :: a) ++ js "```" ++ b ++ js "```" ++ c)
      with (x :: (a ++ js "```" ++ b ++ js "```" ++ c)).
    assert (Hd : drop 2 (a ++ js "```" ++ b ++ js "```" ++ c)
                 = drop 2 (a ++ js "```" ++ b) ++ js "```" ++ c).
    { rewrite (app_assoc a), (app_assoc (a ++ _)), <- (app_assoc a).
      rewrite drop_app_le; [done|].
      rewrite !length_app. change (length (js "```")) with 3. lia. }
    destruct (a ++ js "```" ++ b ++ js "```" ++ c) as [|y [|z t]] eqn:Ht;
      [by destruct a|apply (f_equal length) in Ht; rewrite !length_app in Ht;
                    change (length (js "```")) with 3 in Ht; simpl in Ht; lia|].
    cbn [countFences]. destruct (_ && _)%N; [|done].
    change (drop 2 (y :: z :: t)) with t in Hd. rewrite Hd.
    pose proof (countFences_one (drop 2 (a ++ js "```" ++ b)) c). lia.
Qed.

Lemma rmatch_fence_inv fl k s z :
  rmatch fl (lit "```") k s = Some z ->
  exists y, rest s = js "```" ++ rest y /\ k y = Some z.
Proof.
  intros H.
  change (rmatch fl (Chr backtick) (rmatch fl (Chr backtick) (rmatch fl (Chr backtick) k)) s
          = Some z) in H.
  apply rmatch_chr_inv in H as (t1 & H1 & H); [|done].
  apply rmatch_chr_inv in H as (t2 & H2 & H); [|done].
  apply rmatch_chr_inv in H as (t3 & H3 & H); [|done].
  simpl in H2, H3. subst t1 t2. eexists. split; [|exact H]. done.
Qed.

Lemma fenced_inv fl mid k s z :
  rmatch fl (lit "```") (rmatch fl mid (rmatch fl (lit "```") k)) s = Some z ->
  exists b c, rest s = js "```" ++ b ++ js "```" ++ c.
Proof.
  intros (y1 & H1 & H)%rmatch_fence_inv.
  apply (rmatch_sound fl 0%N caseless_zero) in H as (y2 & w & H & [Hw _ _ _ _]).
  apply rmatch_fence_inv in H as (y3 & H3 & _).
  exists w, (rest y3). by rewrite H1, Hw, H3.
Qed.

Section Unfenced.

Variable fl : Flags.
Variable r : Regex.
Hypothesis fenced : forall k s z,
  rmatch fl r k s = Some z -> exists b c, rest s = js "```" ++ b ++ js "```" ++ c.

Lemma matchAll_unfenced text :
  hasFencedRegion text = false -> matchAll fl r text = [].
Proof.
  intros H%Nat.leb_gt.
  apply (matchAll_none _ _
           (fun _ rs => forall a b c, rs <> a ++ js "```" ++ b ++ js "```" ++ c)).
  - intros p pv rs z Hi (b & c & Hr)%fenced. simpl in Hr. by apply (Hi [] b c).
  - intros pv x rs Hi a b c ->. by apply (Hi (x :: a) b c).
  - intros a b c ->. pose proof (countFences_two a b c). lia.
Qed.

Lemma replaceAll_unfenced f text :
  hasFencedRegion text = false -> replaceAll fl r f text = text.
Proof. intros H. unfold replaceAll. by rewrite matchAll_unfenced. Qed.

End Unfenced.

Lemma codeBlockRegex_fenced fl k s z :
  rmatch fl codeBlockRegex k s = Some z ->
  exists b c, rest s = js "```" ++ b ++ js "```" ++ c.
Proof. apply (fenced_inv fl (Grp 1 (Star false anyChar))). Qed.

Lemma trackerFence_fenced name fl k s z :
  rmatch fl (trackerFence name) k s = Some z ->
  exists b c, rest s = js "```" ++ b ++ js "```" ++ c.
Proof.
  apply (fenced_inv fl (Seq (Star false notBacktick)
                            (Seq (header name) (Star false notBacktick)))
                    (rmatch fl wsStar k)).
Qed.

Lemma countFences_split t :
  1 <= countFences t ->
  exists a c, t = a ++ js "```" ++ c /\ countFences t = S (countFences c).
Proof.
  induction t as [|x t IH]; [simpl; lia|].
  destruct t as [|y [|z t]]; [simpl; lia..|].
  change (countFences (x :: y :: z :: t))
    with (if ((x =? backtick) && (y =? backtick) && (z =? backtick))%N
          then S (countFences t) else countFences (y :: z :: t)).
  destruct ((x =? backtick) && (y =? backtick) && (z =? backtick))%N eqn:E.
  - intros _. apply andb_true_iff in E as [[->%N.eqb_eq ->%N.eqb_eq]%andb_true_iff
                                            ->%N.eqb_eq].
    by exists [], t.
  - intros (a & c & Ht & Hc)%IH. exists (x :: a), c. rewrite Hc.
    split; [|done]. by rewrite Ht.
Qed.

Lemma hasFencedRegion_split t :
  hasFencedRegion t = true ->
  exists a b c, t = a ++ js "```" ++ b ++ js "```" ++ c.
Proof.
  intros H%Nat.leb_le.
  destruct (countFences_split t) as (a & u & -> & Hu); [lia|].
  destruct (countFences_split u) as (b & c & -> & _); [lia|].
  by exists a, b, c.
Qed.

Lemma anyChar_accepts ic x : classMatches ic false [CSpace; CNotSpace] x = true.
Proof.
  unfold classMatches. cbn [xorb existsb itemMatches]. by destruct (isSpace x).
Qed.

(** A lazy [[\s\S]*?] finds a way to every later point at which the rest of
    the pattern matches. *)
Lemma starLoop_lazy_reaches fl (k : Cont) (tl : jsstring) (b : jsstring) :
  (forall y, rest y = tl -> is_Some (k y)) ->
  forall s fuel, rest s = b ++ tl -> length b < fuel ->
    is_Some (starLoop (rmatch fl anyChar) false k fuel s).
Proof.
  intros Hk. induction b as [|x b IH]; intros s fuel Hr Hfuel;
    (destruct fuel as [|fuel]; [simpl in Hfuel; lia|]); cbn [starLoop].
  - destruct (Hk s Hr) as [z ->]. by eexists.
  - destruct (k s) as [z|]; [by eexists|].
    change (rmatch fl anyChar ?d s)
      with (step1 (classMatches (ignoreCase fl) false [CSpace; CNotSpace]) d s).
    unfold step1. rewrite Hr. cbn [app]. rewrite anyChar_accepts.
    cbn [advance pos].
    replace (S (pos s) =? pos s) with false by (symmetry; apply Nat.eqb_neq; lia).
    apply IH; [done|simpl in Hfuel; lia].
Qed.

Lemma tryAt_codeBlock p pv b c :
  is_Some (tryAt flags_none codeBlockRegex p pv (js "```" ++ b ++ js "```" ++ c)).
Proof.
  unfold tryAt.
  set (s0 := {| pos := p; prev := pv; rest := js "```" ++ b ++ js "```" ++ c;
                caps := [] |}).
  assert (H : is_Some (rmatch flags_none codeBlockRegex Some s0)).
  { change (rmatch flags_none codeBlockRegex Some s0)
      with (rmatch flags_none (lit "```")
              (rmatch flags_none (Grp 1 (Star false anyChar))
                 (rmatch flags_none (lit "```") Some)) s0).
    rewrite (rmatch_fence _ s0 (b ++ js "```" ++ c)) by done.
    cbn [rmatch]. apply (starLoop_lazy_reaches _ _ (js "```" ++ c) b).
    - intros y Hy. rewrite (rmatch_fence _ _ c) by done. by eexists.
    - done.
    - cbn [rest]. rewrite length_app. lia. }
  destruct H as [z ->]. by eexists.
Qed.

Lemma searchFrom_finds fl r (a : jsstring) : forall p pv b,
  (forall p' pv', is_Some (tryAt fl r p' pv' b)) ->
  is_Some (searchFrom fl r p pv (a ++ b)).
Proof.
  induction a as [|x a IH]; intros p pv b Hb.
  - destruct (Hb p pv) as [m Hm]. exists m. rewrite app_nil_l.
    destruct b; cbn [searchFrom]; by rewrite Hm.
  - cbn [app searchFrom]. destruct (tryAt fl r p pv (x :: a ++ b)); [by eexists|].
    by apply IH.
Qed.

(** A text has no fenced region exactly when the pattern of the fenced
    regions has no match in it. *)
Lemma hasFencedRegion_matchAll text :
  hasFencedRegion text = false <-> matchAll flags_none codeBlockRegex text = [].
Proof.
  split; [apply (matchAll_unfenced _ _ (codeBlockRegex_fenced _))|].
  intros Hm. destruct (hasFencedRegion text) eqn:H; [|done]. exfalso.
  apply hasFencedRegion_split in H as (a & b & c & ->).
  unfold matchAll in Hm. cbn [matchAllLoop] in Hm. unfold exec in Hm.
  cbn [Nat.leb take drop last] in Hm.
  destruct (searchFrom_finds flags_none codeBlockRegex a 0 None
              (js "```" ++ b ++ js "```" ++ c)) as [m Hs].
  - intros p' pv'. apply tryAt_codeBlock.
  - rewrite take_0, drop_0 in Hm. cbn [last] in Hm. by rewrite Hs in Hm.
Qed.

Lemma codeBlocks_unfenced raw :
  hasFencedRegion (removeThinking raw) = false -> codeBlocks raw = [].
Proof.
  intros H. unfold codeBlocks.
  by rewrite (matchAll_unfenced _ _ (codeBlockRegex_fenced _)).
Qed.

Lemma test_false fl r text : test fl r text = false -> matchAll fl r text = [].
Proof.
  unfold test, jsmatch, matchAll. intros H%bool_decide_eq_false. cbn [matchAllLoop].
  destruct (exec fl r text 0); [|done]. by destruct H.
Qed.

Lemma cleanMessage_unfenced raw :
  hasFencedRegion raw = false ->
  cleanMessage raw
  = trim (collapseNewlines (replaceAll flags_m strayDivider (fun _ => []) raw)).
Proof.
  intros H. unfold cleanMessage.
  by do 5 rewrite (replaceAll_unfenced _ _ (trackerFence_fenced _ _) _ raw) by done.
Qed.

(** C6, as amended: [parseResponse] is total, and it returns the all-null
    snapshot whenever no fenced region of the text, taken after the removal
    of thinking spans, classifies as a tracker section, in particular when
    that text has no fenced region at all, which is exactly when the parser
    finds no region in it.  The cleaned text of an input without a fenced
    region is the input with its divider lines [---] removed, runs of three
    or more newlines collapsed to two and the ends trimmed; without a
    divider line it is the input with its white space normalised in that
    way. *)
Theorem parse_without_tracker_sections raw :
  (Forall (fun content => classifies content = false) (codeBlocks raw) ->
   parseResponse raw = allNull)
  /\ (hasFencedRegion (removeThinking raw) = false <-> codeBlocks raw = [])
  /\ (hasFencedRegion (removeThinking raw) = false -> parseResponse raw = allNull)
  /\ (hasFencedRegion raw = false ->
      cleanMessage raw
      = trim (collapseNewlines (replaceAll flags_m strayDivider (fun _ => []) raw)))
  /\ (hasFencedRegion raw = false -> test flags_m strayDivider raw = false ->
      cleanMessage raw = trim (collapseNewlines raw)).
Proof.
  split_and!.
  - apply parseResponse_unclassified.
  - unfold codeBlocks. rewrite hasFencedRegion_matchAll. split; [by intros ->|].
    by destruct (matchAll _ _ _).
  - intros H. apply parseResponse_unclassified. by rewrite codeBlocks_unfenced.
  - apply cleanMessage_unfenced.
  - intros H Hd. rewrite cleanMessage_unfenced by done.
    unfold replaceAll. by rewrite test_false.
Qed.

Lemma parse_without_tracker_sections_witness :
  parseResponse (js "He types:\n```\nprint(1)\n```") = allNull
  /\ parseResponse (js "Use `x` here.\n\n\n\nDone") = allNull
  /\ parseResponse (js "He says ```hello") = allNull
  /\ cleanMessage (js "Chapter One\n---\nThe door creaks open.")
     = js "Chapter One\n\nThe door creaks open."
  /\ cleanMessage (js "Use `x` here.\n\n\n\nDone") = js "Use `x` here.\n\nDone"
  /\ cleanMessage (js "He says ```hello") = js "He says ```hello".
Proof.
  split_and!.
  - apply (proj1 (parse_without_tracker_sections (js "He types:\n```\nprint(1)\n```"))).
    replace (codeBlocks (js "He types:\n```\nprint(1)\n```")) with [js "print(1)"]
      by (by vm_compute).
    constructor; [by vm_compute|constructor].
  - destruct (parse_without_tracker_sections (js "Use `x` here.\n\n\n\nDone"))
      as (_ & _ & H & _).
    apply H. by vm_compute.
  - destruct (parse_without_tracker_sections (js "He says ```hello"))
      as (_ & _ & H & _).
    apply H. by vm_compute.
  - destruct (parse_without_tracker_sections
                (js "Chapter One\n---\nThe door creaks open."))
      as (_ & _ & _ & H & _).
    rewrite H by (by vm_compute). by vm_compute.
  - destruct (parse_without_tracker_sections (js "Use `x` here.\n\n\n\nDone"))
      as (_ & _ & _ & _ & H).
    rewrite H by (by vm_compute). by vm_compute.
  - destruct (parse_without_tracker_sections (js "He says ```hello"))
      as (_ & _ & _ & _ & H).
    rewrite H by (by vm_compute). by vm_compute.
Defined.

(** C6 as stated fails at two texts without a fenced region.  The first is
    parsed to the all-null snapshot, but its cleaned text has lost the
    divider line, which no normalisation of white space accounts for.  The
    second has no fence at all, yet the removal of its thinking spans leaves
    a fenced region that classifies, and the snapshot is not all-null. *)
Lemma unfenced_text_counterexamples :
  (let raw := js "Chapter One\n---\nThe door creaks open." in
   hasFencedRegion raw = false
   /\ parseResponse raw = allNull
   /\ cleanMessage raw = js "Chapter One\n\nThe door creaks open."
   /\ inkOf (cleanMessage raw) <> inkOf raw)
  /\ (let raw := js "``<think>a</think>`\nStats\n---\nHealth: 80%\n``<think>b</think>`" in
      hasFencedRegion raw = false
      /\ countFences raw = 0
      /\ userStats (parseResponse raw) = Some (js "Stats\n---\nHealth: 80%")
      /\ parseResponse raw <> allNull).
Proof. vm_compute. done. Qed.

(** C7: the reply below carries its statistics in a fenced region without a
    section header.  [parseResponse] classifies the region by the
    [Health:]/[Energy:] fallback, the cleaning patterns of
    [onMessageReceived] only know the header forms, so the cleaned text
    still holds the region and parsing it again yields the statistics
    instead of the all-null snapshot. *)
Theorem reparse_of_cleaned_text_finds_tracker :
  let raw := js "The tavern is quiet.\n```\nHealth: 80%\nEnergy: 50%\n```" in
  userStats (parseResponse raw) = Some (js "Health: 80%\nEnergy: 50%")
  /\ cleanMessage raw = raw
  /\ parseResponse (cleanMessage raw) = parseResponse raw
  /\ parseResponse (cleanMessage raw) <> allNull.
Proof. vm_compute. done. Qed.

End FailurePolicy.

(** ** stripBrackets *)

Section StripBrackets.

Lemma caseless_punct : caseless (ch "[") /\ caseless (ch ":") /\ caseless (ch "|")
                       /\ caseless (ch ",").
Proof. done. Qed.

Lemma isSpace_lineTerminator x : isLineTerminator x = true -> isSpace x = true.
Proof. unfold isSpace. by intros ->. Qed.

Lemma followed_app sep bad w s :
  followed sep bad (w ++ s) = true -> followed sep bad s = true.
Proof.
  induction w as [|x w IH]; simpl; [done|].
  intros [_ H]%andb_true_iff. auto.
Qed.

Lemma valueFollows_app bad w s :
  Forall (fun x => isSpace x = true) w ->
  valueFollows bad (w ++ s) = true ->
  exists x s', s = x :: s' /\ isLineTerminator x = false
               /\ (isSpace x = false -> bad x = false).
Proof.
  induction 1 as [|a w Ha Hw IH]; cbn [app valueFollows].
  - destruct s as [|x s']; [done|]. cbn [valueFollows].
    destruct (isLineTerminator x) eqn:Hl; [done|].
    destruct (isSpace x) eqn:Hs.
    + intros _. exists x, s'. by rewrite Hs.
    + intros Hb%negb_true_iff. exists x, s'. done.
  - destruct (isLineTerminator a); [done|]. by rewrite Ha.
Qed.

Lemma SeesBad_Eol fl bad : SeesBad fl bad Eol.
Proof.
  intros y z H. cbn [rmatch] in H. unfold atLineEnd in H.
  destruct (rest y) as [|x tl]; [done|].
  destruct (multiline fl); simpl in H; [|done].
  destruct (isLineTerminator x); [by left|done].
Qed.

Lemma SeesBad_Chr fl bad b :
  caseless b -> isSpace b = false -> bad b = true -> SeesBad fl bad (Chr b).
Proof.
  intros Hb Hs Hbad y z (tl & -> & _)%rmatch_chr_inv; [|done]. by right.
Qed.

(** [sep\s*post] cannot match where every [sep] is followed by a value. *)
Lemma separator_fails fl sep bad post s z :
  caseless sep ->
  SeesBad fl bad post ->
  followed sep bad (rest s) = true ->
  rmatch fl (Seq (Chr sep) (Seq wsStar post)) Some s = Some z ->
  False.
Proof.
  intros Hsep Hpost Hf H. cbn [rmatch] in H.
  apply step1_inv in H as (x & tl & Hr & Hx & H).
  apply (chrMatches_caseless _ Hsep) in Hx as ->.
  change (rmatch fl (Seq wsStar post) Some (advance sep tl s) = Some z) in H.
  apply rmatch_seq_inv in H as (y & w & H & [Hw _ _ _ Ha]). simpl in Hw.
  rewrite Hr in Hf. simpl in Hf. rewrite N.eqb_refl in Hf.
  apply andb_true_iff in Hf as [Hv _]. rewrite Hw in Hv.
  apply valueFollows_app in Hv as (x & s' & Hy & Hl & Hb).
  - apply Hpost in H. rewrite Hy in H. destruct H as [H|[H1 H2]]; [congruence|].
    rewrite Hb in H2; done.
  - eapply Forall_impl; [exact Ha|]. simpl. intros c.
    unfold classMatches. simpl. by rewrite orb_false_r.
Qed.

(** The same behind a label [^([A-Za-z\s]+)]. *)
Lemma label_fails fl post bad p pv rs z :
  SeesBad fl bad post ->
  followed (ch ":") bad rs = true ->
  rmatch fl (rseq [Bol; Grp 1 (plus true letterOrSpace); lit ":"; wsStar; post]) Some
    {| pos := p; prev := pv; rest := rs; caps := [] |} = Some z ->
  False.
Proof.
  intros Hpost Hf H.
  change (rmatch fl (Seq Bol (Seq (Grp 1 (plus true letterOrSpace))
            (Seq (Chr (ch ":")) (Seq wsStar post)))) Some
            {| pos := p; prev := pv; rest := rs; caps := [] |} = Some z) in H.
  cbn [rmatch] in H. destruct (atLineStart _ _); [|done].
  change (rmatch fl (Seq (Grp 1 (plus true letterOrSpace))
            (Seq (Chr (ch ":")) (Seq wsStar post))) Some
            {| pos := p; prev := pv; rest := rs; caps := [] |} = Some z) in H.
  apply rmatch_seq_inv in H as (y & w & H & [Hw _ _ _ _]). simpl in Hw.
  eapply (separator_fails fl (ch ":") bad post y z); try done.
  rewrite Hw in Hf. by apply followed_app in Hf.
Qed.

Lemma followed_tail sep bad x rs :
  followed sep bad (x :: rs) = true -> followed sep bad rs = true.
Proof. simpl. by intros [_ H]%andb_true_iff. Qed.

Lemma emptyLabel_none t :
  followed (ch ":") commaOrPipe t = true ->
  replaceAll flags_m emptyLabel (fun _ => []) t = t.
Proof.
  apply (replaceAll_none _ _ (fun _ rs => followed (ch ":") commaOrPipe rs = true)).
  - intros p pv rs z Hf H.
    by apply (label_fails flags_m Eol commaOrPipe p pv rs z (SeesBad_Eol _ _)).
  - intros _ x rs. apply followed_tail.
Qed.

Lemma labelComma_none f t :
  followed (ch ":") commaOrPipe t = true ->
  replaceAll flags_m labelComma f t = t.
Proof.
  apply (replaceAll_none _ _ (fun _ rs => followed (ch ":") commaOrPipe rs = true)).
  - intros p pv rs z Hf H.
    apply (label_fails flags_m (lit ",") commaOrPipe p pv rs z); [|done|done].
    by apply SeesBad_Chr.
  - intros _ x rs. apply followed_tail.
Qed.

Lemma colonPipe_none f t :
  followed (ch ":") commaOrPipe t = true ->
  replaceAll flags_none colonPipe f t = t.
Proof.
  apply (replaceAll_none _ _ (fun _ rs => followed (ch ":") commaOrPipe rs = true)).
  - intros p pv rs z Hf H.
    refine (separator_fails flags_none (ch ":") commaOrPipe (lit "|") _ z _ _ _ H); [done| |done].
    by apply SeesBad_Chr.
  - intros _ x rs. apply followed_tail.
Qed.

Lemma doublePipe_none f t :
  followed (ch "|") pipe t = true ->
  replaceAll flags_none doublePipe f t = t.
Proof.
  apply (replaceAll_none _ _ (fun _ rs => followed (ch "|") pipe rs = true)).
  - intros p pv rs z Hf H.
    refine (separator_fails flags_none (ch "|") pipe (lit "|") _ z _ _ _ H); [done| |done].
    by apply SeesBad_Chr.
  - intros _ x rs. apply followed_tail.
Qed.

Lemma trailingPipe_none t :
  followed (ch "|") pipe t = true ->
  replaceAll flags_m trailingPipe (fun _ => []) t = t.
Proof.
  apply (replaceAll_none _ _ (fun _ rs => followed (ch "|") pipe rs = true)).
  - intros p pv rs z Hf H.
    refine (separator_fails flags_m (ch "|") pipe Eol _ z _ _ _ H); [done| |done].
    apply SeesBad_Eol.
  - intros _ x rs. apply followed_tail.
Qed.


Lemma ws_matches ic x : classMatches ic false [CSpace] x = isSpace x.
Proof. unfold classMatches. simpl. by rewrite orb_false_r. Qed.

Lemma singleSpaced_tail x rs : singleSpaced (x :: rs) = true -> singleSpaced rs = true.
Proof. destruct rs; [done|]. simpl. by intros [_ H]%andb_true_iff. Qed.

Lemma rmatch_ws_inv fl r2 k s z :
  rmatch fl (Seq ws r2) k s = Some z ->
  exists x tl, rest s = x :: tl /\ isSpace x = true
               /\ rmatch fl r2 k (advance x tl s) = Some z.
Proof.
  intros H.
  change (step1 (classMatches (ignoreCase fl) false [CSpace]) (rmatch fl r2 k) s
          = Some z) in H.
  apply step1_inv in H as (x & tl & Hr & Hx & H).
  rewrite ws_matches in Hx. eauto.
Qed.

Lemma wsStar_inv fl r2 k s z :
  rmatch fl (Seq wsStar r2) k s = Some z ->
  exists y w, rest s = w ++ rest y /\ Forall (fun x => isSpace x = true) w
              /\ rmatch fl r2 k y = Some z.
Proof.
  intros (y & w & H & [Hw _ _ _ Ha])%rmatch_seq_inv.
  exists y, w. split_and!; [done| |done].
  eapply Forall_impl; [exact Ha|]. intros x Hx.
  rewrite <- (ws_matches (ignoreCase fl)). exact Hx.
Qed.

Lemma multipleSpaces_none f t :
  singleSpaced t = true -> replaceAll flags_none multipleSpaces f t = t.
Proof.
  apply (replaceAll_none _ _ (fun _ rs => singleSpaced rs = true)).
  - intros p pv rs z Hs H.
    change (rmatch flags_none (Seq ws (Seq ws wsStar)) Some
              {| pos := p; prev := pv; rest := rs; caps := [] |} = Some z) in H.
    apply rmatch_ws_inv in H as (x1 & tl1 & Hr1 & Hx1 & H).
    apply rmatch_ws_inv in H as (x2 & tl2 & Hr2 & Hx2 & H).
    simpl in Hr1, Hr2. subst rs tl1. simpl in Hs.
    by rewrite Hx1, Hx2 in Hs.
  - intros _ x rs. apply singleSpaced_tail.
Qed.

Lemma emptyLine_none f t :
  trim t = t -> singleSpaced t = true -> replaceAll flags_m emptyLine f t = t.
Proof.
  intros Ht Hs. apply (replaceAll_none _ _ wordStart).
  - intros p pv rs z [Hrs Hpv] H.
    change (rmatch flags_m (Seq Bol (Seq wsStar newline)) Some
              {| pos := p; prev := pv; rest := rs; caps := [] |} = Some z) in H.
    cbn [rmatch] in H. unfold atLineStart in H. simpl in H.
    assert (Hfirst : match rs with [] => False | x :: _ => isSpace x = true end).
    { destruct pv as [c0|].
      - destruct (isLineTerminator c0); [|done].
        change (rmatch flags_m (Seq wsStar newline) Some
                  {| pos := p; prev := Some c0; rest := rs; caps := [] |} = Some z) in H.
        apply wsStar_inv in H as (y & w & Hw & Ha & H).
        apply rmatch_chr_inv in H as (tl & Hy & _); [|done].
        simpl in Hw. rewrite Hy in Hw. rewrite Hw.
        destruct Ha as [|x w Hx _]; simpl; done.
      - change (rmatch flags_m (Seq wsStar newline) Some
                  {| pos := p; prev := None; rest := rs; caps := [] |} = Some z) in H.
        apply wsStar_inv in H as (y & w & Hw & Ha & H).
        apply rmatch_chr_inv in H as (tl & Hy & _); [|done].
        simpl in Hw. rewrite Hy in Hw. rewrite Hw.
        destruct Ha as [|x w Hx _]; simpl; done. }
    destruct rs as [|x rs]; [done|]. specialize (Hpv Hfirst).
    destruct pv as [c0|]; [|done].
    destruct (isLineTerminator c0) eqn:Hl; [|done].
    apply isSpace_lineTerminator in Hl. congruence.
  - intros pv x rs [Hrs Hpv]. split; [by eapply singleSpaced_tail|].
    destruct rs as [|x2 rs]; [done|]. intros Hx2.
    simpl in Hrs. apply andb_true_iff in Hrs as [Hrs _].
    rewrite Hx2, andb_true_r in Hrs. by apply negb_true_iff in Hrs.
  - split; [done|]. destruct t as [|x t]; [done|].
    intros Hx. apply trimmed_head in Ht. congruence.
Qed.

Lemma unwrapLoop_unwrapped fuel t : isWrapped t = false -> unwrapLoop fuel t = t.
Proof. intros H. destruct fuel; simpl; [done|]. by rewrite H. Qed.

(** A sufficient condition that can be read off the text: stripped text is
    returned as it is. *)
Lemma stripped_text_unchanged u : Stripped u -> stripBrackets u = u.
Proof.
  intros [Ht Hu Hb Hs Hc Hp]. destruct u as [|x u]; [done|].
  unfold stripBrackets. cbv zeta. rewrite Ht.
  rewrite unwrapLoop_unwrapped by done.
  rewrite (replaceAll_without flags_none placeholderPattern (ch "[")
             (proj1 caseless_punct)) by (done || by apply absent_check).
  rewrite emptyLabel_none by done.
  rewrite labelComma_none by done.
  rewrite colonPipe_none by done.
  rewrite doublePipe_none by done.
  rewrite trailingPipe_none by done.
  rewrite multipleSpaces_none by done.
  rewrite emptyLine_none by done.
  done.
Qed.

End StripBrackets.

(** * Further properties of the code *)

(** ** Sequences of events *)

Section EventSequences.

Lemma commitLoop_frame ms w :
  lastGeneratedData (commitLoop ms w) = lastGeneratedData w
  /\ chat (commitLoop ms w) = chat w.
Proof.
  induction ms as [|m ms IH]; [done|]. simpl.
  destruct (is_user m); simpl; [done|]. by destruct (swipeData m).
Qed.

Lemma commitLoop_users ms earlier w :
  Forall (fun m => is_user m = true) ms ->
  commitLoop (ms ++ earlier) w = commitLoop earlier w.
Proof.
  induction 1 as [|m ms Hm _ IH]; [done|]. simpl. by rewrite Hm.
Qed.

(** X1: in the together mode, [commitTrackerData] called right after
    [onMessageReceived] has handled an assistant message commits the three
    tracker fields of the parse of that message, an empty text being read as
    null, whatever Committed held before; LastGenerated and the chat stay as
    [onMessageReceived] left them. *)
Theorem commit_after_receive w m :
  enabled (extensionSettings w) = true ->
  generationMode (extensionSettings w) = together ->
  last (chat w) = Some m ->
  is_user m = false ->
  let parsed := parseResponse (mes m) in
  let w' := commitTrackerData (onMessageReceived w) in
  committedTrackerData w'
  = {| ct_userStats := orNull (userStats parsed);
       ct_infoBox := orNull (infoBox parsed);
       ct_characterThoughts := orNull (characterThoughts parsed) |}
  /\ lastGeneratedData w' = lastGeneratedData (onMessageReceived w)
  /\ chat w' = chat (onMessageReceived w).
Proof.
  intros He Hm Hl Hu parsed w'. subst w'.
  unfold commitTrackerData.
  destruct (commitLoop_frame (reverse (chat (onMessageReceived w)))
              (onMessageReceived w)) as (Hlg & Hc).
  split; [|done].
  rewrite (onMessageReceived_together w m) by done.
  rewrite afterParse_chat.
  apply last_Some in Hl as [l' Hl'].
  cbn [receiveTogether chat withChat]. rewrite Hl'.
  rewrite length_app. cbn [length].
  replace (length l' + 1 - 1) with (length l' + 0) by lia.
  rewrite insert_app_r. cbn [insert list_insert]. rewrite reverse_snoc.
  cbn [commitLoop is_user]. rewrite Hu. cbn [negb].
  unfold swipeData. cbn [rpg_companion_swipes currentSwipe swipe_id].
  fold (currentSwipe m). rewrite lookup_insert_eq. by rewrite ledgerEntry_id.
Qed.

Lemma commit_after_receive_witness :
  let w := Examples.world together noGeneratedData false
             [Examples.message false (js "```\nStats\n---\nHealth: 80%\n```")] in
  ct_userStats (committedTrackerData (commitTrackerData (onMessageReceived w)))
  = Some (js "Stats\n---\nHealth: 80%").
Proof.
  intros w.
  pose proof (commit_after_receive w
                (Examples.message false (js "```\nStats\n---\nHealth: 80%\n```"))
                eq_refl eq_refl eq_refl eq_refl) as [H _].
  cbv zeta in H. rewrite H. vm_compute. reflexivity.
Defined.

(** X2: [commitTrackerData] decides from the last assistant message alone.
    When only user messages follow it, Committed becomes the three fields of
    the ledger entry of its current swipe (an empty text read as null) and
    nothing else changes; without such an entry nothing changes at all.
    Earlier messages are never consulted. *)
Theorem commit_reads_last_assistant_message w before m after :
  chat w = before ++ m :: after ->
  is_user m = false ->
  Forall (fun u => is_user u = true) after ->
  commitTrackerData w
  = match swipeData m with
    | Some data =>
        withCommitted
          {| ct_userStats := orNull (userStats data);
             ct_infoBox := orNull (infoBox data);
             ct_characterThoughts := orNull (characterThoughts data) |} w
    | None => w
    end.
Proof.
  intros Hc Hu Ha. unfold commitTrackerData. rewrite Hc.
  rewrite reverse_app, reverse_cons, <- app_assoc.
  rewrite commitLoop_users by (by apply Forall_reverse).
  cbn [app commitLoop]. by rewrite Hu.
Qed.

Lemma commit_reads_last_assistant_message_witness :
  let stored := {| userStats := Some (js "Health: 80%"); infoBox := Some [];
                   characterThoughts := None; actionSuggestions := None |} in
  let m := {| is_user := false; mes := js "The door creaks open.";
              swipe_id := Some 1; swipes := None;
              rpg_companion_swipes := Some {[ 1 := stored ]} |} in
  let w := Examples.world together noGeneratedData false
             [Examples.message false (js "Welcome."); m;
              Examples.message true (js "I go in.")] in
  committedTrackerData (commitTrackerData w)
  = {| ct_userStats := Some (js "Health: 80%"); ct_infoBox := None;
       ct_characterThoughts := None |}.
Proof.
  intros stored m w.
  rewrite (commit_reads_last_assistant_message w
             [Examples.message false (js "Welcome.")] m
             [Examples.message true (js "I go in.")] eq_refl eq_refl).
  - reflexivity.
  - constructor; [reflexivity|constructor].
Defined.

(** X3: when the chat is empty or holds user messages only,
    [commitTrackerData] changes nothing. *)
Theorem commit_without_assistant_message w :
  Forall (fun u => is_user u = true) (chat w) ->
  commitTrackerData w = w.
Proof.
  intros H. unfold commitTrackerData.
  rewrite <- (app_nil_r (reverse (chat w))).
  rewrite commitLoop_users by (by apply Forall_reverse). done.
Qed.

Lemma commit_without_assistant_message_witness :
  commitTrackerData
    (Examples.world together (Examples.generated "Health: 80%") false
       [Examples.message true (js "Hello?")])
  = Examples.world together (Examples.generated "Health: 80%") false
      [Examples.message true (js "Hello?")].
Proof.
  apply (commit_without_assistant_message
           (Examples.world together (Examples.generated "Health: 80%") false
              [Examples.message true (js "Hello?")])).
  constructor; [reflexivity|constructor].
Defined.

(** X4: what [commitTrackerData] commits is what swipe navigation shows.
    With the extension enabled and the last assistant message holding a
    ledger entry for its current swipe, the three fields [commitTrackerData]
    writes into Committed are the three fields a swipe event on that message
    writes into LastGenerated. *)
Theorem commit_agrees_with_swipe_display w before m after data :
  enabled (extensionSettings w) = true ->
  chat w = before ++ m :: after ->
  is_user m = false ->
  Forall (fun u => is_user u = true) after ->
  swipeData m = Some data ->
  let shown := lastGeneratedData (onMessageSwiped (length before) w) in
  let committed := committedTrackerData (commitTrackerData w) in
  ct_userStats committed = lg_userStats shown
  /\ ct_infoBox committed = lg_infoBox shown
  /\ ct_characterThoughts committed = lg_characterThoughts shown.
Proof.
  intros He Hc Hu Ha Hd shown committed. subst shown committed.
  unfold commitTrackerData, onMessageSwiped. rewrite He, Hc.
  rewrite reverse_app, reverse_cons, <- app_assoc.
  rewrite commitLoop_users by (by apply Forall_reverse).
  rewrite list_lookup_middle by done.
  cbn [app commitLoop negb]. rewrite Hu, Hd. cbn [negb].
  by destruct (isExistingSwipe m).
Qed.

Lemma commit_agrees_with_swipe_display_witness :
  let stored := {| userStats := Some (js "Health: 80%"); infoBox := Some [];
                   characterThoughts := None; actionSuggestions := None |} in
  let m := {| is_user := false; mes := js "The door creaks open.";
              swipe_id := Some 1; swipes := None;
              rpg_companion_swipes := Some {[ 1 := stored ]} |} in
  let w := Examples.world together noGeneratedData false
             [Examples.message false (js "Welcome."); m;
              Examples.message true (js "I go in.")] in
  ct_userStats (committedTrackerData (commitTrackerData w))
  = lg_userStats (lastGeneratedData (onMessageSwiped 1 w)).
Proof.
  intros stored m w.
  apply (commit_agrees_with_swipe_display w
           [Examples.message false (js "Welcome.")] m
           [Examples.message true (js "I go in.")] stored);
    [reflexivity|reflexivity|reflexivity| |reflexivity].
  constructor; [reflexivity|constructor].
Defined.

Lemma dispatch_settings w e : extensionSettings (dispatch w e) = extensionSettings w.
Proof.
  destruct e as [|q| |i]; cbn [dispatch].
  - unfold onMessageSent. by destruct (enabled (extensionSettings w)).
  - unfold onGenerationStarted, promote.
    destruct q, (enabled (extensionSettings w)),
      (generationMode (extensionSettings w)) eqn:Hm, (isGenerating w),
      (lastActionWasSwipe w) eqn:Hf; cbn; rewrite ?Hm, ?Hf; cbn; rewrite ?Hm; done.
  - unfold onMessageReceived.
    destruct (enabled (extensionSettings w)); [|done]. cbn [negb].
    match goal with |- context [isPlotProgression ?x] =>
      destruct (isPlotProgression x) end;
    match goal with |- context [lastActionWasSwipe ?x] =>
      destruct (lastActionWasSwipe x) end;
    cbn [setIsPlotProgression setLastActionWasSwipe extensionSettings];
    destruct (generationMode (extensionSettings w)); try done;
    destruct (last (chat w)) as [m|]; try done;
    destruct (is_user m); done.
  - unfold onMessageSwiped.
    destruct (enabled (extensionSettings w)); [|done]. cbn [negb].
    destruct (chat w !! i) as [m|]; [|done].
    destruct (is_user m); [done|].
    destruct (isExistingSwipe m), (swipeData m); done.
Qed.

Lemma step_settings w s : extensionSettings (step w s) = extensionSettings w.
Proof. destruct s; [apply dispatch_settings|done]. Qed.

(** No handler changes the settings. *)
Lemma run_settings steps w : extensionSettings (run steps w) = extensionSettings w.
Proof.
  revert w. induction steps as [|s steps IH]; intros w; [done|].
  cbn [run foldl]. fold (run steps (step w s)). by rewrite IH, step_settings.
Qed.

Lemma step_swipeOrStart w s :
  swipeOrStart s = true ->
  lastActionWasSwipe w = true ->
  lastActionWasSwipe (step w s) = true
  /\ committedTrackerData (step w s) = committedTrackerData w.
Proof.
  intros Hs Hf. destruct s as [[|q| |i]|c]; try done; cbn [step dispatch].
  - unfold onGenerationStarted.
    destruct q, (enabled (extensionSettings w)),
      (generationMode (extensionSettings w)) eqn:Hm, (isGenerating w); cbn [negb];
      rewrite ?Hf; cbn [negb]; rewrite ?Hm, ?Hf; done.
  - unfold onMessageSwiped.
    destruct (enabled (extensionSettings w)); [|done]. cbn [negb].
    destruct (chat w !! i) as [m|]; [|done].
    destruct (is_user m); [done|].
    destruct (isExistingSwipe m), (swipeData m); done.
Qed.

Lemma run_swipeOrStart steps w :
  forallb swipeOrStart steps = true ->
  lastActionWasSwipe w = true ->
  lastActionWasSwipe (run steps w) = true
  /\ committedTrackerData (run steps w) = committedTrackerData w.
Proof.
  revert w. induction steps as [|s steps IH]; intros w Hs Hf; [done|].
  cbn [forallb] in Hs. apply andb_true_iff in Hs as [Hs1 Hs2].
  destruct (step_swipeOrStart w s Hs1 Hf) as [Hf' Hc'].
  cbn [run foldl]. fold (run steps (step w s)).
  destruct (IH (step w s) Hs2 Hf') as [H1 H2]. by rewrite H1, H2, Hc'.
Qed.

(** X5: a message that is sent un-does a swipe.  With the extension enabled,
    in the together mode, or in the separate mode while no tracker update is
    running, the generation that starts after [onMessageSent] promotes
    LastGenerated to Committed, whatever the swipe flag was before, unless it
    is an image generation ([data.quietImage]): that one changes nothing. *)
Theorem message_sent_then_generation_promotes quietImage w :
  enabled (extensionSettings w) = true ->
  generationMode (extensionSettings w) = together
  \/ (generationMode (extensionSettings w) = separate /\ isGenerating w = false) ->
  let w' := onGenerationStarted quietImage (onMessageSent w) in
  if quietImage then w' = onMessageSent w else promoted w w'.
Proof.
  intros He Hm w'. subst w'. destruct quietImage; [done|].
  unfold onMessageSent, onGenerationStarted. rewrite He.
  cbn [negb setLastActionWasSwipe extensionSettings lastActionWasSwipe isGenerating].
  rewrite He. cbn [negb].
  destruct Hm as [Hm|[Hm Hg]]; rewrite Hm; [|rewrite Hg]; cbn [negb];
    unfold promoted, promote; cbn; rewrite ?Hm; done.
Qed.

Lemma message_sent_then_generation_promotes_witness :
  let w := setLastActionWasSwipe true
             (Examples.world together (Examples.generated "Health: 80%") false []) in
  promoted w (onGenerationStarted false (onMessageSent w))
  /\ onGenerationStarted true (onMessageSent w) = onMessageSent w.
Proof.
  intros w. split.
  - apply (message_sent_then_generation_promotes false w); [reflexivity|].
    left. reflexivity.
  - apply (message_sent_then_generation_promotes true w); [reflexivity|].
    left. reflexivity.
Defined.

(** X6: while the swipe flag is set, no sequence of swipe events, of
    generation starts and of changes the host makes to the chat promotes
    anything or clears the flag: Committed and the flag stay as they are. *)
Theorem swipes_never_promote steps w :
  forallb swipeOrStart steps = true ->
  lastActionWasSwipe w = true ->
  lastActionWasSwipe (run steps w) = true
  /\ committedTrackerData (run steps w) = committedTrackerData w.
Proof.
  revert w. induction steps as [|s steps IH]; intros w Hs Hf; [done|].
  cbn [forallb] in Hs. apply andb_true_iff in Hs as [Hs1 Hs2].
  destruct (step_swipeOrStart w s Hs1 Hf) as [Hf' Hc'].
  cbn [run foldl]. fold (run steps (step w s)).
  destruct (IH (step w s) Hs2 Hf') as [H1 H2]. split; [done|].
  by rewrite H2, Hc'.
Qed.

Lemma swipes_never_promote_witness :
  let w := setLastActionWasSwipe true
             (Examples.world together (Examples.generated "Health: 80%") false
                [Examples.message false (js "The door creaks open.")]) in
  let steps := [Emit (GENERATION_STARTED false); Emit (MESSAGE_SWIPED 0);
                HostSetsChat []; Emit (GENERATION_STARTED false)] in
  lastActionWasSwipe (run steps w) = true
  /\ committedTrackerData (run steps w) = committedTrackerData w.
Proof.
  intros w steps. apply (swipes_never_promote steps w); reflexivity.
Defined.

Lemma onMessageReceived_keeps_committed w :
  committedIsEmpty (committedTrackerData w) = false ->
  committedTrackerData (onMessageReceived w) = committedTrackerData w.
Proof.
  intros Hc. unfold onMessageReceived.
  destruct (enabled (extensionSettings w)); [|done]. cbn [negb].
  match goal with |- context [isPlotProgression ?x] =>
    destruct (isPlotProgression x) end;
  match goal with |- context [lastActionWasSwipe ?x] =>
    destruct (lastActionWasSwipe x) end;
  cbn [setIsPlotProgression setLastActionWasSwipe committedTrackerData];
  destruct (generationMode (extensionSettings w)); try done;
  destruct (last (chat w)) as [m|]; try done;
  destruct (is_user m); try done;
  cbn [negb receiveTogether withChat withCommitted committedTrackerData];
  by rewrite Hc.
Qed.

(** X7: regenerating a response leaves Committed alone.  With the extension
    enabled and Committed not empty, after a swipe to a new alternate
    response of an assistant message, then any swipes, generation starts and
    changes of the chat, and then the arrival of the generated message,
    Committed is what it was before the swipe, and the swipe flag is clear
    again. *)
Theorem regeneration_after_new_swipe w messageIndex message steps :
  enabled (extensionSettings w) = true ->
  chat w !! messageIndex = Some message ->
  is_user message = false ->
  isExistingSwipe message = false ->
  committedIsEmpty (committedTrackerData w) = false ->
  forallb swipeOrStart steps = true ->
  let w' := onMessageReceived (run steps (onMessageSwiped messageIndex w)) in
  committedTrackerData w' = committedTrackerData w
  /\ lastActionWasSwipe w' = false.
Proof.
  intros He Hm Hu Hx Hc Hs w'. subst w'.
  assert (Hsw : lastActionWasSwipe (onMessageSwiped messageIndex w) = true
                /\ committedTrackerData (onMessageSwiped messageIndex w)
                   = committedTrackerData w
                /\ extensionSettings (onMessageSwiped messageIndex w)
                   = extensionSettings w).
  { unfold onMessageSwiped. rewrite He, Hm, Hu, Hx. cbn [negb].
    by destruct (swipeData message). }
  destruct Hsw as (Hf & Hcm & Hst).
  destruct (run_swipeOrStart steps _ Hs Hf) as [Hf' Hc'].
  split.
  - rewrite onMessageReceived_keeps_committed; [by rewrite Hc', Hcm|].
    by rewrite Hc', Hcm.
  - apply onMessageReceived_flag. by rewrite run_settings, Hst.
Qed.

Lemma regeneration_after_new_swipe_witness :
  let old := {| is_user := false; mes := js "The door creaks open.";
                swipe_id := Some 1; swipes := Some [js "The door creaks open."];
                rpg_companion_swipes := None |} in
  let new := {| is_user := false; mes := js "```\nStats\n---\nHealth: 10%\n```";
                swipe_id := Some 1;
                swipes := Some [js "The door creaks open.";
                                js "```\nStats\n---\nHealth: 10%\n```"];
                rpg_companion_swipes := None |} in
  let w := promote (Examples.world together (Examples.generated "Health: 80%")
                      false [old]) in
  let w' := onMessageReceived
              (run [Emit (GENERATION_STARTED false); HostSetsChat [new]]
                   (onMessageSwiped 0 w)) in
  committedTrackerData w' = committedTrackerData w
  /\ lastActionWasSwipe w' = false.
Proof.
  intros old new w.
  apply (regeneration_after_new_swipe w 0 old
           [Emit (GENERATION_STARTED false); HostSetsChat [new]]); reflexivity.
Defined.

(** X8: [onGenerationStarted] is idempotent: a second generation start
    right after the first changes nothing more. *)
Theorem onGenerationStarted_idempotent quietImage w :
  onGenerationStarted quietImage (onGenerationStarted quietImage w)
  = onGenerationStarted quietImage w.
Proof.
  destruct w as [[en gm au] lg ct f g p c].
  by destruct quietImage, en, gm, g, f.
Qed.

Lemma dispatch_disabled w e :
  enabled (extensionSettings w) = false -> dispatch w e = w.
Proof.
  intros He. destruct e as [|q| |i]; cbn [dispatch].
  - unfold onMessageSent. by rewrite He.
  - unfold onGenerationStarted. rewrite He. by destruct q.
  - unfold onMessageReceived. by rewrite He.
  - unfold onMessageSwiped. by rewrite He.
Qed.

(** X9: while the extension is disabled, no sequence of the four events
    changes anything: not the tracker data, not the flags, not the chat. *)
Theorem disabled_extension_ignores_events w events :
  enabled (extensionSettings w) = false ->
  foldl dispatch w events = w.
Proof.
  intros He. induction events as [|e es IH]; [done|].
  cbn [foldl]. by rewrite dispatch_disabled.
Qed.

Lemma disabled_extension_ignores_events_witness :
  let w := withEnabled false
             (Examples.world together (Examples.generated "Health: 80%") false
                [Examples.message false (js "```\nStats\n---\nHealth: 10%\n```")]) in
  foldl dispatch w [MESSAGE_SENT; GENERATION_STARTED false; MESSAGE_RECEIVED;
                    MESSAGE_SWIPED 0] = w.
Proof.
  intros w.
  apply (disabled_extension_ignores_events w
           [MESSAGE_SENT; GENERATION_STARTED false; MESSAGE_RECEIVED;
            MESSAGE_SWIPED 0]).
  reflexivity.
Defined.

Lemma run_disabled steps : forall w,
  enabled (extensionSettings w) = false ->
  run steps w = withChat (chat (run steps w)) w.
Proof.
  induction steps as [|st steps IH]; intros w He.
  - by destruct w.
  - cbn [run foldl]. fold (run steps (step w st)). destruct st as [e|c].
    + cbn [step]. rewrite dispatch_disabled by done. by apply IH.
    + cbn [step]. rewrite (IH (withChat c w)) by done. by destruct w.
Qed.

(** X10: a plot progression suspends the handlers.  [sendPlotProgression],
    called with the extension enabled, switches it off until the timer of
    its [finally] block; whatever events arrive and whatever the host does
    to the chat in between, when the timer has run the settings, the tracker
    data and the swipe flag are what they were before the call.  Only the
    chat, which the host owns, and the plot progression flag may differ: the
    flag is set when the host's [Generate] succeeded, [onMessageReceived]
    not having cleared it, and clear when it failed. *)
Theorem plot_progression_suspends_handlers during rejected before w :
  enabled (extensionSettings w) = true ->
  let w' := sendPlotProgression during rejected before w in
  w' = withChat (chat w') (setIsPlotProgression (negb rejected) w).
Proof.
  intros He w'. subst w'. unfold sendPlotProgression. rewrite He. cbn [negb].
  set (w1 := setIsPlotProgression true (withEnabled false w)).
  assert (H1 : enabled (extensionSettings w1) = false) by done.
  rewrite (run_disabled during w1 H1).
  set (c1 := chat (run during w1)).
  set (w2 := if rejected then setIsPlotProgression false (withChat c1 w1)
             else withChat c1 w1).
  assert (H2 : enabled (extensionSettings w2) = false) by (by destruct rejected).
  rewrite (run_disabled before w2 H2).
  set (c2 := chat (run before w2)).
  destruct w as [[en gm au] lg ct f g p c]. cbn in He. subst en.
  by destruct rejected.
Qed.

Lemma plot_progression_suspends_handlers_witness :
  let reply := Examples.message false (js "```\nStats\n---\nHealth: 10%\n```") in
  let w := Examples.world together (Examples.generated "Health: 80%") false
             [Examples.message true (js "I go in.")] in
  let during := [Emit (GENERATION_STARTED false);
                 HostSetsChat [Examples.message true (js "I go in."); reply];
                 Emit MESSAGE_RECEIVED] in
  sendPlotProgression during false [Emit (MESSAGE_SWIPED 1)] w
  = withChat [Examples.message true (js "I go in."); reply]
      (setIsPlotProgression true w)
  /\ sendPlotProgression [Emit (GENERATION_STARTED false)] true [] w
     = setIsPlotProgression false w.
Proof.
  intros reply w during. split.
  - rewrite (plot_progression_suspends_handlers during false
               [Emit (MESSAGE_SWIPED 1)] w) by reflexivity.
    reflexivity.
  - rewrite (plot_progression_suspends_handlers [Emit (GENERATION_STARTED false)]
               true [] w) by reflexivity.
    reflexivity.
Defined.

(** X11: what [onMessageReceived] does to the chat, with the extension
    enabled, in the together mode and with an assistant message last: only
    the last message changes; its text becomes the cleaned response; it
    stays an assistant message with the same swipe index; and in its list of
    alternate responses the entry of the current swipe, when there is one,
    becomes the same cleaned text, every other entry and the length of the
    list staying as they were. *)
Theorem received_message_is_cleaned w m :
  enabled (extensionSettings w) = true ->
  generationMode (extensionSettings w) = together ->
  last (chat w) = Some m ->
  is_user m = false ->
  let w' := onMessageReceived w in
  exists m',
    chat w' = take (length (chat w) - 1) (chat w) ++ [m']
    /\ mes m' = cleanMessage (mes m)
    /\ is_user m' = false
    /\ swipe_id m' = swipe_id m
    /\ match swipes m, swipes m' with
       | Some l, Some l' =>
           length l' = length l
           /\ forall j, l' !! j = if decide (j = currentSwipe m /\ j < length l)
                                  then Some (mes m') else l !! j
       | None, None => True
       | _, _ => False
       end.
Proof.
  intros He Hm Hl Hu w'. subst w'.
  rewrite (onMessageReceived_together w m) by done.
  rewrite afterParse_chat.
  apply last_Some in Hl as [l' Hl'].
  cbn [receiveTogether chat withChat]. rewrite Hl'.
  rewrite length_app. cbn [length].
  replace (length l' + 1 - 1) with (length l' + 0) by lia.
  rewrite insert_app_r. cbn [insert list_insert].
  rewrite Nat.add_0_r, take_app_length.
  eexists. split; [reflexivity|]. cbn [mes is_user swipe_id swipes].
  split_and!; try done.
  destruct (swipes m) as [l|]; cbn [fmap option_fmap option_map]; [|done].
  split; [by rewrite length_insert|].
  intros j. case_decide as Hj.
  - destruct Hj as [-> Hj]. by apply list_lookup_insert_eq.
  - destruct (decide (j = currentSwipe m)) as [->|Hne].
    + rewrite !lookup_ge_None_2; [done|lia|rewrite length_insert; lia].
    + by rewrite list_lookup_insert_ne.
Qed.

Lemma received_message_is_cleaned_witness :
  let w := Examples.world together noGeneratedData false
             [Examples.message true (js "I go in.");
              Examples.message false
                (js "The inn is warm.\n```\nStats\n---\nHealth: 80%\n```")] in
  mes <$> last (chat (onMessageReceived w)) = Some (js "The inn is warm.").
Proof.
  intros w.
  destruct (received_message_is_cleaned w
              (Examples.message false
                 (js "The inn is warm.\n```\nStats\n---\nHealth: 80%\n```"))
              eq_refl eq_refl eq_refl eq_refl) as (m' & Hc & Hm & _).
  rewrite Hc, last_snoc. simpl. rewrite Hm. vm_compute. reflexivity.
Defined.

End EventSequences.

(** ** Whole turns *)

Section Turns.

(** X12: a normal turn in the together mode, with the extension enabled.
    The user sends a message, the generation starts, the host puts the
    response at the end of the chat and the response is received.
    Afterwards the swipe flag is clear;
    Committed holds what LastGenerated held before the turn, unless all
    three of those fields were empty, in which case it holds the fields of
    the parse; and each field of LastGenerated holds the parsed value when
    that is not empty and its old value otherwise. *)
Theorem normal_turn w c m :
  enabled (extensionSettings w) = true ->
  generationMode (extensionSettings w) = together ->
  last c = Some m ->
  is_user m = false ->
  let parsed := parseResponse (mes m) in
  let old := lastGeneratedData w in
  let w' := run [Emit MESSAGE_SENT; Emit (GENERATION_STARTED false); HostSetsChat c;
                 Emit MESSAGE_RECEIVED] w in
  lastActionWasSwipe w' = false
  /\ committedTrackerData w'
     = (if truthy (lg_userStats old) || truthy (lg_infoBox old)
           || truthy (lg_characterThoughts old)
        then {| ct_userStats := lg_userStats old; ct_infoBox := lg_infoBox old;
                ct_characterThoughts := lg_characterThoughts old |}
        else {| ct_userStats := userStats parsed; ct_infoBox := infoBox parsed;
                ct_characterThoughts := characterThoughts parsed |})
  /\ lastGeneratedData w'
     = {| lg_userStats := if truthy (userStats parsed)
                          then userStats parsed else lg_userStats old;
          lg_infoBox := if truthy (infoBox parsed)
                        then infoBox parsed else lg_infoBox old;
          lg_characterThoughts := if truthy (characterThoughts parsed)
                                  then characterThoughts parsed
                                  else lg_characterThoughts old;
          lg_html := lg_html old |}.
Proof.
  intros He Hm Hl Hu parsed old w'. subst w'.
  cbn [run foldl step dispatch].
  set (w1 := onGenerationStarted false (onMessageSent w)).
  assert (H1 : w1 = promote (setLastActionWasSwipe false w)).
  { unfold w1, onMessageSent, onGenerationStarted. rewrite He.
    cbn [negb setLastActionWasSwipe extensionSettings lastActionWasSwipe].
    rewrite He, Hm. cbn [negb]. unfold promote. cbn. by rewrite Hm. }
  rewrite H1.
  rewrite (onMessageReceived_together _ m) by done.
  split; [|split].
  - unfold afterParse. cbn. by destruct (isPlotProgression w).
  - rewrite afterParse_committed. cbn [receiveTogether committedTrackerData
      withChat withCommitted withLastGenerated promote setLastActionWasSwipe
      lastGeneratedData].
    unfold committedIsEmpty. cbn [ct_userStats ct_infoBox ct_characterThoughts].
    fold old.
    by destruct (truthy (lg_userStats old)), (truthy (lg_infoBox old)),
      (truthy (lg_characterThoughts old)).
  - rewrite afterParse_lastGenerated. done.
Qed.

Lemma normal_turn_witness :
  let reply := Examples.message false
                 (js "The inn is warm.\n```\nStats\n---\nHealth: 70%\n```") in
  let w := Examples.world together (Examples.generated "Health: 80%") false
             [Examples.message true (js "I go in.")] in
  let w' := run [Emit MESSAGE_SENT; Emit (GENERATION_STARTED false);
                 HostSetsChat [Examples.message true (js "I go in."); reply];
                 Emit MESSAGE_RECEIVED] w in
  ct_userStats (committedTrackerData w') = Some (js "Health: 80%")
  /\ lg_userStats (lastGeneratedData w') = Some (js "Stats\n---\nHealth: 70%").
Proof.
  intros reply w.
  pose proof (normal_turn w [Examples.message true (js "I go in."); reply] reply
                eq_refl eq_refl eq_refl eq_refl) as (_ & Hc & Hl).
  cbv zeta in Hc, Hl |- *. rewrite Hc, Hl. split; reflexivity.
Defined.

(** X13: the response the user replies to is the one that is committed.  In
    the together mode with the extension enabled: after a swipe event on an
    assistant message whose ledger holds an entry for its current swipe,
    any change of the chat, the sending of a message and the start of a
    generation that is not an image generation, Committed holds the three
    fields of that entry (an empty text read as null), whether the swipe was
    to an existing alternate response or to a new one.  When the generation
    is an image generation ([data.quietImage]) Committed stays what it was.
    In both cases the swipe flag is clear. *)
Theorem reply_after_swipe_commits_shown_response
        w messageIndex message data c quietImage :
  enabled (extensionSettings w) = true ->
  generationMode (extensionSettings w) = together ->
  chat w !! messageIndex = Some message ->
  is_user message = false ->
  swipeData message = Some data ->
  let w' := run [Emit (MESSAGE_SWIPED messageIndex); HostSetsChat c;
                 Emit MESSAGE_SENT; Emit (GENERATION_STARTED quietImage)] w in
  committedTrackerData w'
  = (if quietImage then committedTrackerData w
     else {| ct_userStats := orNull (userStats data);
             ct_infoBox := orNull (infoBox data);
             ct_characterThoughts := orNull (characterThoughts data) |})
  /\ lastActionWasSwipe w' = false.
Proof.
  intros He Hm Hc Hu Hd w'. subst w'.
  cbn [run foldl step dispatch].
  unfold onMessageSwiped. rewrite He, Hc, Hu, Hd. cbn [negb].
  unfold onMessageSent, onGenerationStarted.
  destruct quietImage, (isExistingSwipe message); cbn; rewrite He; cbn;
    rewrite ?He, ?Hm; cbn; rewrite ?Hm; done.
Qed.

Lemma reply_after_swipe_commits_shown_response_witness :
  let stored := {| userStats := Some (js "Health: 80%"); infoBox := Some [];
                   characterThoughts := None; actionSuggestions := None |} in
  let m := {| is_user := false; mes := js "The door creaks open.";
              swipe_id := Some 1;
              swipes := Some [js "The door is stuck."; js "The door creaks open."];
              rpg_companion_swipes := Some {[ 1 := stored ]} |} in
  let w := Examples.world together (Examples.generated "Health: 10%") false [m] in
  let turn quietImage :=
    run [Emit (MESSAGE_SWIPED 0);
         HostSetsChat [m; Examples.message true (js "I go in.")];
         Emit MESSAGE_SENT; Emit (GENERATION_STARTED quietImage)] w in
  (committedTrackerData (turn false)
   = {| ct_userStats := Some (js "Health: 80%"); ct_infoBox := None;
        ct_characterThoughts := None |}
   /\ lastActionWasSwipe (turn false) = false)
  /\ (committedTrackerData (turn true) = noCommittedData
      /\ lastActionWasSwipe (turn true) = false).
Proof.
  intros stored m w turn. split.
  - apply (reply_after_swipe_commits_shown_response w 0 m stored
             [m; Examples.message true (js "I go in.")] false); reflexivity.
  - apply (reply_after_swipe_commits_shown_response w 0 m stored
             [m; Examples.message true (js "I go in.")] true); reflexivity.
Defined.

(** X14: [onMessageReceived] parses only in the together mode and only an
    assistant message.  In any other mode, with an empty chat, or with a user
    message last, it leaves LastGenerated, Committed, the chat and the
    settings as they are; all it does, when the extension is enabled, is to
    clear the swipe flag and the plot progression flag. *)
Theorem receive_without_parse w :
  generationMode (extensionSettings w) <> together
  \/ last (chat w) = None
  \/ (exists m, last (chat w) = Some m /\ is_user m = true) ->
  let w' := onMessageReceived w in
  lastGeneratedData w' = lastGeneratedData w
  /\ committedTrackerData w' = committedTrackerData w
  /\ chat w' = chat w
  /\ extensionSettings w' = extensionSettings w
  /\ (enabled (extensionSettings w) = true ->
      lastActionWasSwipe w' = false /\ isPlotProgression w' = false).
Proof.
  intros H w'. subst w'. unfold onMessageReceived.
  destruct (enabled (extensionSettings w)); cbn [negb]; [|by split_and!].
  assert (Hw : match generationMode (extensionSettings w) with
               | together =>
                   match last (chat w) with
                   | Some lastMessage =>
                       if negb (is_user lastMessage)
                       then receiveTogether lastMessage w else w
                   | None => w
                   end
               | _ => w
               end = w).
  { destruct H as [H|[H|(m & H & Hu)]].
    - by destruct (generationMode (extensionSettings w)).
    - rewrite H. by destruct (generationMode (extensionSettings w)).
    - rewrite H, Hu. by destruct (generationMode (extensionSettings w)). }
  rewrite Hw. clear Hw H. destruct w as [st lg ct f g p c].
  destruct f, p; cbn; by split_and!.
Qed.

Lemma receive_without_parse_witness :
  let w := setLastActionWasSwipe true
             (Examples.world together (Examples.generated "Health: 80%") false
                [Examples.message true (js "```\nStats\n---\nHealth: 10%\n```")]) in
  lastGeneratedData (onMessageReceived w) = lastGeneratedData w
  /\ chat (onMessageReceived w) = chat w
  /\ lastActionWasSwipe (onMessageReceived w) = false.
Proof.
  intros w.
  destruct (receive_without_parse w) as (Hl & _ & Hc & _ & Hf).
  - right. right.
    exists (Examples.message true (js "```\nStats\n---\nHealth: 10%\n```")).
    split; reflexivity.
  - cbv zeta in Hl, Hc, Hf. destruct (Hf eq_refl) as [Hf' _]. by split_and!.
Defined.

End Turns.

(** ** Trimming, continued *)

Lemma trimStart_idem s : trimStart (trimStart s) = trimStart s.
Proof.
  induction s as [|x s IH]; [done|]. simpl.
  destruct (isSpace x) eqn:Hx; [done|]. simpl. by rewrite Hx.
Qed.

Lemma trimStart_head s :
  match trimStart s with [] => True | x :: _ => isSpace x = false end.
Proof.
  induction s as [|x s IH]; [done|]. simpl.
  destruct (isSpace x) eqn:Hx; [done|]. done.
Qed.

Lemma trimStart_app a b :
  trimStart (a ++ b)
  = match trimStart a with [] => trimStart b | _ => trimStart a ++ b end.
Proof.
  induction a as [|x a IH]; [done|]. simpl.
  destruct (isSpace x); [done|]. done.
Qed.

Lemma trimEnd_idem s : trimEnd (trimEnd s) = trimEnd s.
Proof.
  unfold trimEnd. by rewrite reverse_involutive, trimStart_idem.
Qed.

Lemma trimEnd_cons x s : isSpace x = false -> trimEnd (x :: s) = x :: trimEnd s.
Proof.
  intros Hx. unfold trimEnd. rewrite reverse_cons, trimStart_app.
  destruct (trimStart (reverse s)) as [|y u] eqn:Hu.
  - simpl. by rewrite Hx.
  - by rewrite reverse_app.
Qed.

(** Trimming twice is trimming once. *)
Lemma trim_idem s : trim (trim s) = trim s.
Proof.
  unfold trim. pose proof (trimStart_head s) as Hh.
  destruct (trimStart s) as [|x u]; [done|].
  rewrite (trimEnd_cons x u Hh). cbn [trimStart]. rewrite Hh.
  by rewrite (trimEnd_cons x _ Hh), trimEnd_idem.
Qed.

(** ** The fields of a parse *)

Section ParsedFields.

Lemma stripBrackets_trimmed text : trim (stripBrackets text) = stripBrackets text.
Proof.
  unfold stripBrackets. destruct text as [|x text]; [done|]. apply trim_idem.
Qed.

Lemma extract_trimmed fl r content : trimmedField (extract fl r content).
Proof.
  unfold extract. intros t. destruct (jsmatch fl r content) as [m|]; [|done].
  intros [= <-]. apply stripBrackets_trimmed.
Qed.

Lemma parseBlock_trimmed result content :
  trim content = content ->
  trimmedSnapshot result -> trimmedSnapshot (parseBlock result content).
Proof.
  intros Hc (H1 & H2 & H3 & H4).
  assert (Hs : trimmedField (Some (stripBrackets content))).
  { intros t [= <-]. apply stripBrackets_trimmed. }
  assert (Hk : trimmedField (Some content)) by (by intros t [= <-]).
  unfold parseBlock. destruct result as [u i c a].
  cbn [userStats infoBox characterThoughts actionSuggestions] in *.
  destruct (hasMultipleSections content).
  - pose proof (extract_trimmed flags_i combinedStats content) as E1.
    pose proof (extract_trimmed flags_i combinedInfoBox content) as E2.
    pose proof (extract_trimmed flags_i combinedCharacters content) as E3.
    destruct (extract flags_i combinedStats content),
      (extract flags_i combinedInfoBox content),
      (extract flags_i combinedCharacters content),
      (truthy u); cbn; destruct (truthy i); cbn; destruct (truthy c); cbn;
      unfold trimmedSnapshot; cbn; split_and!; done.
  - destruct (isStats content && negb (truthy u)); [by split_and!|].
    destruct (isInfoBox content && negb (truthy i)); [by split_and!|].
    destruct (isCharacters content && negb (truthy c)); [by split_and!|].
    destruct (isActionSuggestions content && negb (truthy a)); by split_and!.
Qed.

Lemma foldl_parseBlock_trimmed blocks : forall result,
  Forall (fun b => trim b = b) blocks ->
  trimmedSnapshot result -> trimmedSnapshot (foldl parseBlock result blocks).
Proof.
  induction blocks as [|b blocks IH]; intros result Hb Hr; [done|].
  apply Forall_cons in Hb as [Hb Hbs]. cbn [foldl].
  apply IH; [done|]. by apply parseBlock_trimmed.
Qed.

(** X15: whatever the response, every field [parseResponse] returns is
    either null or a string that neither starts nor ends with white space. *)
Theorem parseResponse_fields_trimmed responseText :
  trimmedSnapshot (parseResponse responseText).
Proof.
  unfold parseResponse. apply foldl_parseBlock_trimmed.
  - unfold codeBlocks. apply Forall_map, Forall_forall. intros m _.
    apply trim_idem.
  - by split_and!.
Qed.

Lemma parseBlock_first_wins result content :
  (truthy (userStats result) = true ->
     userStats (parseBlock result content) = userStats result)
  /\ (truthy (infoBox result) = true ->
        infoBox (parseBlock result content) = infoBox result)
  /\ (truthy (characterThoughts result) = true ->
        characterThoughts (parseBlock result content) = characterThoughts result)
  /\ (truthy (actionSuggestions result) = true ->
        actionSuggestions (parseBlock result content) = actionSuggestions result).
Proof.
  unfold parseBlock. destruct result as [u i c a].
  cbn [userStats infoBox characterThoughts actionSuggestions].
  destruct (hasMultipleSections content).
  - destruct (extract flags_i combinedStats content),
      (extract flags_i combinedInfoBox content),
      (extract flags_i combinedCharacters content),
      (truthy u) eqn:E1; cbn; destruct (truthy i) eqn:E2; cbn;
      destruct (truthy c) eqn:E3; cbn; split_and!; done.
  - destruct (isStats content), (isInfoBox content), (isCharacters content),
      (isActionSuggestions content),
      (truthy u) eqn:E1, (truthy i) eqn:E2, (truthy c) eqn:E3, (truthy a) eqn:E4;
      cbn; split_and!; done.
Qed.

Lemma foldl_parseBlock_first_wins blocks : forall result,
  (truthy (userStats result) = true ->
     userStats (foldl parseBlock result blocks) = userStats result)
  /\ (truthy (infoBox result) = true ->
        infoBox (foldl parseBlock result blocks) = infoBox result)
  /\ (truthy (characterThoughts result) = true ->
        characterThoughts (foldl parseBlock result blocks) = characterThoughts result)
  /\ (truthy (actionSuggestions result) = true ->
        actionSuggestions (foldl parseBlock result blocks) = actionSuggestions result).
Proof.
  induction blocks as [|b blocks IH]; intros result; [done|]. cbn [foldl].
  destruct (IH (parseBlock result b)) as (I1 & I2 & I3 & I4).
  destruct (parseBlock_first_wins result b) as (P1 & P2 & P3 & P4).
  split_and!; intros H.
  - rewrite I1; rewrite P1; done.
  - rewrite I2; rewrite P2; done.
  - rewrite I3; rewrite P3; done.
  - rewrite I4; rewrite P4; done.
Qed.

(** X16: the first fenced regions decide.  Once the regions up to some point
    of the response have given a field a value that is not empty, the
    regions after that point never change it: the field of the whole parse
    is that value. *)
Theorem parseResponse_first_block_wins responseText earlier later :
  codeBlocks responseText = earlier ++ later ->
  let partial := foldl parseBlock allNull earlier in
  let final := parseResponse responseText in
  (truthy (userStats partial) = true -> userStats final = userStats partial)
  /\ (truthy (infoBox partial) = true -> infoBox final = infoBox partial)
  /\ (truthy (characterThoughts partial) = true ->
        characterThoughts final = characterThoughts partial)
  /\ (truthy (actionSuggestions partial) = true ->
        actionSuggestions final = actionSuggestions partial).
Proof.
  intros Hb partial final. subst partial final.
  unfold parseResponse. rewrite Hb, foldl_app.
  apply foldl_parseBlock_first_wins.
Qed.

Lemma parseResponse_first_block_wins_witness :
  userStats
    (parseResponse
       (js "```\nStats\n---\nHealth: 80%\n```\n```\nStats\n---\nHealth: 10%\n```"))
  = Some (js "Stats\n---\nHealth: 80%").
Proof.
  pose proof (parseResponse_first_block_wins
                (js "```\nStats\n---\nHealth: 80%\n```\n```\nStats\n---\nHealth: 10%\n```")
                [js "Stats\n---\nHealth: 80%"] [js "Stats\n---\nHealth: 10%"]
                eq_refl) as H.
  cbv zeta in H. destruct H as [H _]. rewrite H; reflexivity.
Defined.

End ParsedFields.

(** ** Captures *)

Section Captures.

Variable fl : Flags.

Lemma starLoop_caps_ext (body : Cont -> Cont) g k1 k2 :
  (forall d1 d2 s, (forall y, caps y = caps s -> d1 y = d2 y) -> body d1 s = body d2 s) ->
  forall fuel s, (forall y, caps y = caps s -> k1 y = k2 y) ->
    starLoop body g k1 fuel s = starLoop body g k2 fuel s.
Proof.
  intros Hbody. induction fuel as [|fuel IH]; intros s Hk; [done|].
  cbn [starLoop].
  rewrite (Hbody _ (fun y => if pos y =? pos s then None
                             else starLoop body g k2 fuel y) s).
  - by rewrite (Hk s eq_refl).
  - intros y Hy. destruct (pos y =? pos s); [done|].
    apply IH. intros y' Hy'. apply Hk. congruence.
Qed.

(** A plain pattern consults its continuation only with the captures it was
    entered with. *)
Lemma rmatch_caps_ext r : plain r = true -> forall k1 k2 s,
  (forall y, caps y = caps s -> k1 y = k2 y) -> rmatch fl r k1 s = rmatch fl r k2 s.
Proof.
  induction r as [a| |neg items| |r1 IH1 r2 IH2|r1 IH1 r2 IH2|g r1 IH1|r1 IH1
                  |n r1 IH1|r1 IH1| |]; intros Hp k1 k2 s Hk; cbn [rmatch];
    cbn [plain] in Hp; try done.
  - unfold step1. destruct (rest s) as [|x tl] eqn:Hr; [done|].
    destruct (chrMatches _ a x); [|done]. by apply Hk.
  - unfold step1. destruct (rest s) as [|x tl] eqn:Hr; [done|].
    destruct (negb _); [|done]. by apply Hk.
  - unfold step1. destruct (rest s) as [|x tl] eqn:Hr; [done|].
    destruct (classMatches _ _ _ x); [|done]. by apply Hk.
  - by apply Hk.
  - apply andb_true_iff in Hp as [Hp1 Hp2].
    apply IH1; [done|]. intros y Hy. apply IH2; [done|]. intros y' Hy'.
    apply Hk. congruence.
  - apply andb_true_iff in Hp as [Hp1 Hp2].
    by rewrite (IH1 Hp1 k1 k2 s), (IH2 Hp2 k1 k2 s).
  - apply starLoop_caps_ext; [|done]. intros d1 d2 s'. by apply IH1.
  - rewrite (IH1 Hp _ (fun y => if pos y =? pos s then None else k2 y) s).
    + by rewrite (Hk s eq_refl).
    + intros y Hy. destruct (pos y =? pos s); [done|]. by apply Hk.
  - destruct (atLineStart _ s); [|done]. by apply Hk.
  - destruct (atLineEnd _ s); [|done]. by apply Hk.
Qed.

Variable c : char.
Hypothesis c_caseless : caseless c.

(** Soundness of the matcher for a plain pattern, with the captures. *)
Lemma rmatch_plain_sound r k s z :
  plain r = true ->
  rmatch fl r k s = Some z ->
  exists y w, k y = Some z /\ Consumed fl c r s y w /\ caps y = caps s.
Proof.
  intros Hp H.
  rewrite (rmatch_caps_ext r Hp k
             (fun y => if decide (caps y = caps s) then k y else None) s) in H.
  - apply (rmatch_sound fl c c_caseless) in H as (y & w & Hk & Hc).
    destruct (decide (caps y = caps s)); [|done]. by exists y, w.
  - intros y Hy. by rewrite decide_True.
Qed.

(** The text of a capturing group that stands between two plain parts. *)
Lemma tryAt_group pre n g post p pv rs m :
  plain pre = true -> plain g = true -> plain post = true ->
  tryAt fl (Seq pre (Seq (Grp n g) post)) p pv rs = Some m ->
  exists w0 w w2 : jsstring,
    group n m = w /\ index m = p
    /\ mend m = p + length w0 + length w + length w2
    /\ minLen pre <= length w0 /\ minLen post <= length w2
    /\ Forall (fun x => allows fl g x = true) w.
Proof.
  intros Hpre Hg Hpost. unfold tryAt.
  destruct (rmatch fl _ Some _) as [z|] eqn:H; [|done]. intros [= <-].
  cbn [rmatch] in H.
  apply rmatch_plain_sound in H as (y0 & w0 & H & [Hr0 Hp0 Hm0 _ _] & Hc0); [|done].
  apply rmatch_plain_sound in H as (y1 & w1 & H & [Hr1 Hp1 _ _ Ha1] & Hc1); [|done].
  apply rmatch_plain_sound in H as (y2 & w2 & H & [Hr2 Hp2 Hm2 _ _] & Hc2); [|done].
  injection H as ->. cbn in *.
  exists w0, w1, w2. split_and!; [|done|lia|done|done|done].
  unfold group. cbn [groups]. rewrite Hc2. cbn [list_find].
  rewrite decide_True by done. cbn.
  rewrite Hp1, Hr1. replace (pos y0 + length w1 - pos y0) with (length w1) by lia.
  by rewrite take_app_length.
Qed.

End Captures.

(** ** Scans as a whole *)

Section Scan.

Variable fl : Flags.
Variable r : Regex.

Lemma searchFrom_tryAt rs : forall p pv m,
  searchFrom fl r p pv rs = Some m ->
  exists p' pv' rs', tryAt fl r p' pv' rs' = Some m.
Proof.
  induction rs as [|x rs IH]; intros p pv m H; cbn [searchFrom] in H.
  - destruct (tryAt fl r p pv []) eqn:Ht; [|done]. injection H as ->. eauto.
  - destruct (tryAt fl r p pv (x :: rs)) eqn:Ht.
    + injection H as ->. eauto.
    + by eapply IH.
Qed.

Lemma exec_tryAt text lastIndex m :
  exec fl r text lastIndex = Some m ->
  exists p' pv' rs', tryAt fl r p' pv' rs' = Some m.
Proof.
  unfold exec. destruct (lastIndex <=? length text); [|done].
  apply searchFrom_tryAt.
Qed.

Lemma matchAllLoop_Forall (Q : Match -> Prop) text :
  (forall lastIndex m, exec fl r text lastIndex = Some m -> Q m) ->
  forall fuel lastIndex, Forall Q (matchAllLoop fl r text fuel lastIndex).
Proof.
  intros HQ. induction fuel as [|fuel IH]; intros lastIndex; cbn [matchAllLoop];
    [done|].
  destruct (exec fl r text lastIndex) as [m|] eqn:He; [|done].
  constructor; [by eapply HQ|apply IH].
Qed.

Lemma splice_shrinks f text ms : forall from,
  ordered (length text) from ms ->
  Forall (fun m => length (f m) <= mend m - index m) ms ->
  length (splice f text from ms) <= length text - from.
Proof.
  induction ms as [|m ms IH]; intros from Ho Hf; cbn [splice].
  - rewrite length_drop. lia.
  - destruct Ho as (? & ? & ? & Ho). apply Forall_cons in Hf as [Hm Hf].
    specialize (IH _ Ho Hf).
    rewrite !length_app, length_take, length_drop. lia.
Qed.

(** Replacing every match by something no longer than it never lengthens
    the text. *)
Lemma replaceAll_shrinks f text :
  (forall lastIndex m, exec fl r text lastIndex = Some m ->
     length (f m) <= mend m - index m) ->
  length (replaceAll fl r f text) <= length text.
Proof.
  intros Hf. unfold replaceAll, matchAll.
  pose proof (splice_shrinks f text _ 0
                (matchAllLoop_ordered fl r 0%N caseless_zero text (S (length text)) 0)
                (matchAllLoop_Forall _ text Hf _ _)). lia.
Qed.

Lemma replaceAll_constant_shrinks v text :
  length v <= minLen r ->
  length (replaceAll fl r (fun _ => v) text) <= length text.
Proof.
  intros Hv. apply replaceAll_shrinks. intros lastIndex m He.
  apply (exec_bounds _ _ _ caseless_zero) in He. lia.
Qed.

(** The matches of one scan lie side by side in the text. *)
Lemma matches_fit (g : Match -> nat) len ms : forall from,
  ordered len from ms ->
  Forall (fun m => g m <= mend m - index m) ms ->
  sum_list (map g ms) <= len - from.
Proof.
  induction ms as [|m ms IH]; intros from Ho Hg; simpl; [lia|].
  destruct Ho as (? & ? & ? & Ho). apply Forall_cons in Hg as [Hm Hg].
  specialize (IH _ Ho Hg). lia.
Qed.

End Scan.

(** ** Lengths *)

Section Lengths.

Lemma unwrapLoop_length fuel : forall t, length (unwrapLoop fuel t) <= length t.
Proof.
  induction fuel as [|fuel IH]; intros t; cbn [unwrapLoop]; [done|].
  destruct (isWrapped t); [|done].
  etrans; [apply IH|]. etrans; [apply trim_length|].
  etrans; [apply substring_length|]. lia.
Qed.

(** X17: [stripBrackets] never returns more characters than it was given:
    every one of its replacements puts a text in the place of a match that is
    at least as long. *)
Theorem stripBrackets_never_longer text :
  length (stripBrackets text) <= length text.
Proof.
  unfold stripBrackets. destruct text as [|x text]; [done|].
  etrans; [apply trim_length|].
  etrans; [apply replaceAll_delete_length|].
  etrans; [apply replaceAll_constant_shrinks; vm_compute; lia|].
  etrans; [apply replaceAll_delete_length|].
  etrans; [apply replaceAll_constant_shrinks; vm_compute; lia|].
  etrans; [apply replaceAll_constant_shrinks; vm_compute; lia|].
  etrans; [apply replaceAll_shrinks|].
  { intros lastIndex m (p & pv & rs & Ht)%exec_tryAt.
    apply (tryAt_group flags_m 0%N caseless_zero Bol 1 (plus true letterOrSpace)
             (rseq [lit ":"; wsStar; lit ","])) in Ht
      as (w0 & w & w2 & -> & -> & -> & _ & Hm & _); [|done..].
    rewrite length_app. change (minLen _) with 2 in Hm.
    change (length (js ":")) with 1. lia. }
  etrans; [apply replaceAll_delete_length|].
  etrans; [apply replaceAll_shrinks|].
  { intros lastIndex m He.
    destruct (isPlaceholder (group 1 m)); [cbn; lia|].
    apply (exec_sound _ _ _ caseless_zero) in He
      as (pre & w & post & _ & _ & _ & -> & -> & _). lia. }
  etrans; [apply unwrapLoop_length|]. apply trim_length.
Qed.

(** X18: the text [onMessageReceived] stores back into the message is never
    longer than the response, and it neither starts nor ends with white
    space. *)
Theorem cleanMessage_never_longer responseText :
  length (cleanMessage responseText) <= length responseText
  /\ trim (cleanMessage responseText) = cleanMessage responseText.
Proof.
  split; [|apply trim_idem].
  unfold cleanMessage, collapseNewlines.
  etrans; [apply trim_length|].
  etrans; [apply replaceAll_constant_shrinks; vm_compute; lia|].
  do 6 (etrans; [apply replaceAll_delete_length|]). done.
Qed.

End Lengths.

(** ** extractCodeBlocks *)

Section CodeBlocks.

Lemma fencedBlock_group lastIndex text m :
  exec flags_none fencedBlock text lastIndex = Some m ->
  length (group 1 m) + 6 <= mend m - index m
  /\ Forall (fun x => x <> backtick) (group 1 m).
Proof.
  intros (p & pv & rs & Ht)%exec_tryAt.
  apply (tryAt_group flags_none 0%N caseless_zero (lit "```") 1
           (plus true notBacktick) (lit "```")) in Ht
    as (w0 & w & w2 & -> & -> & -> & Hm0 & Hm & Ha); [|done..].
  split.
  - change (minLen (lit "```")) with 3 in *. lia.
  - eapply Forall_impl; [exact Ha|]. intros x Hx ->. by vm_compute in Hx.
Qed.

(** X19: no block that [extractCodeBlocks] returns contains a backtick or
    has white space at its ends, and the blocks, each with the six backticks
    of its fence, fit side by side in the text. *)
Theorem extractCodeBlocks_blocks text :
  Forall (fun b => (backtick ∉ b) /\ trim b = b) (extractCodeBlocks text)
  /\ sum_list (map (fun b => length b + 6) (extractCodeBlocks text)) <= length text.
Proof.
  unfold extractCodeBlocks, matchAll. split.
  - apply Forall_map.
    eapply Forall_impl;
      [apply (matchAllLoop_Forall flags_none fencedBlock
                (fun m => Forall (fun x => x <> backtick) (group 1 m)) text)|].
    + intros lastIndex m He. by apply fencedBlock_group in He as [_ He].
    + intros m Hm. split; [|apply trim_idem].
      intros Hin. pose proof (trim_Forall _ _ Hm) as Hf.
      rewrite Forall_forall in Hf. by apply (Hf _ Hin).
  - rewrite map_map.
    pose proof (matches_fit (fun m => length (trim (group 1 m)) + 6) (length text)
                  _ 0
                  (matchAllLoop_ordered flags_none fencedBlock 0%N caseless_zero
                     text (S (length text)) 0)) as H.
    etrans; [apply H|lia].
    apply (matchAllLoop_Forall flags_none fencedBlock
             (fun m => length (trim (group 1 m)) + 6 <= mend m - index m) text).
    intros lastIndex m He. apply fencedBlock_group in He as [He _].
    pose proof (trim_length (group 1 m)). lia.
Qed.

End CodeBlocks.

(** ** The debug log *)

Section DebugLogBound.

Context {Entry : Type}.

Lemma addDebugLog_drop (entry : Entry) logs :
  length logs <= 100 ->
  addDebugLog entry logs = drop (length (logs ++ [entry]) - 100) (logs ++ [entry]).
Proof.
  intros H. unfold addDebugLog. rewrite length_app. cbn [length].
  destruct (100 <? length logs + 1) eqn:E.
  - apply Nat.ltb_lt in E. by replace (length logs + 1 - 100) with 1 by lia.
  - apply Nat.ltb_ge in E. by replace (length logs + 1 - 100) with 0 by lia.
Qed.

(** X20: a debug log of at most 100 entries, after any number of calls of
    [addDebugLog], holds exactly the last 100 of the old entries followed by
    the added ones (all of them when there are fewer), in order. *)
Theorem debug_log_keeps_last_hundred (entries logs : list Entry) :
  length logs <= 100 ->
  foldl (fun l e => addDebugLog e l) logs entries
  = drop (length (logs ++ entries) - 100) (logs ++ entries).
Proof.
  revert logs. induction entries as [|e entries IH]; intros logs H.
  - cbn [foldl]. rewrite app_nil_r.
    by replace (length logs - 100) with 0 by lia.
  - cbn [foldl]. rewrite (addDebugLog_drop e logs H).
    rewrite (cons_middle e logs entries), app_assoc.
    set (l := logs ++ [e]).
    assert (Hl : length l = length logs + 1) by (subst l; by rewrite length_app).
    set (k := length l - 100).
    rewrite IH by (rewrite length_drop; lia).
    rewrite <- (drop_app_le l entries k) by lia.
    rewrite drop_drop. f_equal.
    rewrite length_drop, !length_app. lia.
Qed.

End DebugLogBound.

Lemma debug_log_keeps_last_hundred_witness :
  foldl (fun l e => addDebugLog e l) [] (seq 0 103) = seq 3 100.
Proof.
  rewrite (debug_log_keeps_last_hundred (seq 0 103) []) by (simpl; lia).
  reflexivity.
Defined.

(** ** cleanTrackerData *)

Section Lines.

Lemma splitOn_without sep s : sep ∉ s -> splitOn sep s = [s].
Proof.
  induction s as [|x s IH]; [done|].
  intros [Hx Hs]%not_elem_of_cons. simpl.
  destruct (N.eqb_spec x sep) as [->|_]; [done|]. by rewrite IH.
Qed.

Lemma splitOn_app sep l s :
  sep ∉ l -> splitOn sep (l ++ sep :: s) = l :: splitOn sep s.
Proof.
  induction l as [|x l IH]; intros Hl; simpl.
  - by rewrite N.eqb_refl.
  - apply not_elem_of_cons in Hl as [Hx Hl].
    destruct (N.eqb_spec x sep) as [->|_]; [done|]. by rewrite IH.
Qed.

Lemma splitOn_Forall sep s : Forall (fun l => sep ∉ l) (splitOn sep s).
Proof.
  induction s as [|x s IH]; simpl.
  - constructor; [apply not_elem_of_nil|done].
  - destruct (N.eqb_spec x sep) as [->|Hne].
    + constructor; [apply not_elem_of_nil|done].
    + destruct (splitOn sep s) as [|l ls]; [|apply Forall_cons in IH as [Hl Hls]].
      * constructor; [|done]. apply not_elem_of_cons. split; [done|].
        apply not_elem_of_nil.
      * constructor; [|done]. by apply not_elem_of_cons.
Qed.

(** Splitting what was joined gives the lines back. *)
Lemma splitOn_join sep ls :
  ls <> [] -> Forall (fun l => sep ∉ l) ls -> splitOn sep (join [sep] ls) = ls.
Proof.
  induction ls as [|l ls IH]; [done|]. intros _ [Hl Hls]%Forall_cons.
  destruct ls as [|l2 ls].
  - by apply splitOn_without.
  - change (join [sep] (l :: l2 :: ls)) with (l ++ sep :: join [sep] (l2 :: ls)).
    rewrite splitOn_app by done. f_equal. by apply IH.
Qed.

Lemma filter_keeps {A} (P : A -> Prop) `{forall x, Decision (P x)} (l : list A) :
  Forall P l -> filter P l = l.
Proof.
  induction 1 as [|x l Hx Hl IH]; [done|].
  rewrite filter_cons, decide_True by done. by rewrite IH.
Qed.

(** X21: [cleanTrackerData] is idempotent, and its result is empty or
    consists of kept lines only: none is blank, none starts (after white
    space) with a code fence, none is a [---] divider. *)
Theorem cleanTrackerData_idempotent data :
  cleanTrackerData (cleanTrackerData data) = cleanTrackerData data
  /\ (cleanTrackerData data = []
      \/ Forall (fun line => keepLine line = true)
                (splitOn nl (cleanTrackerData data))).
Proof.
  unfold cleanTrackerData at 2 3 4 5.
  destruct data as [|x data]; [by split; [|left]|].
  set (kept := filter (fun line => keepLine line = true) (splitOn nl (x :: data))).
  assert (Hk : Forall (fun line => keepLine line = true) kept)
    by (apply Forall_forall; intros l Hl; by apply list_elem_of_filter in Hl as [? _]).
  assert (Hn : Forall (fun l => nl ∉ l) kept).
  { apply Forall_forall. intros l Hl. apply list_elem_of_filter in Hl as [_ Hl].
    pose proof (splitOn_Forall nl (x :: data)) as Hs.
    rewrite Forall_forall in Hs. by apply Hs. }
  destruct (decide (kept = [])) as [He|He]; [rewrite He; by split; [|left]|].
  assert (Hsplit : splitOn nl (join (js "\n") kept) = kept)
    by (by apply splitOn_join).
  split; [|right; by rewrite Hsplit].
  unfold cleanTrackerData. destruct (join (js "\n") kept) eqn:Hj; [done|].
  rewrite Hsplit. by rewrite filter_keeps.
Qed.

End Lines.

(** ** escapeHtml *)

Section CharacterClass.

Variable fl : Flags.
Variable negated : bool.
Variable items : list ClassItem.
Variable h : jsstring -> jsstring.

Lemma tryAt_class i pv rs :
  tryAt fl (Cls negated items) i pv rs
  = match rs with
    | x :: _ =>
        if classMatches (ignoreCase fl) negated items x
        then Some {| index := i; matched := [x]; groups := []; mend := S i |}
        else None
    | [] => None
    end.
Proof.
  unfold tryAt. cbn [rmatch]. unfold step1. cbn [rest].
  destruct rs as [|x rs]; [done|].
  destruct (classMatches _ _ _ x); [|done]. cbn.
  by replace (S i - i) with 1 by lia.
Qed.

Lemma splice_skip text from x rs ms :
  drop from text = x :: rs ->
  ordered (length text) (S from) ms ->
  splice (fun m => h (matched m)) text from ms
  = x :: splice (fun m => h (matched m)) text (S from) ms.
Proof.
  intros Hd Ho. assert (Hd' : drop (S from) text = rs).
  { replace (S from) with (from + 1) by lia. by rewrite <- drop_drop, Hd. }
  destruct ms as [|m ms]; cbn [splice].
  - by rewrite Hd, Hd'.
  - destruct Ho as (Hi & _). rewrite Hd, Hd'.
    replace (index m - from) with (S (index m - S from)) by lia. done.
Qed.

Lemma replace_class text : forall rs from fuel,
  drop from text = rs -> from <= length text -> length rs < fuel ->
  splice (fun m => h (matched m)) text from
         (matchAllLoop fl (Cls negated items) text fuel from)
  = perChar (classMatches (ignoreCase fl) negated items) h rs.
Proof.
  induction rs as [|x rs IH]; intros from fuel Hd Hle Hfuel;
    (destruct fuel as [|fuel]; [simpl in Hfuel; lia|]); cbn [matchAllLoop];
    unfold exec; rewrite (proj2 (Nat.leb_le _ _) Hle), Hd.
  - cbn [searchFrom]. rewrite tryAt_class. cbn [splice]. by rewrite Hd.
  - assert (Hd' : drop (S from) text = rs).
    { replace (S from) with (from + 1) by lia. by rewrite <- drop_drop, Hd. }
    assert (Hlen : S from <= length text).
    { apply (f_equal length) in Hd. rewrite length_drop in Hd. simpl in Hd. lia. }
    cbn [searchFrom]. rewrite tryAt_class.
    unfold perChar. cbn [map concat].
    fold (perChar (classMatches (ignoreCase fl) negated items) h rs).
    destruct (classMatches _ _ _ x) eqn:Hp.
    + cbn [splice index mend]. rewrite Nat.sub_diag, take_0. cbn [app].
      replace (S from =? from) with false by (symmetry; apply Nat.eqb_neq; lia).
      cbn [matched]. f_equal.
      apply IH; [done|done|simpl in Hfuel; lia].
    + rewrite <- (IH (S from) (S fuel) Hd' Hlen) by (simpl in Hfuel; lia).
      assert (Hx : exec fl (Cls negated items) text (S from)
                   = searchFrom fl (Cls negated items) (S from) (Some x) rs).
      { unfold exec. rewrite (proj2 (Nat.leb_le _ _) Hlen), Hd'.
        f_equal. rewrite (take_S_r _ _ x).
        - by rewrite last_snoc.
        - rewrite <- (Nat.add_0_r from), <- lookup_drop, Hd. done. }
      cbn [matchAllLoop]. rewrite Hx.
      set (ms := match searchFrom fl (Cls negated items) (S from) (Some x) rs with
                 | Some m => _ | None => _ end).
      apply (splice_skip text from x rs ms Hd).
      pose proof (matchAllLoop_ordered fl (Cls negated items) 0%N caseless_zero
                    text (S fuel) (S from)) as Ho. cbn [matchAllLoop] in Ho. by rewrite Hx in Ho.
Qed.

(** Replacing the matches of a character class works character by
    character. *)
Lemma replaceAll_class text :
  replaceAll fl (Cls negated items) (fun m => h (matched m)) text
  = perChar (classMatches (ignoreCase fl) negated items) h text.
Proof.
  unfold replaceAll, matchAll. apply replace_class; [done|lia|lia].
Qed.

End CharacterClass.

Section EscapeHtml.

Lemma escapeHtml_chars text :
  escapeHtml text = perChar (classMatches false false htmlSpecialItems) entityOf text.
Proof.
  unfold escapeHtml, htmlSpecial.
  apply (replaceAll_class flags_none false _ entityOf).
Qed.

Lemma escaped_char_markup x :
  Forall (fun y => isMarkup y = false)
         (if classMatches false false htmlSpecialItems x then entityOf [x] else [x]).
Proof.
  destruct (classMatches _ _ _ x) eqn:Hx.
  - unfold classMatches, htmlSpecialItems in Hx.
    cbn [xorb existsb itemMatches] in Hx.
    rewrite !orb_true_iff in Hx.
    destruct Hx as [Hx|[Hx|[Hx|[Hx|[Hx|Hx]]]]]; try done;
      apply N.eqb_eq in Hx; subst x; vm_compute; repeat constructor.
  - constructor; [|done]. unfold classMatches, htmlSpecialItems in Hx.
    cbn [xorb existsb itemMatches] in Hx. unfold isMarkup.
    rewrite !orb_false_iff in *. destruct Hx as (H1 & H2 & H3 & H4 & H5 & _).
    rewrite !(N.eqb_sym x). done.
Qed.

(** X22: the result of [escapeHtml] contains no angle bracket, no double
    quote and no apostrophe, whatever the text. *)
Theorem escapeHtml_output_has_no_markup text :
  Forall (fun y => isMarkup y = false) (escapeHtml text).
Proof.
  rewrite escapeHtml_chars. apply Forall_concat, Forall_map, Forall_forall.
  intros x _. apply escaped_char_markup.
Qed.

(** X23: [escapeHtml] works piece by piece: escaping a concatenation gives
    the concatenation of the escaped parts. *)
Theorem escapeHtml_distributes a b :
  escapeHtml (a ++ b) = escapeHtml a ++ escapeHtml b.
Proof. rewrite !escapeHtml_chars. unfold perChar. by rewrite map_app, concat_app. Qed.

End EscapeHtml.

(** ** The stored suggestions *)

Section StoredSuggestions.

Lemma loopsResult_wellFormed text : wellFormedSuggestions (loopsResult text).
Proof.
  unfold loopsResult.
  destruct (firstThree numberedPattern 2 text) eqn:E.
  - apply firstThree_bounds.
  - rewrite <- E. apply firstThree_bounds.
Qed.

(** X24: [processActionSuggestions] keeps the stored suggestions well formed
    (at most three, each of 1 to 199 characters) and never replaces a list
    that is not empty by an empty one; with fuel above the length of the raw
    text the model of its parser does not run out. *)
Theorem stored_suggestions_stay_well_formed fuel enable raw stored :
  (forall t, raw = Some t -> length t < fuel) ->
  wellFormedSuggestions stored ->
  exists actions,
    processActionSuggestions fuel enable raw stored = Some actions
    /\ wellFormedSuggestions actions
    /\ (stored <> [] -> actions <> []).
Proof.
  intros Hfuel Hs. unfold processActionSuggestions.
  destruct enable; cbn [negb]; [|by exists stored].
  destruct raw as [[|x t]|]; [by exists stored| |by exists stored].
  rewrite parseActionSuggestions_refines by (by apply Hfuel).
  destruct (loopsResult (x :: t)) as [|a l] eqn:E; cbn [length Nat.ltb Nat.leb].
  - by exists stored.
  - exists (a :: l). split; [done|]. split; [|done].
    rewrite <- E. apply loopsResult_wellFormed.
Qed.

Lemma stored_suggestions_stay_well_formed_witness :
  exists actions,
    processActionSuggestions 100 true (Some (js "1. Open the door\n2. Run")) []
    = Some actions
    /\ wellFormedSuggestions actions
    /\ (@nil jsstring <> [] -> actions <> []).
Proof.
  apply (stored_suggestions_stay_well_formed 100 true
           (Some (js "1. Open the door\n2. Run")) []).
  - intros t H. injection H as <-. vm_compute. lia.
  - split; [simpl; lia|constructor].
Defined.

End StoredSuggestions.

(** ** The tracker example read back *)

Section GreedyRun.

Variable fl : Flags.

Lemma lastOr_cons pv x w : lastOr pv (x :: w) = lastOr (Some x) w.
Proof.
  unfold lastOr. destruct w as [|y w]; [done|].
  rewrite last_cons. by destruct (last (y :: w)).
Qed.

Lemma rmatch_cls neg items k s :
  rmatch fl (Cls neg items) k s = step1 (classMatches (ignoreCase fl) neg items) k s.
Proof. done. Qed.

(** A greedy star over a character class takes a whole run of accepted
    characters when the pattern that follows succeeds after it. *)
Lemma starLoop_greedy_run neg items k tl z :
  match tl with
  | [] => True
  | x :: _ => classMatches (ignoreCase fl) neg items x = false
  end ->
  forall w s fuel,
    length w < fuel ->
    Forall (fun x => classMatches (ignoreCase fl) neg items x = true) w ->
    rest s = w ++ tl ->
    k {| pos := pos s + length w; prev := lastOr (prev s) w; rest := tl;
         caps := caps s |} = Some z ->
    starLoop (rmatch fl (Cls neg items)) true k fuel s = Some z.
Proof.
  intros Htl. induction w as [|x w IH]; intros s fuel Hfuel Hw Hr Hk;
    (destruct fuel as [|fuel]; [simpl in Hfuel; lia|]); cbn [starLoop];
    rewrite rmatch_cls.
  - unfold step1. rewrite Hr. cbn [app].
    assert (Hs : {| pos := pos s + length (@nil char); prev := lastOr (prev s) [];
                    rest := tl; caps := caps s |} = s).
    { destruct s as [p pv rs cs]. simpl in *. subst. by rewrite Nat.add_0_r. }
    rewrite Hs in Hk. destruct tl as [|y tl]; [by rewrite Hk|].
    by rewrite Htl, Hk.
  - apply Forall_cons in Hw as [Hx Hw].
    unfold step1 at 1. rewrite Hr. cbn [app]. rewrite Hx.
    cbn [advance pos].
    replace (S (pos s) =? pos s) with false by (symmetry; apply Nat.eqb_neq; lia).
    rewrite (IH (advance x (w ++ tl) s) fuel); [done|simpl in Hfuel; lia|done|done|].
    cbn [advance pos prev caps]. rewrite <- Hk. f_equal. f_equal.
    + simpl. lia.
    + by rewrite lastOr_cons.
Qed.

End GreedyRun.

Section FencedBlocks.

Lemma notBacktick_accepts x :
  classMatches false true [CChar backtick] x = negb (x =? backtick)%N.
Proof.
  unfold classMatches. cbn [existsb itemMatches xorb]. rewrite orb_false_r.
  by rewrite N.eqb_sym.
Qed.

(** At a fence whose content is not empty and has no backtick, the pattern
    of [extractCodeBlocks] matches the fence and captures the content. *)
Lemma tryAt_fence p pv body tl :
  body <> [] -> backtick ∉ body ->
  tryAt flags_none fencedBlock p pv (js "```" ++ body ++ js "```" ++ tl)
  = Some {| index := p; matched := js "```" ++ body ++ js "```";
            groups := [(1, body)]; mend := p + 6 + length body |}.
Proof.
  intros Hne Hb. destruct body as [|x w]; [done|].
  apply not_elem_of_cons in Hb as [Hx Hw].
  assert (Hacc : forall y, y <> backtick ->
            classMatches (ignoreCase flags_none) true [CChar backtick] y = true).
  { intros y Hy. change (ignoreCase flags_none) with false.
    rewrite notBacktick_accepts. by apply negb_true_iff, N.eqb_neq. }
  unfold tryAt.
  change fencedBlock
    with (Seq (lit "```") (Seq (Grp 1 (Seq notBacktick (Star true notBacktick)))
                               (lit "```"))).
  set (s0 := {| pos := p; prev := pv;
                rest := js "```" ++ (x :: w) ++ js "```" ++ tl; caps := [] |}).
  assert (H : rmatch flags_none
                (Seq (lit "```") (Seq (Grp 1 (Seq notBacktick (Star true notBacktick)))
                                      (lit "```"))) Some s0
              = Some {| pos := p + 6 + length (x :: w); prev := Some backtick;
                        rest := tl; caps := [(1, x :: w)] |}).
  { change (rmatch flags_none (Seq ?a ?b) Some s0)
      with (rmatch flags_none a (rmatch flags_none b Some) s0).
    rewrite (rmatch_fence _ s0 ((x :: w) ++ js "```" ++ tl)) by done.
    cbn [pos caps s0].
    set (s3 := {| pos := p + 3; prev := Some backtick;
                  rest := (x :: w) ++ js "```" ++ tl; caps := [] |}).
    change (rmatch flags_none (Seq (Grp 1 (Seq notBacktick (Star true notBacktick)))
                                   (lit "```")) Some s3)
      with (step1 (classMatches (ignoreCase flags_none) true [CChar backtick])
              (fun s4 => starLoop (rmatch flags_none notBacktick) true
                 (fun y => rmatch flags_none (lit "```") Some
                             (setCap 1 (take (pos y - pos s3) (rest s3)) y))
                 (S (length (rest s4))) s4) s3).
    unfold step1. cbn [rest s3 app]. rewrite (Hacc x) by (by intros ->).
    eapply starLoop_greedy_run with (w := w) (tl := js "```" ++ tl).
    - done.
    - cbn [advance rest]. rewrite length_app. lia.
    - apply Forall_forall. intros y Hy. apply Hacc. by intros ->.
    - done.
    - cbn [advance pos prev caps rest].
      rewrite (rmatch_fence _ _ tl) by done. cbn [setCap pos caps s3].
      replace (S (p + 3) + length w + 3) with (p + 6 + length (x :: w))
        by (cbn [length]; lia).
      replace (S (p + 3) + length w - (p + 3)) with (length (x :: w))
        by (cbn [length]; lia).
      change (x :: w ++ js "```" ++ tl) with ((x :: w) ++ js "```" ++ tl).
      by rewrite take_app_length. }
  rewrite H. cbn [pos caps s0 rest]. do 2 f_equal.
  replace (p + 6 + length (x :: w) - p) with (length (js "```" ++ (x :: w) ++ js "```"))
    by (rewrite !length_app; cbn [length]; change (length (js "```")) with 3; lia).
  by rewrite !app_assoc, take_app_length.
Qed.

Lemma tryAt_not_fence p pv rs :
  match rs with [] => True | x :: _ => x <> backtick end ->
  tryAt flags_none fencedBlock p pv rs = None.
Proof.
  intros Hx. unfold tryAt.
  change fencedBlock
    with (Seq (Seq (Chr backtick) (Seq (Chr backtick) (Chr backtick)))
              (Seq (Grp 1 (Seq notBacktick (Star true notBacktick))) (lit "```"))).
  cbn [rmatch]. unfold step1 at 1. cbn [rest].
  destruct rs as [|x rs]; [done|].
  change (ignoreCase flags_none) with false. unfold chrMatches.
  by replace (backtick =? x)%N with false by (symmetry; by apply N.eqb_neq).
Qed.

(** The scan of [extractCodeBlocks] passes over text without backticks. *)
Lemma exec_skip sep : forall A B,
  backtick ∉ sep ->
  exec flags_none fencedBlock (A ++ sep ++ B) (length A)
  = exec flags_none fencedBlock (A ++ sep ++ B) (length A + length sep).
Proof.
  induction sep as [|x sep IH]; intros A B Hs.
  - by rewrite Nat.add_0_r.
  - apply not_elem_of_cons in Hs as [Hx Hs].
    specialize (IH (A ++ [x]) B Hs).
    rewrite <- !app_assoc, length_app in IH. cbn [app length] in IH.
    cbn [app length].
    replace (length A + S (length sep)) with (length A + 1 + length sep) by lia.
    rewrite <- IH. unfold exec.
    rewrite !(proj2 (Nat.leb_le _ _)) by (rewrite !length_app; cbn [length]; lia).
    rewrite drop_app_length. cbn [searchFrom].
    rewrite tryAt_not_fence by (by intros ->).
    assert (Htxt : A ++ x :: sep ++ B = (A ++ [x]) ++ sep ++ B)
      by (by rewrite <- app_assoc).
    assert (Hlen : length A + 1 = length (A ++ [x])) by (by rewrite length_app).
    rewrite Hlen, Htxt, take_app_length, drop_app_length, last_snoc.
    by rewrite <- Hlen, Nat.add_1_r.
Qed.

Lemma matchAllLoop_skip A sep B fuel :
  backtick ∉ sep ->
  matchAllLoop flags_none fencedBlock (A ++ sep ++ B) fuel (length A)
  = matchAllLoop flags_none fencedBlock (A ++ sep ++ B) fuel (length A + length sep).
Proof.
  intros Hs. destruct fuel as [|fuel]; [done|]. cbn [matchAllLoop].
  by rewrite exec_skip.
Qed.

Lemma fence_length item : length (fence item) = 6 + length item.1 + length item.2.
Proof.
  unfold fence. rewrite !length_app. change (length (js "```")) with 3. lia.
Qed.

(** The scan of [extractCodeBlocks] over a sequence of fences finds the
    contents of the fences, in order. *)
Lemma scan_fences items : forall P fuel,
  Forall (fun item => item.1 <> [] /\ (backtick ∉ item.1) /\ (backtick ∉ item.2))
         items ->
  length (concat (map fence items)) < fuel ->
  map (group 1)
      (matchAllLoop flags_none fencedBlock (P ++ concat (map fence items)) fuel
         (length P))
  = map fst items.
Proof.
  induction items as [|[body sep] items IH]; intros P fuel Hi Hfuel;
    (destruct fuel as [|fuel]; [simpl in Hfuel; lia|]); cbn [matchAllLoop].
  - cbn [map concat]. unfold exec.
    rewrite (proj2 (Nat.leb_le _ _)) by (rewrite length_app; lia).
    rewrite drop_app_length. cbn [searchFrom]. by rewrite tryAt_not_fence.
  - apply Forall_cons in Hi as [(Hne & Hb & Hs) Hi]. cbn [fst snd] in *.
    cbn [map concat] in *. rewrite length_app, fence_length in Hfuel.
    cbn [fst snd] in Hfuel.
    set (tail := concat (map fence items)) in *.
    set (text := P ++ fence (body, sep) ++ tail).
    assert (He : exec flags_none fencedBlock text (length P)
                 = Some {| index := length P;
                           matched := js "```" ++ body ++ js "```";
                           groups := [(1, body)];
                           mend := length P + 6 + length body |}).
    { unfold exec, text.
      rewrite (proj2 (Nat.leb_le _ _)) by (rewrite length_app; lia).
      rewrite drop_app_length. unfold fence. cbn [fst snd].
      rewrite <- !app_assoc.
      assert (Hsf : forall pv rs m, tryAt flags_none fencedBlock (length P) pv rs = Some m ->
                      searchFrom flags_none fencedBlock (length P) pv rs = Some m).
      { intros pv rs m Ht. destruct rs; cbn [searchFrom]; by rewrite Ht. }
      apply Hsf. by apply tryAt_fence. }
    rewrite He. cbn [map mend index].
    replace (length P + 6 + length body =? length P) with false
      by (symmetry; apply Nat.eqb_neq; lia).
    f_equal.
    set (A := P ++ js "```" ++ body ++ js "```").
    assert (Ht : text = A ++ sep ++ tail).
    { unfold text, A, fence. cbn [fst snd]. by rewrite <- !app_assoc. }
    assert (Hl : length A = length P + 6 + length body).
    { unfold A. rewrite !length_app. change (length (js "```")) with 3. lia. }
    rewrite <- Hl, Ht, matchAllLoop_skip by done.
    rewrite app_assoc, <- length_app. apply IH; [done|lia].
Qed.

End FencedBlocks.

Section TrimmingEnds.

Lemma trimStart_spaces tail : Forall (fun x => isSpace x = true) tail -> trimStart tail = [].
Proof. induction 1 as [|x tail Hx _ IH]; [done|]. simpl. by rewrite Hx. Qed.

Lemma trimEnd_spaces tail : Forall (fun x => isSpace x = true) tail -> trimEnd tail = [].
Proof.
  intros H. unfold trimEnd. by rewrite trimStart_spaces by (by apply Forall_reverse).
Qed.

Lemma trimEnd_app_nonspace X c tail :
  isSpace c = false ->
  Forall (fun x => isSpace x = true) tail ->
  trimEnd (X ++ c :: tail) = X ++ [c].
Proof.
  intros Hc Ht. unfold trimEnd.
  rewrite reverse_app, reverse_cons, <- app_assoc, trimStart_app.
  rewrite trimStart_spaces by (by apply Forall_reverse).
  cbn [app trimStart]. rewrite Hc.
  by rewrite reverse_cons, reverse_involutive.
Qed.

Lemma trim_padded f : trim (nl :: f ++ [nl]) = trim f.
Proof.
  unfold trim. cbn [trimStart]. change (isSpace nl) with true. cbn match.
  rewrite trimStart_app. pose proof (trimStart_head f) as Hh.
  destruct (trimStart f) as [|x u] eqn:Hf; [done|].
  unfold trimEnd. rewrite reverse_app. cbn [reverse app].
  change (reverse [nl]) with [nl]. cbn [app trimStart].
  by change (isSpace nl) with true.
Qed.

End TrimmingEnds.

Section TrackerExample.

Lemma segment_fence item : segment item = fence (padded item).
Proof.
  unfold segment, fence, padded. cbn [fst snd].
  change (js "```\n") with (js "```" ++ [nl]).
  change (js "\n```") with ([nl] ++ js "```").
  rewrite <- !app_assoc. cbn [app]. by rewrite <- !app_assoc.
Qed.

Lemma segments_fences fields :
  concat (map segment fields) = concat (map fence (map padded fields)).
Proof.
  induction fields as [|item fields IH]; [done|].
  cbn [map concat]. by rewrite IH, segment_fence.
Qed.

Lemma space_not_backtick sep :
  Forall (fun x => isSpace x = true) sep -> backtick ∉ sep.
Proof.
  intros H Hin. rewrite Forall_forall in H. by apply H in Hin.
Qed.

(** The blocks of a trimmed sequence of fenced fields are the fields. *)
Lemma example_blocks fields :
  Forall (fun item => (backtick ∉ item.1) /\ Forall (fun x => isSpace x = true) item.2)
         fields ->
  extractCodeBlocks (trim (concat (map segment fields)))
  = map (fun item => trim item.1) fields.
Proof.
  intros Hf. destruct fields as [|item0 fields0] using rev_ind; [reflexivity|].
  clear IHfields0. destruct item0 as [f sep].
  set (fields := fields0 ++ [(f, [])]).
  assert (Htrim : trim (concat (map segment (fields0 ++ [(f, sep)])))
                  = concat (map segment fields)).
  { apply Forall_app in Hf as [_ [[_ Hsep] _]%Forall_cons]. cbn [snd] in Hsep.
    assert (Hhead : exists E, concat (map segment (fields0 ++ [(f, sep)]))
                              = backtick :: E).
    { destruct fields0 as [|[f0 sep0] fields0]; cbn [app map concat];
        unfold segment at 1; cbn [fst snd];
        change (js "```\n") with (backtick :: js "``\n"); cbn [app]; eauto. }
    destruct Hhead as [E HE]. unfold trim. rewrite HE. cbn [trimStart].
    change (isSpace backtick) with false. cbn match. rewrite <- HE.
    unfold fields. rewrite !map_app, !concat_app. cbn [map concat].
    rewrite !app_nil_r. unfold segment at 2 4. cbn [fst snd].
    change (js "\n```") with (js "\n``" ++ [backtick]).
    rewrite app_nil_r.
    rewrite <- !app_assoc. cbn [app].
    rewrite !app_assoc. apply trimEnd_app_nonspace; done. }
  rewrite Htrim, segments_fences. unfold extractCodeBlocks, matchAll.
  rewrite <- (map_map (group 1) trim).
  rewrite (scan_fences (map padded fields) []).
  - unfold fields. rewrite !map_map, !map_app. cbn [map fst snd padded].
    f_equal; [|by rewrite trim_padded].
    apply map_ext. intros item. apply trim_padded.
  - apply Forall_map, Forall_forall. intros item Hin. cbn [padded fst snd].
    assert (Hitem : (backtick ∉ item.1) /\ Forall (fun x => isSpace x = true) item.2).
    { unfold fields in Hin. apply elem_of_app in Hin as [Hin|Hin].
      - rewrite Forall_forall in Hf. apply Hf. apply elem_of_app. by left.
      - apply list_elem_of_singleton in Hin as ->. cbn [fst snd].
        apply Forall_app in Hf as [_ [[Hb _] _]%Forall_cons]. by split. }
    destruct Hitem as [Hb Hs]. split_and!; [done| |by apply space_not_backtick].
    intros Hin'. apply elem_of_cons in Hin' as [?|Hin']; [done|].
    apply elem_of_app in Hin' as [?|Hin']; [done|].
    by apply list_elem_of_singleton in Hin'.
  - cbn [app]. lia.
Qed.

(** X25: the example [generateTrackerExample] builds is read back by
    [extractCodeBlocks].  When no field that is shown contains a backtick,
    the blocks extracted from the example are the shown fields that are not
    empty, trimmed, in the order user stats, info box, character thoughts. *)
Theorem tracker_example_round_trip showUserStats showInfoBox showCharacterThoughts
        committed :
  Forall (fun field => backtick ∉ field)
         (shownFields showUserStats showInfoBox showCharacterThoughts committed) ->
  extractCodeBlocks
    (generateTrackerExample showUserStats showInfoBox showCharacterThoughts committed)
  = map trim (shownFields showUserStats showInfoBox showCharacterThoughts committed).
Proof.
  intros Hb.
  set (fields :=
         map (fun f => (f, js "\n\n"))
             (shown showUserStats (ct_userStats committed)
              ++ shown showInfoBox (ct_infoBox committed))
         ++ map (fun f => (f, []))
                (shown showCharacterThoughts (ct_characterThoughts committed))).
  assert (He : generateTrackerExample showUserStats showInfoBox showCharacterThoughts
                 committed
               = trim (concat (map segment fields))).
  { unfold generateTrackerExample, fields, shown, segment.
    destruct (showUserStats && truthy (ct_userStats committed)),
      (showInfoBox && truthy (ct_infoBox committed)),
      (showCharacterThoughts && truthy (ct_characterThoughts committed));
      cbn [app map concat fst snd]; rewrite ?app_nil_r, <- ?app_assoc; try done. }
  assert (Hm : map (fun item : jsstring * jsstring => trim item.1) fields
               = map trim (shownFields showUserStats showInfoBox
                             showCharacterThoughts committed)).
  { unfold fields, shownFields. rewrite !map_app, !map_map. cbn [fst].
    by rewrite <- app_assoc. }
  rewrite He, <- Hm. apply example_blocks.
  unfold fields. unfold shownFields in Hb.
  rewrite app_assoc in Hb. apply Forall_app in Hb as [Hb12 Hb3].
  apply Forall_app. split; apply Forall_map; (eapply Forall_impl; [eassumption|]);
    intros f Hf; cbn [fst snd]; split; try done.
  by repeat constructor.
Qed.

Lemma tracker_example_round_trip_witness :
  extractCodeBlocks
    (generateTrackerExample true true true
       {| ct_userStats := Some (js "Health: 80%"); ct_infoBox := Some [];
          ct_characterThoughts := Some (js "Bob | Friend") |})
  = [js "Health: 80%"; js "Bob | Friend"].
Proof.
  rewrite (tracker_example_round_trip true true true
             {| ct_userStats := Some (js "Health: 80%"); ct_infoBox := Some [];
                ct_characterThoughts := Some (js "Bob | Friend") |}).
  - reflexivity.
  - constructor; [by apply absent_check|].
    constructor; [by apply absent_check|constructor].
Defined.

End TrackerExample.

(** * The fixed points of [stripBrackets] *)

(** ** Replacements that keep the length of the text *)

Section Exact.

Variable fl : Flags.
Variable r : Regex.

Lemma exec_stretch text lastIndex m :
  exec fl r text lastIndex = Some m -> stretch r text m.
Proof.
  intros (pre & w & post & -> & _ & Hi & He & Hm & Hl & _)%(exec_sound _ _ _ caseless_zero).
  split; [lia|]. rewrite Hm, He, Hi, drop_app_length.
  replace (length pre + length w - length pre) with (length w) by lia.
  by rewrite take_app_length.
Qed.

Lemma matchAll_stretch text : Forall (stretch r text) (matchAll fl r text).
Proof. apply matchAllLoop_Forall. apply exec_stretch. Qed.

Lemma splice_length f text ms : forall from,
  ordered (length text) from ms ->
  Forall (fun m => length (f m) <= mend m - index m) ms ->
  length (splice f text from ms)
  + sum_list (map (fun m => mend m - index m - length (f m)) ms)
  = length text - from.
Proof.
  induction ms as [|m ms IH]; intros from Ho Hf; cbn [splice map sum_list].
  - rewrite length_drop. lia.
  - destruct Ho as (? & ? & ? & Ho). apply Forall_cons in Hf as [Hm Hf].
    specialize (IH _ Ho Hf).
    rewrite !length_app, length_take, length_drop.
    change (id ?a) with a. lia.
Qed.

Lemma sum_list_zero (g : Match -> nat) ms :
  sum_list (map g ms) = 0 -> Forall (fun m => g m = 0) ms.
Proof.
  induction ms as [|m ms IH]; cbn [map sum_list]; [done|].
  change (id ?a) with a. intros H. constructor; [lia|apply IH; lia].
Qed.

(** A replacement that keeps the length of the text has put, in the place
    of every match, a text of the length of the match. *)
Lemma replaceAll_same_length f text :
  (forall lastIndex m, exec fl r text lastIndex = Some m ->
     length (f m) <= mend m - index m) ->
  length text <= length (replaceAll fl r f text) ->
  Forall (fun m => length (f m) = mend m - index m) (matchAll fl r text).
Proof.
  intros Hf Hlen. unfold replaceAll in Hlen.
  pose proof (matchAllLoop_Forall fl r _ text Hf (S (length text)) 0) as Hall.
  fold (matchAll fl r text) in Hall.
  pose proof (splice_length f text _ 0
                (matchAllLoop_ordered fl r 0%N caseless_zero text (S (length text)) 0)
                Hall) as Hs.
  fold (matchAll fl r text) in Hs.
  assert (Hz : sum_list (map (fun m => mend m - index m - length (f m))
                             (matchAll fl r text)) = 0) by lia.
  apply sum_list_zero in Hz.
  rewrite Forall_forall in Hall, Hz. apply Forall_forall. intros m Hm.
  specialize (Hall m Hm). specialize (Hz m Hm). cbv beta in *. lia.
Qed.

(** A replacement that shortens every match and keeps the length of the
    text has found no match. *)
Lemma replaceAll_same_length_none f text :
  (forall lastIndex m, exec fl r text lastIndex = Some m ->
     length (f m) < mend m - index m) ->
  length text <= length (replaceAll fl r f text) ->
  matchAll fl r text = [].
Proof.
  intros Hf Hlen.
  assert (Heq : Forall (fun m => length (f m) = mend m - index m) (matchAll fl r text)).
  { apply replaceAll_same_length; [|done]. intros i m H%Hf. lia. }
  pose proof (matchAllLoop_Forall fl r _ text Hf (S (length text)) 0) as Hlt.
  fold (matchAll fl r text) in Hlt.
  destruct (matchAll fl r text) as [|m ms]; [done|].
  apply Forall_cons in Heq as [He _]. apply Forall_cons in Hlt as [Hl _]. lia.
Qed.

Lemma matchAll_test text : matchAll fl r text = [] <-> test fl r text = false.
Proof.
  unfold matchAll, test, jsmatch. cbn [matchAllLoop].
  destruct (exec fl r text 0) as [m|].
  - split; [done|]. intros H%bool_decide_eq_false. destruct H. by eexists.
  - split; [|done]. intros _. apply bool_decide_eq_false. by intros [? ?].
Qed.

(** Putting every match back in its place gives the text again. *)
Lemma splice_matched f text ms : forall from,
  ordered (length text) from ms ->
  Forall (fun m => f m = take (mend m - index m) (drop (index m) text)) ms ->
  splice f text from ms = drop from text.
Proof.
  induction ms as [|m ms IH]; intros from Ho Hf; cbn [splice]; [done|].
  destruct Ho as (? & ? & ? & Ho). apply Forall_cons in Hf as [Hm Hf].
  rewrite (IH _ Ho Hf), Hm.
  transitivity (take (index m - from) (drop from text)
                ++ drop (index m - from) (drop from text)); [|apply take_drop].
  f_equal. rewrite drop_drop. replace (from + (index m - from)) with (index m) by lia.
  transitivity (take (mend m - index m) (drop (index m) text)
                ++ drop (mend m - index m) (drop (index m) text)); [|apply take_drop].
  f_equal. rewrite drop_drop. f_equal. lia.
Qed.

Lemma replaceAll_matched f text :
  Forall (fun m => f m = matched m) (matchAll fl r text) ->
  replaceAll fl r f text = text.
Proof.
  intros Hf. unfold replaceAll.
  rewrite (splice_matched f text _ 0); [done| |].
  - apply (matchAllLoop_ordered fl r 0%N caseless_zero).
  - pose proof (matchAll_stretch text) as Hs.
    rewrite Forall_forall in Hf, Hs. apply Forall_forall. intros m Hm.
    rewrite (Hf m Hm). by apply Hs.
Qed.

End Exact.

Lemma trimStart_same_length s : length s <= length (trimStart s) -> trimStart s = s.
Proof.
  destruct s as [|x s]; [done|]. cbn [trimStart].
  destruct (isSpace x); [|done]. intros H.
  pose proof (trimStart_length s). simpl in H. lia.
Qed.

Lemma trimEnd_same_length s : length s <= length (trimEnd s) -> trimEnd s = s.
Proof.
  unfold trimEnd. rewrite length_reverse, <- (length_reverse s).
  intros H%trimStart_same_length. by rewrite H, reverse_involutive.
Qed.

Lemma trim_same_length s : length s <= length (trim s) -> trim s = s.
Proof.
  unfold trim. intros H.
  pose proof (trimEnd_length (trimStart s)). pose proof (trimStart_length s).
  rewrite (trimStart_same_length s) by lia.
  rewrite (trimStart_same_length s) in H by lia.
  by apply trimEnd_same_length.
Qed.

Lemma unwrapLoop_same_length t :
  length t <= length (unwrapLoop (length t) t) -> isWrapped t = false.
Proof.
  destruct (isWrapped t) eqn:Hw; [|done]. intros H. exfalso.
  destruct t as [|x t]; [done|]. cbn [length unwrapLoop] in H. rewrite Hw in H.
  pose proof (unwrapLoop_length (length t)
                (trim (substring 1 (length (x :: t) - 1) (x :: t)))) as H1.
  pose proof (trim_length (substring 1 (length (x :: t) - 1) (x :: t))) as H2.
  pose proof (substring_length 1 (length (x :: t) - 1) (x :: t)) as H3.
  cbn [length] in *. lia.
Qed.

Lemma step_none fl r f text :
  (forall lastIndex m, exec fl r text lastIndex = Some m ->
     length (f m) < mend m - index m) ->
  length text <= length (replaceAll fl r f text) ->
  test fl r text = false /\ replaceAll fl r f text = text.
Proof.
  intros Hf Hlen. pose proof (replaceAll_same_length_none fl r f text Hf Hlen) as Hn.
  split; [by apply matchAll_test|]. unfold replaceAll. by rewrite Hn.
Qed.

Lemma step_shrinks fl r f text :
  (forall lastIndex m, exec fl r text lastIndex = Some m ->
     length (f m) < mend m - index m) ->
  length (replaceAll fl r f text) <= length text.
Proof. intros Hf. apply replaceAll_shrinks. intros i m H%Hf. lia. Qed.

Lemma constant_shorter fl r (v : jsstring) text :
  length v < minLen r ->
  forall lastIndex m, exec fl r text lastIndex = Some m ->
    length ((fun _ : Match => v) m) < mend m - index m.
Proof. intros Hv i m [H _]%exec_stretch. cbv beta. lia. Qed.

Lemma labelComma_shorter text lastIndex m :
  exec flags_m labelComma text lastIndex = Some m ->
  length (group 1 m ++ js ":") < mend m - index m.
Proof.
  intros (p & pv & rs & Ht)%exec_tryAt.
  apply (tryAt_group flags_m 0%N caseless_zero Bol 1 (plus true letterOrSpace)
           (rseq [lit ":"; wsStar; lit ","])) in Ht
    as (w0 & w & w2 & -> & -> & -> & _ & Hm & _); [|done..].
  rewrite length_app. change (minLen _) with 2 in Hm.
  change (length (js ":")) with 1. lia.
Qed.

Lemma placeholder_fits text lastIndex m :
  exec flags_none placeholderPattern text lastIndex = Some m ->
  length (if isPlaceholder (group 1 m) then [] else matched m) <= mend m - index m.
Proof.
  intros He. destruct (isPlaceholder (group 1 m)); [cbn; lia|].
  apply (exec_sound _ _ _ caseless_zero) in He
    as (pre & w & post & _ & _ & _ & -> & -> & _). lia.
Qed.

Lemma placeholders_kept text :
  length text
  <= length (replaceAll flags_none placeholderPattern
               (fun m => if isPlaceholder (group 1 m) then [] else matched m) text) ->
  keepsBrackets text = true
  /\ replaceAll flags_none placeholderPattern
       (fun m => if isPlaceholder (group 1 m) then [] else matched m) text = text.
Proof.
  intros Hlen.
  pose proof (replaceAll_same_length _ _ _ text (placeholder_fits text) Hlen) as Heq.
  pose proof (matchAll_stretch flags_none placeholderPattern text) as Hs.
  assert (Hk : Forall (fun m => isPlaceholder (group 1 m) = false)
                      (matchAll flags_none placeholderPattern text)).
  { rewrite Forall_forall in Heq, Hs. apply Forall_forall. intros m Hm.
    specialize (Heq m Hm). destruct (Hs m Hm) as [Hl _]. cbv beta in Heq.
    destruct (isPlaceholder (group 1 m)); [|done].
    change (minLen placeholderPattern) with 3 in Hl. cbn [length] in Heq. lia. }
  split.
  - unfold keepsBrackets. apply forallb_forall. intros m Hm%list_elem_of_In.
    rewrite Forall_forall in Hk. by rewrite (Hk m Hm).
  - apply replaceAll_matched. eapply Forall_impl; [exact Hk|].
    intros m Hm. cbv beta. by rewrite Hm.
Qed.

Lemma keepsBrackets_unchanged text :
  keepsBrackets text = true ->
  replaceAll flags_none placeholderPattern
    (fun m => if isPlaceholder (group 1 m) then [] else matched m) text = text.
Proof.
  unfold keepsBrackets. intros H. apply replaceAll_matched.
  apply Forall_forall. intros m Hm%list_elem_of_In.
  rewrite forallb_forall in H. apply H in Hm. by destruct (isPlaceholder (group 1 m)).
Qed.

Lemma test_false_unchanged fl r f text :
  test fl r text = false -> replaceAll fl r f text = text.
Proof. intros H%matchAll_test. unfold replaceAll. by rewrite H. Qed.

Lemma settled_unfold t :
  settled t = true <->
  isWrapped t = false /\ keepsBrackets t = true
  /\ test flags_m emptyLabel t = false /\ test flags_m labelComma t = false
  /\ test flags_none colonPipe t = false /\ test flags_none doublePipe t = false
  /\ test flags_m trailingPipe t = false.
Proof.
  unfold settled. rewrite !andb_true_iff, !negb_true_iff. tauto.
Qed.

(** A text that [stripBrackets] returns as it was is trimmed and settled. *)
Lemma fixed_point_settled t : stripBrackets t = t -> trim t = t /\ settled t = true.
Proof.
  destruct t as [|x u]; [by vm_compute|].
  unfold stripBrackets. cbv zeta. generalize (x :: u). clear x u. intros t.
  remember (trim t) as t0 eqn:E0.
  remember (unwrapLoop (length t0) t0) as t1 eqn:E1.
  remember (replaceAll flags_none placeholderPattern
              (fun m => if isPlaceholder (group 1 m) then [] else matched m) t1)
    as t2 eqn:E2.
  remember (replaceAll flags_m emptyLabel (fun _ => []) t2) as t3 eqn:E3.
  remember (replaceAll flags_m labelComma (fun m => group 1 m ++ js ":") t3)
    as t4 eqn:E4.
  remember (replaceAll flags_none colonPipe (fun _ => js ":") t4) as t5 eqn:E5.
  remember (replaceAll flags_none doublePipe (fun _ => js "|") t5) as t6 eqn:E6.
  remember (replaceAll flags_m trailingPipe (fun _ => []) t6) as t7 eqn:E7.
  remember (replaceAll flags_none multipleSpaces (fun _ => js " ") t7) as t8 eqn:E8.
  remember (replaceAll flags_m emptyLine (fun _ => []) t8) as t9 eqn:E9.
  intros H.
  assert (L0 : length t0 <= length t) by (subst t0; apply trim_length).
  assert (L1 : length t1 <= length t0) by (subst t1; apply unwrapLoop_length).
  assert (L2 : length t2 <= length t1)
    by (subst t2; apply replaceAll_shrinks, placeholder_fits).
  assert (L3 : length t3 <= length t2) by (subst t3; apply replaceAll_delete_length).
  assert (L4 : length t4 <= length t3)
    by (subst t4; apply step_shrinks, labelComma_shorter).
  assert (L5 : length t5 <= length t4)
    by (subst t5; apply replaceAll_constant_shrinks; vm_compute; lia).
  assert (L6 : length t6 <= length t5)
    by (subst t6; apply replaceAll_constant_shrinks; vm_compute; lia).
  assert (L7 : length t7 <= length t6) by (subst t7; apply replaceAll_delete_length).
  assert (L8 : length t8 <= length t7)
    by (subst t8; apply replaceAll_constant_shrinks; vm_compute; lia).
  assert (L9 : length t9 <= length t8) by (subst t9; apply replaceAll_delete_length).
  assert (L10 : length t <= length t9).
  { rewrite <- H at 1. apply trim_length. }
  assert (T : trim t = t) by (apply trim_same_length; subst t0; lia).
  rewrite T in E0. subst t0. split; [done|].
  assert (W : isWrapped t = false) by (apply unwrapLoop_same_length; subst t1; lia).
  rewrite unwrapLoop_unwrapped in E1 by done. subst t1.
  destruct (placeholders_kept t) as [K K']; [rewrite <- E2; lia|].
  rewrite K' in E2. subst t2.
  destruct (step_none flags_m emptyLabel (fun _ => []) t) as [S3 S3'];
    [apply constant_shorter; vm_compute; lia|rewrite <- E3; lia|].
  rewrite S3' in E3. subst t3.
  destruct (step_none flags_m labelComma (fun m => group 1 m ++ js ":") t)
    as [S4 S4']; [apply labelComma_shorter|rewrite <- E4; lia|].
  rewrite S4' in E4. subst t4.
  destruct (step_none flags_none colonPipe (fun _ => js ":") t) as [S5 S5'];
    [apply constant_shorter; vm_compute; lia|rewrite <- E5; lia|].
  rewrite S5' in E5. subst t5.
  destruct (step_none flags_none doublePipe (fun _ => js "|") t) as [S6 S6'];
    [apply constant_shorter; vm_compute; lia|rewrite <- E6; lia|].
  rewrite S6' in E6. subst t6.
  destruct (step_none flags_m trailingPipe (fun _ => []) t) as [S7 S7'];
    [apply constant_shorter; vm_compute; lia|rewrite <- E7; lia|].
  by apply settled_unfold.
Qed.

(** A trimmed, single-spaced and settled text is returned as it was. *)
Lemma settled_fixed_point t :
  trim t = t -> singleSpaced t = true -> settled t = true -> stripBrackets t = t.
Proof.
  intros T S (W & K & H3 & H4 & H5 & H6 & H7)%settled_unfold.
  destruct t as [|x u]; [done|].
  unfold stripBrackets. cbv zeta. rewrite T.
  rewrite unwrapLoop_unwrapped by done.
  rewrite keepsBrackets_unchanged by done.
  rewrite (test_false_unchanged flags_m emptyLabel) by done.
  rewrite (test_false_unchanged flags_m labelComma) by done.
  rewrite (test_false_unchanged flags_none colonPipe) by done.
  rewrite (test_false_unchanged flags_none doublePipe) by done.
  rewrite (test_false_unchanged flags_m trailingPipe) by done.
  rewrite multipleSpaces_none by done.
  rewrite emptyLine_none by done.
  done.
Qed.

(** ** The white space [stripBrackets] leaves *)

Section Positions.

Variable fl : Flags.
Variable r : Regex.

(** Where a search ends: at a position of its text at which the pattern
    matches. *)
Lemma searchFrom_at rs : forall p pv m,
  searchFrom fl r p pv rs = Some m ->
  exists a b, rs = a ++ b /\ tryAt fl r (p + length a) (lastOr pv a) b = Some m.
Proof.
  induction rs as [|x rs IH]; intros p pv m H; cbn [searchFrom] in H.
  - destruct (tryAt fl r p pv []) eqn:Ht; [|done]. injection H as ->.
    exists [], []. by rewrite Nat.add_0_r.
  - destruct (tryAt fl r p pv (x :: rs)) eqn:Ht.
    + injection H as ->. exists [], (x :: rs). by rewrite Nat.add_0_r.
    + apply IH in H as (a & b & -> & H). exists (x :: a), b.
      rewrite lastOr_cons. cbn [length]. by rewrite Nat.add_succ_r.
Qed.

Lemma exec_at text lastIndex m :
  exec fl r text lastIndex = Some m ->
  exists a b, text = a ++ b /\ lastIndex <= length a
              /\ tryAt fl r (length a) (last a) b = Some m.
Proof.
  unfold exec. destruct (lastIndex <=? length text) eqn:Hle; [|done].
  apply Nat.leb_le in Hle. intros (a & b & Hd & H)%searchFrom_at.
  exists (take lastIndex text ++ a), b.
  rewrite <- app_assoc, <- Hd, take_drop, length_app, length_take, last_app.
  replace (lastIndex `min` length text) with lastIndex by lia.
  split_and!; [done|lia|done].
Qed.

(** A position at which the pattern does not match is passed over. *)
Lemma matchAllLoop_pass text from x rs fuel :
  drop from text = x :: rs ->
  tryAt fl r from (last (take from text)) (x :: rs) = None ->
  matchAllLoop fl r text (S fuel) from = matchAllLoop fl r text (S fuel) (S from).
Proof.
  intros Hd Ht.
  assert (Hd' : drop (S from) text = rs).
  { replace (S from) with (from + 1) by lia. by rewrite <- drop_drop, Hd. }
  assert (Hlen : S from <= length text).
  { apply (f_equal length) in Hd. rewrite length_drop in Hd. simpl in Hd. lia. }
  cbn [matchAllLoop]. unfold exec.
  rewrite !(proj2 (Nat.leb_le _ _)) by lia.
  rewrite Hd, Hd'. cbn [searchFrom]. rewrite Ht.
  rewrite (take_S_r _ _ x).
  - by rewrite last_snoc.
  - rewrite <- (Nat.add_0_r from), <- lookup_drop, Hd. done.
Qed.

End Positions.

Section Squeeze.

Lemma spaces_split (s : jsstring) :
  exists w tl, s = w ++ tl /\ Forall (fun c => isSpace c = true) w
               /\ match tl with [] => True | z :: _ => isSpace z = false end.
Proof.
  induction s as [|x s (w & tl & -> & Hw & Htl)].
  - by exists [], [].
  - destruct (isSpace x) eqn:Hx.
    + exists (x :: w), tl. split_and!; [done|by constructor|done].
    + exists [], (x :: w ++ tl). done.
Qed.

Lemma tryAt_spaces p pv x y w tl :
  isSpace x = true -> isSpace y = true ->
  Forall (fun c => isSpace c = true) w ->
  match tl with [] => True | z :: _ => isSpace z = false end ->
  tryAt flags_none multipleSpaces p pv (x :: y :: w ++ tl)
  = Some {| index := p; matched := x :: y :: w; groups := [];
            mend := p + 2 + length w |}.
Proof.
  intros Hx Hy Hw Htl. unfold tryAt.
  set (s0 := {| pos := p; prev := pv; rest := x :: y :: w ++ tl; caps := [] |}).
  assert (H : rmatch flags_none multipleSpaces Some s0
              = Some {| pos := p + 2 + length w; prev := lastOr (Some y) w;
                        rest := tl; caps := [] |}).
  { change (rmatch flags_none multipleSpaces Some s0)
      with (step1 (classMatches (ignoreCase flags_none) false [CSpace])
              (step1 (classMatches (ignoreCase flags_none) false [CSpace])
                 (fun s2 => starLoop (rmatch flags_none ws) true Some
                              (S (length (rest s2))) s2)) s0).
    unfold step1 at 1. cbn [rest s0]. rewrite ws_matches, Hx.
    unfold step1 at 1. cbn [advance rest]. rewrite ws_matches, Hy.
    eapply (starLoop_greedy_run flags_none false [CSpace] Some tl) with (w := w).
    - destruct tl as [|z tl]; [done|]. by rewrite ws_matches.
    - cbn [advance rest]. rewrite length_app. lia.
    - eapply Forall_impl; [exact Hw|]. intros c Hc. by rewrite ws_matches.
    - done.
    - cbn [advance pos prev caps s0]. do 2 f_equal. lia. }
  rewrite H. cbn [pos caps]. do 2 f_equal.
  replace (p + 2 + length w - p) with (length (x :: y :: w)) by (cbn [length]; lia).
  change (x :: y :: w ++ tl) with ((x :: y :: w) ++ tl).
  by rewrite take_app_length.
Qed.

Lemma tryAt_not_spaces p pv rs :
  match rs with
  | x :: y :: _ => isSpace x && isSpace y = false
  | _ => True
  end ->
  tryAt flags_none multipleSpaces p pv rs = None.
Proof.
  intros Hrs. unfold tryAt.
  destruct (rmatch flags_none multipleSpaces Some _) as [z|] eqn:H; [|done].
  exfalso.
  change (rmatch flags_none (Seq ws (Seq ws wsStar)) Some
            {| pos := p; prev := pv; rest := rs; caps := [] |} = Some z) in H.
  apply rmatch_ws_inv in H as (x1 & tl1 & Hr1 & Hx1 & H).
  apply rmatch_ws_inv in H as (x2 & tl2 & Hr2 & Hx2 & H).
  simpl in Hr1, Hr2. subst rs tl1. by rewrite Hx1, Hx2 in Hrs.
Qed.

Lemma squeeze_run w : forall tl,
  Forall (fun c => isSpace c = true) w ->
  match tl with [] => True | z :: _ => isSpace z = false end ->
  squeeze true (w ++ tl) = squeeze false tl.
Proof.
  induction w as [|x w IH]; intros tl Hw Htl.
  - destruct tl as [|z tl]; [done|]. cbn [app squeeze]. by rewrite Htl.
  - apply Forall_cons in Hw as [Hx Hw]. cbn [app squeeze]. rewrite Hx. by apply IH.
Qed.

Lemma replace_spaces text : forall n rs from fuel,
  length rs <= n -> drop from text = rs -> length rs < fuel ->
  splice (fun _ => js " ") text from
         (matchAllLoop flags_none multipleSpaces text fuel from)
  = squeeze false rs.
Proof.
  induction n as [|n IH]; intros rs from fuel Hn Hd Hfuel;
    (destruct fuel as [|fuel]; [lia|]).
  - destruct rs; [|simpl in Hn; lia]. cbn [matchAllLoop]. unfold exec.
    destruct (from <=? length text); [|by cbn [splice]; rewrite Hd].
    rewrite Hd. cbn [searchFrom]. rewrite tryAt_not_spaces by done.
    cbn [splice]. by rewrite Hd.
  - destruct rs as [|x rs].
    { cbn [matchAllLoop]. unfold exec.
      destruct (from <=? length text); [|by cbn [splice]; rewrite Hd].
      rewrite Hd. cbn [searchFrom]. rewrite tryAt_not_spaces by done.
      cbn [splice]. by rewrite Hd. }
    assert (Hlen : S from <= length text).
    { apply (f_equal length) in Hd. rewrite length_drop in Hd. simpl in Hd. lia. }
    assert (Hd' : drop (S from) text = rs).
    { replace (S from) with (from + 1) by lia. by rewrite <- drop_drop, Hd. }
    assert (Hpass : match x :: rs with
                    | x :: y :: _ => isSpace x && isSpace y = false
                    | _ => True
                    end ->
                    splice (fun _ => js " ") text from
                      (matchAllLoop flags_none multipleSpaces text (S fuel) from)
                    = x :: squeeze false rs).
    { intros Hx.
      rewrite (matchAllLoop_pass _ _ text from x rs) by (done || by apply tryAt_not_spaces).
      rewrite <- (IH rs (S from) (S fuel)) by (done || simpl in *; lia).
      apply (splice_skip (fun _ => js " ") text from x rs _ Hd).
      apply (matchAllLoop_ordered _ _ 0%N caseless_zero). }
    destruct (isSpace x) eqn:Hx.
    + destruct rs as [|y rs].
      { rewrite Hpass by done. cbn [squeeze]. by rewrite Hx. }
      destruct (isSpace y) eqn:Hy.
      * destruct (spaces_split rs) as (w & tl & -> & Hw & Htl).
        cbn [matchAllLoop]. unfold exec.
        rewrite (proj2 (Nat.leb_le _ _)) by lia. rewrite Hd.
        cbn [searchFrom]. rewrite tryAt_spaces by done.
        cbn [splice index mend]. rewrite Nat.sub_diag, take_0. cbn [app].
        replace (from + 2 + length w =? from) with false
          by (symmetry; apply Nat.eqb_neq; lia).
        change (js " ") with [ch " "]. cbn [app squeeze]. rewrite Hx, Hy.
        change (squeeze true (y :: w ++ tl)) with (squeeze true ((y :: w) ++ tl)).
        rewrite squeeze_run by (done || by constructor).
        f_equal. apply IH.
        -- simpl in Hn. rewrite length_app in Hn. lia.
        -- replace (from + 2 + length w) with (from + length (x :: y :: w))
             by (cbn [length]; lia).
           rewrite <- drop_drop, Hd.
           change (x :: y :: w ++ tl) with ((x :: y :: w) ++ tl).
           by rewrite drop_app_length.
        -- simpl in Hfuel. rewrite length_app in Hfuel. lia.
      * rewrite Hpass by (simpl; rewrite ?Hx, ?Hy; done). cbn [squeeze]. by rewrite Hx, Hy.
    + rewrite Hpass.
      * cbn [squeeze]. by rewrite Hx.
      * destruct rs as [|y rs]; [done|]. by rewrite Hx.
Qed.

(** [text.replace(/\s{2,}/g, ' ')] puts one blank in the place of every run
    of two or more white-space characters. *)
Lemma replaceAll_spaces text :
  replaceAll flags_none multipleSpaces (fun _ => js " ") text = squeeze false text.
Proof.
  unfold replaceAll, matchAll. by apply (replace_spaces text (length text)); [| |lia].
Qed.

End Squeeze.

Section SingleSpaced.

Lemma singleSpaced_cons c (l : jsstring) :
  match l with [] => True | x :: _ => isSpace x = false end ->
  singleSpaced l = true -> singleSpaced (c :: l) = true.
Proof.
  destruct l as [|x l]; [done|]. intros Hx Hl.
  change (negb (isSpace c && isSpace x) && singleSpaced (x :: l) = true).
  by rewrite Hx, andb_false_r, Hl.
Qed.

Lemma singleSpaced_nonspace c (l : jsstring) :
  isSpace c = false -> singleSpaced l = true -> singleSpaced (c :: l) = true.
Proof.
  destruct l as [|x l]; [done|]. intros Hc Hl.
  change (negb (isSpace c && isSpace x) && singleSpaced (x :: l) = true).
  by rewrite Hc, Hl.
Qed.

Lemma squeeze_singleSpaced s :
  singleSpaced (squeeze false s) = true
  /\ singleSpaced (squeeze true s) = true
  /\ match squeeze true s with [] => True | x :: _ => isSpace x = false end.
Proof.
  induction s as [|x s (IH1 & IH2 & IH3)]; [done|].
  cbn [squeeze]. destruct (isSpace x) eqn:Hx.
  - split_and!; [|done|done].
    destruct s as [|y s]; [done|]. destruct (isSpace y) eqn:Hy.
    + by apply singleSpaced_cons.
    + apply singleSpaced_cons; [|done]. cbn [squeeze]. by rewrite Hy.
  - split_and!; [by apply singleSpaced_nonspace..|done].
Qed.

Lemma singleSpaced_app_r (a b : jsstring) :
  singleSpaced (a ++ b) = true -> singleSpaced b = true.
Proof.
  induction a as [|x a IH]; [done|]. intros H. by apply IH, (singleSpaced_tail x).
Qed.

Lemma singleSpaced_app_l (a b : jsstring) :
  singleSpaced (a ++ b) = true -> singleSpaced a = true.
Proof.
  induction a as [|x a IH]; [done|]. destruct a as [|y a]; [done|].
  cbn [app singleSpaced]. intros [H1 H2]%andb_true_iff.
  rewrite H1. by apply IH.
Qed.

Lemma singleSpaced_adjacent (a : jsstring) c d b :
  singleSpaced (a ++ c :: d :: b) = true -> isSpace c && isSpace d = false.
Proof.
  intros H%singleSpaced_app_r. cbn [singleSpaced] in H.
  apply andb_true_iff in H as [H _]. by apply negb_true_iff.
Qed.

(** In single-spaced text the pattern of the blank lines can match at the
    start only, and only a line break. *)
Lemma emptyLine_at (a b : jsstring) m :
  singleSpaced (a ++ b) = true ->
  tryAt flags_m emptyLine (length a) (last a) b = Some m ->
  index m = 0 /\ mend m = 1.
Proof.
  intros Hs. unfold tryAt.
  destruct (rmatch flags_m emptyLine Some _) as [z|] eqn:H; [|done]. intros [= <-].
  cbn [index mend].
  change (rmatch flags_m (Seq Bol (Seq wsStar newline)) Some
            {| pos := length a; prev := last a; rest := b; caps := [] |} = Some z) in H.
  cbn [rmatch] in H. unfold atLineStart in H. cbn [prev multiline flags_m] in H.
  assert (Ha : match last a with None => True | Some c => isSpace c = true end
               /\ rmatch flags_m (Seq wsStar newline) Some
                    {| pos := length a; prev := last a; rest := b; caps := [] |}
                  = Some z).
  { destruct (last a) as [c|]; [|done].
    destruct (isLineTerminator c) eqn:Hc; [|done].
    split; [by apply isSpace_lineTerminator|done]. }
  clear H. destruct Ha as [Ha H].
  apply rmatch_seq_inv in H as (y & w & H & [Hw Hp _ _ Hall]).
  apply rmatch_chr_inv in H as (tl & Hy & [= <-]); [|done].
  cbn [rest pos advance] in *. rewrite Hy in Hw. subst b.
  assert (w = []) as ->.
  { destruct w as [|c1 w]; [done|]. exfalso.
    apply Forall_cons in Hall as [H1 Hall]. cbn [allows wsStar ws] in H1.
    rewrite ws_matches in H1.
    apply singleSpaced_app_r in Hs. destruct w as [|c2 w].
    - cbn [app singleSpaced] in Hs. rewrite H1 in Hs. done.
    - apply Forall_cons in Hall as [H2 _]. cbn [allows wsStar ws] in H2.
      rewrite ws_matches in H2.
      cbn [app singleSpaced] in Hs. rewrite H1, H2 in Hs. done. }
  cbn [app length] in *. rewrite Hp.
  assert (a = []) as ->; [|cbn; lia].
  destruct a as [|c0 a _] using rev_ind; [done|]. exfalso.
  rewrite last_snoc in Ha. rewrite <- app_assoc in Hs. cbn [app] in Hs.
  apply singleSpaced_adjacent in Hs. by rewrite Ha in Hs.
Qed.

Lemma emptyLine_singleSpaced text :
  singleSpaced text = true ->
  singleSpaced (replaceAll flags_m emptyLine (fun _ => []) text) = true.
Proof.
  intros Hs. unfold replaceAll.
  assert (Hall : Forall (fun m => index m = 0 /\ mend m = 1)
                        (matchAll flags_m emptyLine text)).
  { apply matchAllLoop_Forall. intros i m (a & b & -> & _ & H)%exec_at.
    by apply (emptyLine_at a b). }
  pose proof (matchAllLoop_ordered flags_m emptyLine 0%N caseless_zero text
                (S (length text)) 0) as Ho.
  fold (matchAll flags_m emptyLine text) in Ho.
  destruct (matchAll flags_m emptyLine text) as [|m1 [|m2 ms]].
  - done.
  - apply Forall_cons in Hall as [[Hi He] _]. cbn [splice]. rewrite Hi, He.
    cbn [take drop app]. destruct text as [|x text]; [done|].
    by apply (singleSpaced_tail x).
  - apply Forall_cons in Hall as [[_ He] Hall].
    apply Forall_cons in Hall as [[Hi _] _].
    cbn [ordered] in Ho. lia.
Qed.

Lemma trimStart_suffix s : exists w, s = w ++ trimStart s.
Proof.
  induction s as [|x s [w Hw]]; [by exists []|]. cbn [trimStart].
  destruct (isSpace x); [|by exists []]. exists (x :: w). cbn [app]. by f_equal.
Qed.

Lemma trimEnd_prefix s : exists w, s = trimEnd s ++ w.
Proof.
  unfold trimEnd. destruct (trimStart_suffix (reverse s)) as [w Hw].
  exists (reverse w). by rewrite <- reverse_app, <- Hw, reverse_involutive.
Qed.

Lemma trim_singleSpaced s : singleSpaced s = true -> singleSpaced (trim s) = true.
Proof.
  intros H. unfold trim.
  destruct (trimStart_suffix s) as [w Hw]. rewrite Hw in H.
  apply singleSpaced_app_r in H.
  destruct (trimEnd_prefix (trimStart s)) as [w' Hw']. rewrite Hw' in H.
  by apply singleSpaced_app_l in H.
Qed.

(** What [stripBrackets] returns has no two adjacent white-space
    characters. *)
Lemma stripBrackets_singleSpaced text : singleSpaced (stripBrackets text) = true.
Proof.
  destruct text as [|x text]; [done|]. unfold stripBrackets. cbv zeta.
  apply trim_singleSpaced, emptyLine_singleSpaced.
  rewrite replaceAll_spaces. apply squeeze_singleSpaced.
Qed.

End SingleSpaced.

(** A text is a fixed point of [stripBrackets] exactly when it is trimmed,
    single-spaced and settled. *)
Lemma stripBrackets_fixed_iff t :
  stripBrackets t = t <-> trim t = t /\ singleSpaced t = true /\ settled t = true.
Proof.
  split.
  - intros H. destruct (fixed_point_settled t H) as [T S].
    split_and!; [done| |done]. rewrite <- H. apply stripBrackets_singleSpaced.
  - intros (T & S & H). by apply settled_fixed_point.
Qed.

(** C8, as amended: what [stripBrackets] returns is trimmed and has no two
    adjacent white-space characters.  A text is returned as it is exactly
    when it is trimmed, has no two adjacent white-space characters and is
    settled: not enclosed in a bracket pair, without a placeholder in square
    brackets, and without a match of the five patterns that clean up labels
    and pipes.  So applying [stripBrackets] twice yields the same as applying
    it once exactly when the result of the first application is settled. *)
Theorem stripBrackets_fixed_point t :
  (trim (stripBrackets t) = stripBrackets t
   /\ singleSpaced (stripBrackets t) = true)
  /\ (stripBrackets t = t
      <-> trim t = t /\ singleSpaced t = true /\ settled t = true)
  /\ (stripBrackets (stripBrackets t) = stripBrackets t
      <-> settled (stripBrackets t) = true).
Proof.
  split_and!.
  - apply stripBrackets_trimmed.
  - apply stripBrackets_singleSpaced.
  - apply stripBrackets_fixed_iff.
  - rewrite stripBrackets_fixed_iff. split; [by intros (_ & _ & H)|].
    intros H. split_and!; [apply stripBrackets_trimmed|apply stripBrackets_singleSpaced|done].
Qed.

Lemma stripBrackets_fixed_point_witness :
  stripBrackets (js "Mood: calm | Inventory: [Sword +1], Shield")
  = js "Mood: calm | Inventory: [Sword +1], Shield"
  /\ stripBrackets (js "Items (2):\n- a") = js "Items (2):\n- a"
  /\ stripBrackets (stripBrackets
       (js "Stats\n---\nHealth: 80%\nMood: [Mood Emoji] calm | Bob: Friend"))
     = stripBrackets
         (js "Stats\n---\nHealth: 80%\nMood: [Mood Emoji] calm | Bob: Friend").
Proof.
  split_and!.
  - apply (proj1 (proj2 (stripBrackets_fixed_point
                           (js "Mood: calm | Inventory: [Sword +1], Shield")))).
    by vm_compute.
  - apply (proj1 (proj2 (stripBrackets_fixed_point (js "Items (2):\n- a")))).
    by vm_compute.
  - apply (proj2 (proj2 (stripBrackets_fixed_point
             (js "Stats\n---\nHealth: 80%\nMood: [Mood Emoji] calm | Bob: Friend")))).
    by vm_compute.
Defined.

(** C8 as stated fails: [stripBrackets] is a single pass, and a later step
    can leave work for an earlier one.  Each text below is changed again by a
    second application, each for another reason: the removal of a
    placeholder exposes a pair of enclosing brackets; it joins the two
    halves of another placeholder; the comma taken from behind a label, or
    the pipe, leaves an empty label; the pipe taken from behind a colon
    leaves a label before a comma; of two pipes behind a colon, of three
    pipes in a row and of three pipes at the end of a line, one pass removes
    one only. *)
Lemma stripBrackets_not_idempotent :
  (stripBrackets (js "(Health: 80%) [Mood]") = js "(Health: 80%)"
   /\ stripBrackets (js "(Health: 80%)") = js "Health: 80%")
  /\ (stripBrackets (js "x [a[b]mood]") = js "x [amood]"
      /\ stripBrackets (js "x [amood]") = js "x")
  /\ (stripBrackets (js "Name: ,\nx") = js "Name:\nx"
      /\ stripBrackets (js "Name:\nx") = js "x")
  /\ (stripBrackets (js "A:|,b") = js "A:,b"
      /\ stripBrackets (js "A:,b") = js "A:b")
  /\ (stripBrackets (js "x: | | y") = js "x: | y"
      /\ stripBrackets (js "x: | y") = js "x: y")
  /\ (stripBrackets (js "a|||b") = js "a||b"
      /\ stripBrackets (js "a||b") = js "a|b")
  /\ (stripBrackets (js "a | | |") = js "a |"
      /\ stripBrackets (js "a |") = js "a")
  /\ stripBrackets (stripBrackets (js "(Health: 80%) [Mood]"))
     <> stripBrackets (js "(Health: 80%) [Mood]").
Proof. vm_compute. done. Qed.
